(** * Pauli conversion and state measurement: a shallow embedding

    This development embeds two modules of the repository,

      - [pennylane/pauli/conversion.py]   ([pauli_decompose], [pauli_sentence])
      - [pennylane/devices/qubit/measure.py] ([measure] and its two strategies)

    and proves properties of them.

    Numbers.  Arithmetic is exact: a complex number is a pair of canonical
    rationals ([Qc]) and stands for a [complex128] (or, with imaginary
    part zero, a [float64]) value computed without rounding.  The rounding
    of binary64 arithmetic is outside the model: a property that rests on
    the laws of exact arithmetic (associativity, the value of a sum) says
    so, and holds of the program up to rounding only.  The one place where
    the code itself compares against a tolerance ([qml.math.allclose]) is
    modelled with the same threshold on exact numbers.

    Arrays.  An array carries its dtype, [float64] or [complex128], because
    [pauli_decompose] works in place on an array of the dtype of its
    argument and the step [term_mat[c] *= 1j] depends on it. *)

From Stdlib Require Import ZArith QArith Qcanon Lia Lqa List Bool Arith PeanoNat.
From stdpp Require Import gmap strings list.

Set Warnings "-notation-for-abbreviation,-register-all".

Open Scope Qc_scope.

(** ** Exact complex numbers *)

(** The numbers of the model: exact Gaussian rationals in place of the
    binary64 components of the program's numbers.  No operation below
    rounds. *)
Definition C : Type := (Qc * Qc)%type.

Definition Cre (z : C) : Qc := fst z.
Definition Cim (z : C) : Qc := snd z.
Definition C0 : C := (0, 0).
Definition C1 : C := (1, 0).
(** Python's [1j]. *)
Definition Ci : C := (0, 1).
Definition Cadd (a b : C) : C := (Cre a + Cre b, Cim a + Cim b).
Definition Csub (a b : C) : C := (Cre a - Cre b, Cim a - Cim b).
Definition Copp (a : C) : C := (- Cre a, - Cim a).
Definition Cmul (a b : C) : C :=
  (Cre a * Cre b - Cim a * Cim b, Cre a * Cim b + Cim a * Cre b).
(** [math.conj]. *)
Definition Cconj (a : C) : C := (Cre a, - Cim a).
(** [math.real]: the result is a real number; seen as a complex number its
    imaginary component is zero. *)
Definition Creal (a : C) : C := (Cre a, 0).
(** Storing a complex value into an element of a [float64] array: NumPy
    keeps the real part (and warns that the imaginary part is
    discarded). *)
Definition astype_float64 (a : C) : C := (Cre a, 0).
(** Squared modulus. *)
Definition Cnorm2 (a : C) : Qc := Cre a * Cre a + Cim a * Cim a.
Definition Qc_of_nat (n : nat) : Qc := Q2Qc (inject_Z (Z.of_nat n)).
(** Division of a complex number by a (non-negative) integer, as in
    [term_mat /= shape[0]]. *)
Definition Cdivn (a : C) (n : nat) : C := (Cre a / Qc_of_nat n, Cim a / Qc_of_nat n).
Definition Qc_le_bool (a b : Qc) : bool := Qle_bool (this a) (this b).
Definition C_eq_bool (a b : C) : bool := Qc_eq_bool (Cre a) (Cre b) && Qc_eq_bool (Cim a) (Cim b).

(** NumPy's default absolute tolerance, [atol = 1e-08]. *)
Definition atol : Qc := Q2Qc (1 # 100000000).

(** Modelled from the spec: [qml.math.allclose(coefficient, 0)] (pennylane.math
    is not under src/).  With the second argument 0 the relative part of
    NumPy's test vanishes and the test is [|coefficient| <= atol]; on exact
    numbers the modulus is compared through its square. *)
Definition allclose0 (c : C) : bool := Qc_le_bool (Cnorm2 c) (atol * atol).

(** [a] and [b] differ by at most [eps] in modulus. *)
Definition Cclose (eps : Qc) (a b : C) : Prop := Cnorm2 (Csub a b) <= eps * eps.
Definition Cclose_bool (eps : Qc) (a b : C) : bool := Qc_le_bool (Cnorm2 (Csub a b)) (eps * eps).

(** ** Results of fallible code *)

Inductive result (E A : Type) : Type :=
| Ok (a : A)
| Raise (e : E).
Arguments Ok {E A} a.
Arguments Raise {E A} e.

Global Instance result_bind {E : Type} : MBind (result E) :=
  fun A B (k : A -> result E B) (r : result E A) =>
    match r with
    | Ok a => k a
    | Raise e => Raise e
    end.

(** ** The Pauli term model *)

(** The four symbols [I = "I"], [X = "X"], [Y = "Y"], [Z = "Z"] of
    [pauli_arithmetic]. *)
Module Label.
Inductive t : Set := I | X | Y | Z.
End Label.
Notation label := Label.t.

Global Instance label_eq_dec : EqDecision label.
Proof. solve_decision. Defined.

Definition label_to_nat (l : label) : nat :=
  match l with Label.I => 0 | Label.X => 1 | Label.Y => 2 | Label.Z => 3 end.
Definition label_of_nat (n : nat) : label :=
  match n with 0 => Label.I | 1 => Label.X | 2 => Label.Y | _ => Label.Z end.

Global Instance label_countable : Countable label.
Proof. apply (inj_countable' label_to_nat label_of_nat). by intros []. Defined.

(** A wire is an integer or a string label. *)
Definition wire : Type := (Z + string)%type.

(** A Pauli word maps the wires it acts on to a non-identity symbol; a
    Pauli sentence maps words to coefficients. *)
Notation PauliWord := (gmap wire label).
Notation PauliSentence := (gmap (gmap wire label) C).

(** Modelled from the spec: the constructor [PauliWord(mapping)] of
    [pauli_arithmetic] (not under src/): the keys present are exactly the
    acted-on wires, identity entries are not stored.  A dict built from
    key/value pairs keeps the last value of a repeated key. *)
Definition dict_of_pairs {K V : Type} `{Countable K} (l : list (K * V)) : gmap K V :=
  fold_left (fun m kv => <[fst kv := snd kv]> m) l ∅.
Definition make_PauliWord (mapping : gmap wire label) : gmap wire label :=
  filter (fun kv => snd kv <> Label.I) mapping.

(** Modelled from the spec: the single-qubit Pauli multiplication table,
    [X*Y = iZ], [Y*Z = iX], [Z*X = iY], the reversed products with phase
    [-i]. *)
Definition mul_label (a b : label) : label * C :=
  match a, b with
  | Label.I, x => (x, C1)
  | x, Label.I => (x, C1)
  | Label.X, Label.X | Label.Y, Label.Y | Label.Z, Label.Z => (Label.I, C1)
  | Label.X, Label.Y => (Label.Z, Ci)
  | Label.Y, Label.Z => (Label.X, Ci)
  | Label.Z, Label.X => (Label.Y, Ci)
  | Label.Y, Label.X => (Label.Z, Copp Ci)
  | Label.Z, Label.Y => (Label.X, Copp Ci)
  | Label.X, Label.Z => (Label.Y, Copp Ci)
  end.

(** Modelled from the spec: [multiply(word_a, word_b) -> (word_result, phase)],
    a per-wire table lookup; wires of one operand only pass through with
    phase 1. *)
Definition pw_mul (a b : gmap wire label) : gmap wire label * C :=
  (make_PauliWord
     (merge (fun oa ob =>
               match oa, ob with
               | Some la, Some lb => Some (fst (mul_label la lb))
               | Some la, None => Some la
               | None, ob => ob
               end) a b),
   map_fold (fun w la ph =>
               match b !! w with
               | Some lb => Cmul ph (snd (mul_label la lb))
               | None => ph
               end) C1 a).

(** Modelled from the spec: [sentence_add], a key-wise merge that sums the
    coefficients of identical words and prunes nothing. *)
Definition ps_add (a b : gmap (gmap wire label) C) : gmap (gmap wire label) C :=
  union_with (fun x y => Some (Cadd x y)) a b.

Definition ps_accumulate (w : gmap wire label) (c : C) (acc : gmap (gmap wire label) C) :
  gmap (gmap wire label) C :=
  <[w := Cadd (default C0 (acc !! w)) c]> acc.

(** Modelled from the spec: [sentence_multiply], every pair of words is
    multiplied, the phase goes into the product of the coefficients, and
    the result is accumulated under the resulting word. *)
Definition ps_mul (a b : gmap (gmap wire label) C) : gmap (gmap wire label) C :=
  map_fold (fun wa ca acc =>
    map_fold (fun wb cb acc' =>
      let '(w, ph) := pw_mul wa wb in
      ps_accumulate w (Cmul ph (Cmul ca cb)) acc') acc b) ∅ a.

(** ** Operators *)

(** The operator variants that [_pauli_sentence] dispatches on.  Every
    operator carries its cached [_pauli_rep] ([None] in Python is [None]
    here).  [Other] stands for every class that has no registered
    conversion ([RX], [Hadamard], [Hermitian], [SparseHamiltonian], ...);
    it keeps the class name and the wires. *)
Inductive Operator : Type :=
| PauliX (rep : option (gmap (gmap wire label) C)) (w : wire)
| PauliY (rep : option (gmap (gmap wire label) C)) (w : wire)
| PauliZ (rep : option (gmap (gmap wire label) C)) (w : wire)
| Identity (rep : option (gmap (gmap wire label) C)) (w : wire)
| Tensor (rep : option (gmap (gmap wire label) C)) (obs : list Operator)
| Prod (rep : option (gmap (gmap wire label) C)) (operands : list Operator)
| SProd (rep : option (gmap (gmap wire label) C)) (scalar : C) (base : Operator)
| Hamiltonian (rep : option (gmap (gmap wire label) C)) (coeffs : list C) (ops : list Operator)
| Sum (rep : option (gmap (gmap wire label) C)) (operands : list Operator)
| Other (rep : option (gmap (gmap wire label) C)) (name : string) (wires : list wire).

(** [op._pauli_rep]. *)
Definition _pauli_rep (op : Operator) : option (gmap (gmap wire label) C) :=
  match op with
  | PauliX rep _ | PauliY rep _ | PauliZ rep _ | Identity rep _
  | Tensor rep _ | Prod rep _ | SProd rep _ _ | Hamiltonian rep _ _
  | Sum rep _ | Other rep _ _ => rep
  end.

Definition class_name (op : Operator) : string :=
  match op with
  | PauliX _ _ => "PauliX"
  | PauliY _ _ => "PauliY"
  | PauliZ _ _ => "PauliZ"
  | Identity _ _ => "Identity"
  | Tensor _ _ => "Tensor"
  | Prod _ _ => "Prod"
  | SProd _ _ _ => "SProd"
  | Hamiltonian _ _ _ => "Hamiltonian"
  | Sum _ _ => "Sum"
  | Other _ name _ => name
  end.

(** [op.name]: the class name, except for a tensor, whose name is the list
    of the names of its factors. *)
Definition name (op : Operator) : string + list string :=
  match op with
  | Tensor _ obs => inr (map class_name obs)
  | _ => inl (class_name op)
  end.

(** The messages of the [ValueError]s raised in the two modules. *)
Inductive message : Type :=
| MustBeLinearCombination (op : Operator)
  (* "Op must be a linear combination of Pauli operators only, got: {op}" *)
| ShouldBeSquare (shape : nat * nat)
  (* "The matrix should be square, got {shape}. Use 'padding=True' for rectangular matrices." *)
| ShouldBePowerOfTwo (shape : nat * nat)
  (* "Dimension of the matrix should be a power of 2, got {shape}" *)
| WiresNotCompatible (n_wires num_qubits : nat)
  (* "number of wires {len(wire_order)} is not compatible with the number of qubits {num_qubits}" *)
| DimensionMismatch.
  (* raised by scipy when the shapes of a sparse product do not agree *)

Inductive exception : Type :=
| ValueError (msg : message)
| TypeError        (* [reduce] of an empty sequence with no initial value *)
| UFuncTypeError   (* NumPy: the result of an in-place operation cannot be cast to the
                      dtype of the array; a subclass of [TypeError] *)
| AttributeError   (* an attribute of [None] *)
| OverflowError    (* [int] of an infinite float *)
| NotImplementedError.

(** Modelled from the spec: [is_pauli_word] of [pennylane/pauli/utils.py]
    (not under src/): a single-qubit Pauli or the identity, or a
    tensor/product all of whose factors are such. *)
Definition is_pauli_factor (op : Operator) : bool :=
  match op with
  | PauliX _ _ | PauliY _ _ | PauliZ _ _ | Identity _ _ => true
  | _ => false
  end.

Definition is_pauli_word (op : Operator) : bool :=
  match op with
  | PauliX _ _ | PauliY _ _ | PauliZ _ _ | Identity _ _ => true
  | Tensor _ obs => forallb is_pauli_factor obs
  | Prod _ operands => forallb is_pauli_factor operands
  | _ => false
  end.

(** [reduce(f, iterable)] over the results of a lazily evaluated
    generator: the elements are produced one at a time, so the first
    failing element decides; an empty sequence is a [TypeError]. *)
Fixpoint reduce_from {A : Type} (f : A -> A -> A) (acc : A) (xs : list (result exception A)) :
  result exception A :=
  match xs with
  | [] => Ok acc
  | x :: xs' => b ← x; reduce_from f (f acc b) xs'
  end.

Definition reduce {A : Type} (f : A -> A -> A) (xs : list (result exception A)) :
  result exception A :=
  match xs with
  | [] => Raise TypeError
  | x :: xs' => a ← x; reduce_from f a xs'
  end.

(** [for pw, coeff in ps.items(): ps[pw] = g(coeff)]: every value of the
    dict is replaced, the keys stay. *)
Definition update_values (g : C -> C) (ps : gmap (gmap wire label) C) : gmap (gmap wire label) C :=
  g <$> ps.

(** The loop of the [Hamiltonian] case over the zipped [op.terms()]: each
    term is converted, scaled by its coefficient ([coeff * sub_coeff]) and
    appended to [summands]; the first failing term raises. *)
Definition scaled_summands (conv : Operator -> result exception (gmap (gmap wire label) C)) :
  list C -> list Operator -> result exception (list (gmap (gmap wire label) C)) :=
  fix go (cs : list C) (os : list Operator) {struct os} :=
    match os, cs with
    | term :: os', coeff :: cs' =>
        ps ← conv term;
        summands ← go cs' os';
        Ok (update_values (fun sub_coeff => Cmul coeff sub_coeff) ps :: summands)
    | _, _ => Ok []
    end.

(** [_pauli_sentence], the single-dispatch function with its nine
    registered cases and the default. *)
Fixpoint _pauli_sentence (op : Operator) : result exception (gmap (gmap wire label) C) :=
  match op with
  | PauliX _ w => Ok {[ make_PauliWord {[ w := Label.X ]} := C1 ]}
  | PauliY _ w => Ok {[ make_PauliWord {[ w := Label.Y ]} := C1 ]}
  | PauliZ _ w => Ok {[ make_PauliWord {[ w := Label.Z ]} := C1 ]}
  | Identity _ _ => Ok {[ make_PauliWord ∅ := C1 ]}
  | Tensor _ obs =>
      if negb (is_pauli_word op) then Raise (ValueError (MustBeLinearCombination op))
      else reduce ps_mul (map _pauli_sentence obs)
  | Prod _ operands => reduce ps_mul (map _pauli_sentence operands)
  | SProd _ scalar base =>
      ps ← _pauli_sentence base;
      Ok (update_values (fun coeff => Cmul coeff scalar) ps)
  | Hamiltonian _ coeffs ops =>
      if negb (forallb is_pauli_word ops) then Raise (ValueError (MustBeLinearCombination op))
      else
        summands ← scaled_summands _pauli_sentence coeffs ops;
        if 0 <? length summands then reduce ps_add (map Ok summands) else Ok ∅
  | Sum _ operands => reduce ps_add (map _pauli_sentence operands)
  | Other _ _ _ => Raise (ValueError (MustBeLinearCombination op))
  end.

(** [pauli_sentence]. *)
Definition pauli_sentence (op : Operator) : result exception (gmap (gmap wire label) C) :=
  match _pauli_rep op with
  | Some ps => Ok ps
  | None => _pauli_sentence op
  end.

(** ** Matrices *)

Local Open Scope nat_scope.

(** The dtypes of the model: [float64], the dtype NumPy gives to a matrix
    of Python floats, and [complex128], the dtype of a matrix with a
    complex entry.  Integer and other dtypes are not modelled. *)
Inductive scalar_type : Set := float64 | complex128.

(** A two-dimensional array: its dtype, its shape and its rows.  The
    entries of a [float64] array are the numbers with imaginary part
    zero. *)
Record ndarray : Type := { dtype : scalar_type; shape : nat * nat; data : list (list C) }.

Definition well_shaped (m : ndarray) : Prop :=
  length (data m) = fst (shape m) /\
  Forall (fun row => length row = snd (shape m)) (data m).

(** [m[r, c]]. *)
Definition item (m : ndarray) (r c : nat) : C := nth c (nth r (data m) []) C0.

(** The array of a dtype and a shape with given entries; [tabulate] is the
    complex one. *)
Definition tabulate_as (t : scalar_type) (rows cols : nat) (f : nat -> nat -> C) : ndarray :=
  {| dtype := t;
     shape := (rows, cols);
     data := map (fun r => map (f r) (seq 0 cols)) (seq 0 rows) |}.

Definition tabulate (rows cols : nat) (f : nat -> nat -> C) : ndarray :=
  tabulate_as complex128 rows cols f.

(** [qml.math.pad(matrix, ((0, after0), (0, after1)), mode="constant",
    constant_values=0)]; the result has the dtype of [matrix]. *)
Definition pad (matrix : ndarray) (after0 after1 : nat) : ndarray :=
  {| dtype := dtype matrix;
     shape := (fst (shape matrix) + after0, snd (shape matrix) + after1);
     data := map (fun row => row ++ repeat C0 after1) (data matrix)
             ++ repeat (repeat C0 (snd (shape matrix) + after1)) after0 |}.

(** [int(qml.math.log2(x))] and [int(qml.math.ceil(qml.math.log2(x)))] for a
    non-negative integer [x].  The logarithm of 0 is [-inf], which [int]
    refuses with an [OverflowError]; otherwise the logarithm is taken as
    exact. *)
Definition int_log2 (x : nat) : result exception nat :=
  if Nat.eqb x 0 then Raise OverflowError else Ok (Nat.log2 x).
Definition int_ceil_log2 (x : nat) : result exception nat :=
  if Nat.eqb x 0 then Raise OverflowError else Ok (Nat.log2_up x).

(** [abs(a - b)] on integers. *)
Definition abs_diff (a b : nat) : nat := (a - b) + (b - a).

(** ** [pauli_decompose] *)

(** The padding branch: the matrix is padded with zeros to a square of
    side [2**num_qubits], [num_qubits] the rounded-up logarithm of its
    larger side. *)
Definition pad_to_power_of_two (matrix : ndarray) : result exception ndarray :=
  let shape := shape matrix in
  num_qubits ← int_ceil_log2 (Nat.max (fst shape) (snd shape));
  if negb (Nat.eqb (fst shape) (snd shape)) || negb (Nat.eqb (fst shape) (2 ^ num_qubits)) then
    let padd_diffs := (abs_diff (fst shape) (2 ^ num_qubits), abs_diff (snd shape) (2 ^ num_qubits)) in
    Ok (pad matrix (fst padd_diffs) (snd padd_diffs))
  else Ok matrix.

(** "Permute by XORing": [indices] starts with [range(shape[0])]; each
    pass appends the last entry XORed with [(idx + 1) ^ idx]. *)
Definition xor_indices (n_rows : nat) : list (list nat) :=
  fold_left
    (fun indices idx =>
       indices ++ [map (fun v => Nat.lxor v (Nat.lxor (idx + 1) idx)) (List.last indices [])])
    (seq 0 (n_rows - 1))
    [seq 0 n_rows].

(** [enumerate]. *)
Definition enumerate {A : Type} (l : list A) : list (nat * A) := combine (seq 0 (length l)) l.

(** [qml.math.stack([matrix[idx, indice] for idx, indice in enumerate(indices)])];
    the rows, and so the stack, have the dtype of [matrix]. *)
Definition permuted (matrix : ndarray) (indices : list (list nat)) : ndarray :=
  {| dtype := dtype matrix;
     shape := (length indices, fst (shape matrix));
     data := map (fun p => map (fun col => item matrix (fst p) col) (snd p)) (enumerate indices) |}.

(** One pass of the Hadamard transform.  After the reshape to
    [(2,) * (2 * num_qubits)], axis [idx] is bit [num_qubits - 1 - idx] of
    the row and axis [idx + num_qubits] is the same bit of the column.
    The slice [a] holds the entries whose row has this bit 0, [b] those
    whose row has it 1, and [c] those of [b] whose column has it 1 too.
    The pass stores [a + b] in [a], [a - b] in [b] (both computed from the
    values before the pass) and then multiplies [c] by [1j], in place.

    The in-place product depends on the dtype of [term_mat], which is that
    of the argument of [pauli_decompose].  In a [complex128] array the
    entries of [c] are multiplied by [1j].  In a [float64] array of one
    qubit, [c] is the full index [(1, 1)]: the product is a complex scalar
    and storing it keeps its real part.  In a [float64] array of two or
    more qubits [c] is a view, and the in-place product of a real array by
    [1j] raises NumPy's [UFuncTypeError]. *)
Definition hadamard_pass (num_qubits : nat) (term_mat : ndarray) (idx : nat) :
  result exception ndarray :=
  let bit := num_qubits - 1 - idx in
  let summed :=
    tabulate_as (dtype term_mat) (fst (shape term_mat)) (snd (shape term_mat))
      (fun row col =>
         if Nat.testbit row bit
         then Csub (item term_mat (row - 2 ^ bit) col) (item term_mat row col)
         else Cadd (item term_mat row col) (item term_mat (row + 2 ^ bit) col)) in
  let times_1j (store : C -> C) :=
    tabulate_as (dtype term_mat) (fst (shape term_mat)) (snd (shape term_mat))
      (fun row col =>
         if Nat.testbit row bit && Nat.testbit col bit
         then store (Cmul (item summed row col) Ci)
         else item summed row col) in
  match dtype term_mat with
  | complex128 => Ok (times_1j (fun x => x))
  | float64 =>
      if Nat.eqb num_qubits 1 then Ok (times_1j astype_float64)
      else Raise UFuncTypeError
  end.

(** A [for] loop whose body may raise: the first error ends the loop. *)
Fixpoint for_each {S A : Type} (body : S -> A -> result exception S) (xs : list A) (s : S) :
  result exception S :=
  match xs with
  | [] => Ok s
  | x :: xs' => s' ← body s x; for_each body xs' s'
  end.

(** [term_mat /= shape[0]]: the quotient of a [float64] or [complex128]
    array by an integer is stored in place. *)
Definition divide (term_mat : ndarray) (d : nat) : ndarray :=
  {| dtype := dtype term_mat;
     shape := shape term_mat;
     data := map (map (fun x => Cdivn x d)) (data term_mat) |}.

(** [itertools.product(pool, repeat=n)]: starting from the one empty
    tuple, each round extends every tuple by every element of the pool. *)
Fixpoint product {A : Type} (pool : list A) (n : nat) : list (list A) :=
  match n with
  | 0 => [[]]
  | S n' => flat_map (fun x => map (fun y => x ++ [y]) pool) (product pool n')
  end.

Definition IXYZ : list label := [Label.I; Label.X; Label.Y; Label.Z].

(** [rep in "YZ"] and [rep in "XY"]. *)
Definition in_YZ (rep : label) : bool :=
  match rep with Label.Y | Label.Z => true | _ => false end.
Definition in_XY (rep : label) : bool :=
  match rep with Label.X | Label.Y => true | _ => false end.
Definition is_I (rep : label) : bool :=
  match rep with Label.I => true | _ => false end.

(** [int("".join(map(str, x)), 2)] for a row [x] of 0/1 entries. *)
Definition int_base2 (bits : list bool) : nat :=
  fold_left (fun acc (b : bool) => 2 * acc + (if b then 1 else 0)) bits 0.

(** The coefficient of one Pauli string: the entry of [term_mat] at the
    row packed from the [in "YZ"] bits and the column packed from the
    [in "XY"] bits.  (With no qubit the index tuple is empty and selects
    the whole 1x1 array, whose only entry this is.) *)
Definition coefficient_of (term_mat : ndarray) (pauli_rep : list label) : C :=
  item term_mat (int_base2 (map in_YZ pauli_rep)) (int_base2 (map in_XY pauli_rep)).

Definition observables_of (hide_identity : bool) (wire_order : list wire) (pauli_rep : list label) :
  list (label * wire) :=
  if hide_identity && negb (forallb is_I pauli_rep)
  then map (fun wo => (snd wo, fst wo))
           (List.filter (fun wo => negb (is_I (snd wo))) (combine wire_order pauli_rep))
  else map (fun wo => (snd wo, fst wo)) (combine wire_order pauli_rep).

(** The loop over [product("IXYZ", repeat=num_qubits)] that fills [terms]. *)
Definition collect_terms (hide_identity : bool) (wire_order : list wire) (num_qubits : nat)
  (term_mat : ndarray) : list C * list (list (label * wire)) :=
  fold_left
    (fun terms pauli_rep =>
       let coefficient := coefficient_of term_mat pauli_rep in
       if negb (allclose0 coefficient) then
         let observables := observables_of hide_identity wire_order pauli_rep in
         match observables with
         | [] => terms
         | _ :: _ => (fst terms ++ [coefficient], snd terms ++ [observables])
         end
       else terms)
    (product IXYZ num_qubits)
    ([], []).

(** [op_map[o](w)]; a freshly built operator has no cached sentence in this
    model. *)
Definition op_map (o : label) (w : wire) : Operator :=
  match o with
  | Label.I => Identity None w
  | Label.X => PauliX None w
  | Label.Y => PauliY None w
  | Label.Z => PauliZ None w
  end.

(** Modelled from the spec: [a @ b] on observables ([Observable.__matmul__]
    and [Tensor.__matmul__] of [pennylane/operation.py], not under src/)
    builds the tensor product of the factors, in order. *)
Definition matmul (a b : Operator) : Operator :=
  match a with
  | Tensor _ obs => Tensor None (obs ++ [b])
  | _ => Tensor None [a; b]
  end.

Fixpoint collect {A : Type} (xs : list (result exception A)) : result exception (list A) :=
  match xs with
  | [] => Ok []
  | x :: xs' => a ← x; rest ← collect xs'; Ok (a :: rest)
  end.

(** [pauli_decompose(matrix, hide_identity, wire_order, pauli, padding)]. *)
Definition pauli_decompose (matrix : ndarray) (hide_identity : bool)
  (wire_order : option (list wire)) (pauli padding : bool) :
  result exception (gmap (gmap wire label) C + Operator) :=
  matrix ← (if padding then pad_to_power_of_two matrix else Ok matrix);
  let shape := shape matrix in
  if negb (Nat.eqb (fst shape) (snd shape)) then Raise (ValueError (ShouldBeSquare shape)) else
  num_qubits ← int_log2 (fst shape);
  if negb (Nat.eqb (fst shape) (2 ^ num_qubits)) then Raise (ValueError (ShouldBePowerOfTwo shape)) else
  wire_order ← match wire_order with
               | Some ws =>
                   if negb (Nat.eqb (length ws) num_qubits)
                   then Raise (ValueError (WiresNotCompatible (length ws) num_qubits))
                   else Ok ws
               | None => Ok (map (fun k => inl (Z.of_nat k)) (seq 0 num_qubits))
               end;
  let indices := xor_indices (fst shape) in
  let term_mat := permuted matrix indices in
  term_mat ← for_each (hadamard_pass num_qubits) (seq 0 num_qubits) term_mat;
  let term_mat := divide term_mat (fst shape) in
  let terms := collect_terms hide_identity wire_order num_qubits term_mat in
  if pauli then
    Ok (inl (dict_of_pairs
               (map (fun t => (make_PauliWord
                                 (dict_of_pairs (map (fun ow => (snd ow, fst ow)) (snd t))),
                               fst t))
                    (combine (fst terms) (snd terms)))))
  else
    obs ← collect (map (fun obs_term =>
                          reduce matmul (map (fun ow => Ok (op_map (fst ow) (snd ow))) obs_term))
                       (snd terms));
    Ok (inr (Hamiltonian None (fst terms) obs)).

(** ** Measurements on a state ([devices/qubit/measure.py]) *)

(** Modelled from the spec: the measurement classes of
    [pennylane/measurements] (not under src/), one per return-type tag.
    Expectation, variance, probability and state measurements are state
    measurements; sample and classical-shadow measurements are not. *)
Inductive measurement_class : Set :=
| ExpectationMP | VarianceMP | ProbabilityMP | StateMP | SampleMP | ClassicalShadowMP.

Record MeasurementProcess : Type :=
  { mp_class : measurement_class;
    obs : option Operator;
    mp_wires : list wire }.

(** [isinstance(measurementprocess, StateMeasurement)]. *)
Definition isinstance_StateMeasurement (mp : MeasurementProcess) : bool :=
  match mp_class mp with
  | ExpectationMP | VarianceMP | ProbabilityMP | StateMP => true
  | SampleMP | ClassicalShadowMP => false
  end.

(** [isinstance(measurementprocess, ExpectationMP)]. *)
Definition isinstance_ExpectationMP (mp : MeasurementProcess) : bool :=
  match mp_class mp with
  | ExpectationMP => true
  | _ => false
  end.

(** A dense tensor: its shape and its entries in row-major order, so
    that [flatten] is [tdata]. *)
Record tensor : Type := { tshape : list nat; tdata : list C }.

(** The collaborators of this module, which live outside it: the
    diagonalizing gates and the reduction of a measurement process, the
    state-evolution primitive, and the sparse matrix of an observable in a
    given wire order. *)
Record collaborators : Type :=
  { diagonalizing_gates : MeasurementProcess -> list Operator;
    apply_operation : Operator -> tensor -> tensor;
    process_state : MeasurementProcess -> list C -> list nat -> tensor;
    sparse_matrix : Operator -> list nat -> result exception ndarray }.

(** [state_diagonalizing_gates]. *)
Definition state_diagonalizing_gates (env : collaborators)
  (measurementprocess : MeasurementProcess) (state : tensor) : result exception tensor :=
  let state := fold_left (fun st op => apply_operation env op st)
                         (diagonalizing_gates env measurementprocess) state in
  let total_indices := length (tshape state) in
  let wires := seq 0 total_indices in
  Ok (process_state env measurementprocess (tdata state) wires).

Definition Csum (l : list C) : C := fold_left Cadd l C0.

(** [csr_matrix.dot(a, b)]: the matrix product; scipy raises a
    [ValueError] when the inner dimensions differ. *)
Definition dot (a b : ndarray) : result exception ndarray :=
  if negb (Nat.eqb (snd (shape a)) (fst (shape b))) then Raise (ValueError DimensionMismatch)
  else Ok (tabulate (fst (shape a)) (snd (shape b))
             (fun i j => Csum (map (fun k => Cmul (item a i k) (item b k j))
                                   (seq 0 (snd (shape a)))))).

(** [csr_matrix(v)] of a vector is a single row; [csr_matrix(v[..., None])]
    a single column. *)
Definition row_matrix (v : list C) : ndarray :=
  {| dtype := complex128; shape := (1, length v); data := [v] |}.
Definition column_matrix (v : list C) : ndarray :=
  {| dtype := complex128; shape := (length v, 1); data := map (fun x => [x]) v |}.

(** [math.real(math.squeeze(res))] for a one-dimensional [res]: an array of
    one entry becomes a scalar (a tensor of empty shape). *)
Definition real_squeeze (res : list C) : tensor :=
  {| tshape := if Nat.eqb (length res) 1 then [] else [length res];
     tdata := map Creal res |}.

(** [state_hamiltonian_expval]. *)
Definition state_hamiltonian_expval (env : collaborators)
  (measurementprocess : MeasurementProcess) (state : tensor) : result exception tensor :=
  let total_wires := length (tshape state) in
  observable ← match obs measurementprocess with
               | Some o => Ok o
               | None => Raise AttributeError
               end;
  Hmat ← sparse_matrix env observable (seq 0 total_wires);
  let _state := tdata state in
  let bra := row_matrix (map Cconj _state) in
  let ket := column_matrix _state in
  new_ket ← dot Hmat ket;
  product ← dot bra new_ket;
  let res := nth 0 (data product) [] in
  Ok (real_squeeze res).

(** [measurementprocess.obs.name in ("Hamiltonian", "SparseHamiltonian")];
    reading [.name] of an absent observable is an [AttributeError]. *)
Definition obs_name_in (measurementprocess : MeasurementProcess) (names : list string) :
  result exception bool :=
  match obs measurementprocess with
  | None => Raise AttributeError
  | Some o =>
      match name o with
      | inl s => Ok (existsb (String.eqb s) names)
      | inr _ => Ok false
      end
  end.

(** [get_measurement_function]. *)
Definition get_measurement_function (env : collaborators)
  (measurementprocess : MeasurementProcess) :
  result exception (MeasurementProcess -> tensor -> result exception tensor) :=
  if isinstance_StateMeasurement measurementprocess then
    is_hamiltonian ← (if isinstance_ExpectationMP measurementprocess
                      then obs_name_in measurementprocess ["Hamiltonian"; "SparseHamiltonian"]
                      else Ok false);
    if (is_hamiltonian : bool) then Ok (state_hamiltonian_expval env)
    else Ok (state_diagonalizing_gates env)
  else Raise NotImplementedError.

(** [measure]. *)
Definition measure (env : collaborators) (measurementprocess : MeasurementProcess)
  (state : tensor) : result exception tensor :=
  f ← get_measurement_function env measurementprocess;
  f measurementprocess state.

(** ** Re-expanding a decomposition into a matrix *)

Definition Cint (z : Z) : C := (Q2Qc (inject_Z z), Q2Qc 0).

(** The four 2x2 Pauli matrices. *)
Definition pauli_matrix (l : label) : ndarray :=
  {| dtype := complex128;
     shape := (2, 2);
     data := match l with
             | Label.I => [[C1; C0]; [C0; C1]]
             | Label.X => [[C0; C1]; [C1; C0]]
             | Label.Y => [[C0; Copp Ci]; [Ci; C0]]
             | Label.Z => [[C1; C0]; [C0; Copp C1]]
             end |}.

(** The Kronecker product: the entry at row [p*i + k], column [q*j + l]
    of [kron a b] is [a[i, j] * b[k, l]] for [b] of shape [(p, q)]. *)
Definition kron (a b : ndarray) : ndarray :=
  tabulate (fst (shape a) * fst (shape b)) (snd (shape a) * snd (shape b))
    (fun r c => Cmul (item a (r / fst (shape b)) (c / snd (shape b)))
                     (item b (r mod fst (shape b)) (c mod snd (shape b)))).

Definition kron_all (ms : list ndarray) : ndarray :=
  fold_left kron ms {| dtype := complex128; shape := (1, 1); data := [[C1]] |}.

Definition zeros (rows cols : nat) : ndarray := tabulate rows cols (fun _ _ => C0).

Definition madd (a b : ndarray) : ndarray :=
  tabulate (fst (shape a)) (snd (shape a)) (fun r c => Cadd (item a r c) (item b r c)).

Definition mscale (k : C) (a : ndarray) : ndarray :=
  tabulate (fst (shape a)) (snd (shape a)) (fun r c => Cmul k (item a r c)).

(** The label of a single-qubit Pauli factor. *)
Definition label_of (op : Operator) : option label :=
  match op with
  | Identity _ _ => Some Label.I
  | PauliX _ _ => Some Label.X
  | PauliY _ _ => Some Label.Y
  | PauliZ _ _ => Some Label.Z
  | _ => None
  end.

(** The Pauli factors of one term of a decomposition. *)
Definition factors (op : Operator) : list Operator :=
  match op with
  | Tensor _ obs => obs
  | _ => [op]
  end.

(** The Kronecker product of the Pauli factors of a term. *)
Definition term_matrix (op : Operator) : option ndarray :=
  ls ← mapM label_of (factors op);
  Some (kron_all (map pauli_matrix ls)).

(** The sum over the terms of a weighted sum of
    [coefficient * kron(Pauli factors)], as a matrix on [num_qubits]
    qubits. *)
Definition reexpand (num_qubits : nat) (h : Operator) : option ndarray :=
  match h with
  | Hamiltonian _ coeffs ops =>
      ms ← mapM term_matrix ops;
      Some (fold_left madd (zip_with mscale coeffs ms) (zeros (2 ^ num_qubits) (2 ^ num_qubits)))
  | _ => None
  end.

(** ** Notions used to state the properties *)

(** The cache of an operator, when present, is the memoized result of its
    conversion. *)
Definition cache_coherent (op : Operator) : Prop :=
  forall ps, _pauli_rep op = Some ps -> _pauli_sentence op = Ok ps.

(** "An expectation value whose observable's declared name is
    [Hamiltonian] or [SparseHamiltonian]". *)
Definition is_hamiltonian_expval (mp : MeasurementProcess) : bool :=
  isinstance_ExpectationMP mp &&
  match obs mp with
  | Some o =>
      match name o with
      | inl s => String.eqb s "Hamiltonian" || String.eqb s "SparseHamiltonian"
      | inr _ => false
      end
  | None => false
  end.

(** The contraction [conj(state) . H . state]. *)
Definition contraction (H : ndarray) (psi : list C) : C :=
  Csum (map (fun i => Cmul (Cconj (nth i psi C0))
                           (Csum (map (fun j => Cmul (item H i j) (nth j psi C0))
                                      (seq 0 (length psi)))))
            (seq 0 (length psi))).

(** A measurement environment whose collaborators do nothing, for
    concrete evaluations. *)
Definition idle_env : collaborators :=
  {| diagonalizing_gates := fun _ => [];
     apply_operation := fun _ st => st;
     process_state := fun _ flat _ => {| tshape := [length flat]; tdata := flat |};
     sparse_matrix := fun _ _ => Raise AttributeError |}.

(** An environment in which every observable has the sparse matrix of
    Pauli Z. *)
Definition pauli_z_env : collaborators :=
  {| diagonalizing_gates := fun _ => [];
     apply_operation := fun _ st => st;
     process_state := fun _ flat _ => {| tshape := [length flat]; tdata := flat |};
     sparse_matrix := fun _ _ => Ok (pauli_matrix Label.Z) |}.

(** What one pass of the Hadamard transform leaves in a [complex128]
    array. *)
Definition complex_pass (num_qubits : nat) (term_mat : ndarray) (idx : nat) : ndarray :=
  let bit := num_qubits - 1 - idx in
  tabulate (fst (shape term_mat)) (snd (shape term_mat))
    (fun row col =>
       if Nat.testbit row bit then
         let diff := Csub (item term_mat (row - 2 ^ bit) col) (item term_mat row col) in
         if Nat.testbit col bit then Cmul diff Ci else diff
       else Cadd (item term_mat row col) (item term_mat (row + 2 ^ bit) col)).

(** The [term_mat] that the permutation, the loop and the division compute
    from a matrix on [n] qubits, of whatever dtype, and the one they leave
    when the matrix is [complex128]. *)
Definition computed_term_mat (matrix : ndarray) (n : nat) : result exception ndarray :=
  term_mat ← for_each (hadamard_pass n) (seq 0 n) (permuted matrix (xor_indices (2 ^ n)));
  Ok (divide term_mat (2 ^ n)).

Definition final_term_mat (matrix : ndarray) (n : nat) : ndarray :=
  divide (fold_left (complex_pass n) (seq 0 n) (permuted matrix (xor_indices (2 ^ n)))) (2 ^ n).

Definition default_wires (wire_order : option (list wire)) (n : nat) : list wire :=
  match wire_order with
  | Some ws => ws
  | None => map (fun k => inl (Z.of_nat k)) (seq 0 n)
  end.

Definition package (pauli : bool) (terms : list C * list (list (label * wire))) :
  result exception (gmap (gmap wire label) C + Operator) :=
  if pauli then
    Ok (inl (dict_of_pairs
               (map (fun t => (make_PauliWord
                                 (dict_of_pairs (map (fun ow => (snd ow, fst ow)) (snd t))),
                               fst t))
                    (combine (fst terms) (snd terms)))))
  else
    obs ← collect (map (fun obs_term =>
                          reduce matmul (map (fun ow => Ok (op_map (fst ow) (snd ow))) obs_term))
                       (snd terms));
    Ok (inr (Hamiltonian None (fst terms) obs)).

(** The wire order, when given, names one wire per qubit. *)
Definition wires_fit (wire_order : option (list wire)) (n : nat) : Prop :=
  match wire_order with
  | Some ws => length ws = n
  | None => True
  end.

Definition is_power_of_two (k : nat) : Prop := exists n, k = 2 ^ n.

(** Every tensor, product and sum inside an operator has at least one
    operand. *)
Fixpoint nonempty_composites (op : Operator) : bool :=
  match op with
  | Tensor _ operands | Prod _ operands | Sum _ operands =>
      negb (Nat.eqb (length operands) 0) && forallb nonempty_composites operands
  | SProd _ _ base => nonempty_composites base
  | Hamiltonian _ _ ops => forallb nonempty_composites ops
  | _ => true
  end.

(** The operators that are not linear combinations of Pauli words: an
    operator of an unregistered class; a tensor with a factor that is not
    a single-qubit Pauli or the identity; a weighted sum whose terms are
    not all Pauli words; and a product, scalar product or sum built on
    such an operator. *)
Inductive not_pauli_combination : Operator -> Prop :=
| npc_unregistered rep name wires :
    not_pauli_combination (Other rep name wires)
| npc_tensor rep obs :
    Exists (fun factor => is_pauli_factor factor = false) obs ->
    not_pauli_combination (Tensor rep obs)
| npc_prod rep operands :
    Exists not_pauli_combination operands ->
    not_pauli_combination (Prod rep operands)
| npc_sprod rep scalar base :
    not_pauli_combination base ->
    not_pauli_combination (SProd rep scalar base)
| npc_hamiltonian rep coeffs ops :
    Exists (fun term => is_pauli_word term = false) ops ->
    not_pauli_combination (Hamiltonian rep coeffs ops)
| npc_sum rep operands :
    Exists not_pauli_combination operands ->
    not_pauli_combination (Sum rep operands).

(** [inner] is [outer] or occurs inside it. *)
Inductive occurs_in (inner : Operator) : Operator -> Prop :=
| occurs_here : occurs_in inner inner
| occurs_tensor rep obs x : In x obs -> occurs_in inner x -> occurs_in inner (Tensor rep obs)
| occurs_prod rep operands x :
    In x operands -> occurs_in inner x -> occurs_in inner (Prod rep operands)
| occurs_sprod rep scalar base : occurs_in inner base -> occurs_in inner (SProd rep scalar base)
| occurs_hamiltonian rep coeffs ops x :
    In x ops -> occurs_in inner x -> occurs_in inner (Hamiltonian rep coeffs ops)
| occurs_sum rep operands x :
    In x operands -> occurs_in inner x -> occurs_in inner (Sum rep operands).

(** ** The Hadamard passes on entry functions *)

(** One pass, on the function that gives the entries of [term_mat]. *)
Definition pass_fn (bit : nat) (F : nat -> nat -> C) (row col : nat) : C :=
  if Nat.testbit row bit then
    let diff := Csub (F (row - 2 ^ bit) col) (F row col) in
    if Nat.testbit col bit then Cmul diff Ci else diff
  else Cadd (F row col) (F (row + 2 ^ bit) col).

Definition passes (bits : list nat) (F : nat -> nat -> C) : nat -> nat -> C :=
  fold_left (fun G bit => pass_fn bit G) bits F.

(** The bits visited by the loop [for idx in range(num_qubits)]. *)
Definition bit_order (n : nat) : list nat := map (fun idx => n - 1 - idx) (seq 0 n).

(** The entries whose row ends in bit [b] and whose column ends in bit [d]. *)
Definition blk (b d : bool) (F : nat -> nat -> C) (r c : nat) : C :=
  F (2 * r + Nat.b2n b) (2 * c + Nat.b2n d).

(** The row and the column of [term_mat] that hold the coefficient of a
    Pauli string, and the entries of the Kronecker product of the string. *)
Definition zrow (p : list label) : nat := int_base2 (map in_YZ p).
Definition xcol (p : list label) : nat := int_base2 (map in_XY p).
Definition pauli_entry (p : list label) (r c : nat) : C :=
  item (kron_all (map pauli_matrix p)) r c.
Definition sig (l : label) (b d : bool) : C :=
  item (pauli_matrix l) (Nat.b2n b) (Nat.b2n d).

Definition Cnat (k : nat) : C := (Qc_of_nat k, 0%Qc).

(** At an entry whose row ends in bit [b] and whose column ends in bit
    [d], two of the four Pauli matrices vanish; these are the two others. *)
Definition first_symbol (b d : bool) : label := if xorb b d then Label.X else Label.I.
Definition second_symbol (b d : bool) : label := if xorb b d then Label.Y else Label.Z.

(** The terms that the loop of [collect_terms] appends for a list of Pauli
    strings, and the coefficient that a string contributes to them. *)
Definition kept_terms (hide_identity : bool) (wire_order : list wire) (term_mat : ndarray)
  (strings : list (list label)) : list (C * list (label * wire)) :=
  flat_map
    (fun pauli_rep =>
       let coefficient := coefficient_of term_mat pauli_rep in
       if negb (allclose0 coefficient) then
         match observables_of hide_identity wire_order pauli_rep with
         | [] => []
         | o :: os => [(coefficient, o :: os)]
         end
       else [])
    strings.

Definition kept_coefficient (term_mat : ndarray) (pauli_rep : list label) : C :=
  if allclose0 (coefficient_of term_mat pauli_rep) then C0 else coefficient_of term_mat pauli_rep.

Definition dropped_coefficient (term_mat : ndarray) (pauli_rep : list label) : C :=
  if allclose0 (coefficient_of term_mat pauli_rep) then coefficient_of term_mat pauli_rep else C0.

(** The operator that [reduce(matmul, ...)] builds from the factors of a
    term. *)
Definition term_operator (obs_term : list (label * wire)) : result exception Operator :=
  reduce matmul (map (fun ow => Ok (op_map (fst ow) (snd ow))) obs_term).

(** A matrix is Hermitian when it equals its conjugate transpose. *)
Definition is_hermitian (m : ndarray) : bool :=
  Nat.eqb (fst (shape m)) (snd (shape m)) &&
  forallb (fun r => forallb (fun c => C_eq_bool (item m r c) (Cconj (item m c r)))
                            (seq 0 (snd (shape m))))
          (seq 0 (fst (shape m))).

(** The matrix of side [side] whose only non-zero entry is [x], at row 0
    and column 0. *)
Definition corner_matrix (side : nat) (x : C) : ndarray :=
  tabulate side side (fun r c => if Nat.eqb r 0 && Nat.eqb c 0 then x else C0).

(** [1.44e-7] and [3.6e-8]: sixteen, respectively four, times [0.9e-8]. *)
Definition sixteen_small : C := (Q2Qc (144 # 1000000000), 0%Qc).
Definition four_small : C := (Q2Qc (36 # 1000000000), 0%Qc).

(** The matrix [A] of the docstring of [pauli_decompose]. *)
Definition docstring_matrix : ndarray :=
  let z (re im : Z) : C := (Q2Qc (inject_Z re), Q2Qc (inject_Z im)) in
  {| dtype := complex128;
     shape := (4, 4);
     data := [[z (-2) 0; z (-2) 1; z (-2) 0; z (-2) 0];
              [z (-2) (-1); z 0 0; z 0 0; z (-1) 0];
              [z (-2) 0; z 0 0; z (-2) 0; z (-1) 0];
              [z (-2) 0; z (-1) 0; z (-1) 0; z 0 0]]%Z |}.

(** The real and imaginary parts of the coefficients of a weighted sum,
    with the Pauli symbols of each term. *)
Definition summary (r : result exception (gmap (gmap wire label) C + Operator)) :
  option (list (Q * Q * list (option label))) :=
  match r with
  | Ok (inr (Hamiltonian _ coeffs ops)) =>
      Some (zip_with (fun c op => (this (Cre c), this (Cim c), map label_of (factors op)))
                     coeffs ops)
  | _ => None
  end.

(** * Properties *)

(** ** The dispatch of [pauli_sentence] *)

(** C7: when the cached [_pauli_rep] of an operator is present,
    [pauli_sentence] returns exactly the cached sentence, whatever the
    variant of the operator: nothing is converted or validated. *)
Theorem pauli_sentence_returns_cache (op : Operator) (ps : gmap (gmap wire label) C) :
  _pauli_rep op = Some ps -> pauli_sentence op = Ok ps.
Proof.
  intros Hrep. unfold pauli_sentence. rewrite Hrep. reflexivity.
Qed.

(** An unregistered operator with a cache: the cache is returned although
    the conversion itself would raise. *)
Lemma pauli_sentence_returns_cache_witness :
  let cached : gmap (gmap wire label) C := {[ {[ inl 0%Z := Label.Z ]} := C1 ]} in
  let op := Other (Some cached) "RX" [inl 0%Z] in
  _pauli_rep op = Some cached /\ pauli_sentence op = Ok cached /\
  _pauli_sentence op = Raise (ValueError (MustBeLinearCombination op)).
Proof.
  split; [reflexivity | split].
  - apply pauli_sentence_returns_cache. reflexivity.
  - reflexivity.
Defined.

Lemma pauli_sentence_coherent (op : Operator) :
  cache_coherent op -> pauli_sentence op = _pauli_sentence op.
Proof.
  intros Hc. unfold pauli_sentence.
  destruct (_pauli_rep op) as [ps|] eqn:E; [|reflexivity].
  symmetry. apply Hc. exact E.
Qed.

(** C8: for a scalar product [s * base] whose base converts to the
    sentence [ps], [pauli_sentence] gives [ps] with every coefficient
    multiplied by [s] (every cache present being the memoized
    conversion). *)
Theorem pauli_sentence_SProd_scales (rep : option (gmap (gmap wire label) C)) (s : C)
  (base : Operator) (ps : gmap (gmap wire label) C) :
  cache_coherent (SProd rep s base) ->
  cache_coherent base ->
  pauli_sentence base = Ok ps ->
  pauli_sentence (SProd rep s base) = Ok ((fun coeff => Cmul coeff s) <$> ps).
Proof.
  intros Hop Hbase Hps.
  rewrite pauli_sentence_coherent in Hps by exact Hbase.
  rewrite pauli_sentence_coherent by exact Hop.
  cbn [_pauli_sentence]. rewrite Hps. reflexivity.
Qed.

Lemma pauli_sentence_SProd_scales_witness :
  let base := PauliX None (inl 0%Z) in
  let ps : gmap (gmap wire label) C := {[ make_PauliWord {[ inl 0%Z := Label.X ]} := C1 ]} in
  let s : C := Cint 2 in
  pauli_sentence base = Ok ps /\
  pauli_sentence (SProd None s base) = Ok ((fun coeff => Cmul coeff s) <$> ps).
Proof.
  split; [reflexivity|].
  apply pauli_sentence_SProd_scales.
  - intros ps H. discriminate H.
  - intros ps H. discriminate H.
  - reflexivity.
Defined.

(** ** The dispatch of [measure] *)

Lemma measure_unfold (env : collaborators) (mp : MeasurementProcess) (st : tensor) :
  measure env mp st =
  match get_measurement_function env mp with
  | Ok f => f mp st
  | Raise e => Raise e
  end.
Proof. reflexivity. Qed.

Lemma get_measurement_function_not_state (env : collaborators) (mp : MeasurementProcess) :
  isinstance_StateMeasurement mp = false ->
  get_measurement_function env mp = Raise NotImplementedError.
Proof.
  intros H. unfold get_measurement_function. rewrite H. reflexivity.
Qed.

Lemma obs_name_in_family (mp : MeasurementProcess) (o : Operator) :
  obs mp = Some o ->
  obs_name_in mp ["Hamiltonian"; "SparseHamiltonian"]%string =
  Ok match name o with
     | inl s => String.eqb s "Hamiltonian" || String.eqb s "SparseHamiltonian"
     | inr _ => false
     end.
Proof.
  intros H. unfold obs_name_in. rewrite H.
  destruct (name o) as [s|l]; [|reflexivity].
  cbn [existsb]. rewrite orb_false_r. reflexivity.
Qed.

Lemma get_measurement_function_state (env : collaborators) (mp : MeasurementProcess) :
  isinstance_StateMeasurement mp = true ->
  (isinstance_ExpectationMP mp = true -> obs mp <> None) ->
  get_measurement_function env mp =
  Ok (if is_hamiltonian_expval mp then state_hamiltonian_expval env
      else state_diagonalizing_gates env).
Proof.
  intros Hst Hobs. unfold get_measurement_function, is_hamiltonian_expval. rewrite Hst.
  destruct (isinstance_ExpectationMP mp) eqn:He; [|reflexivity].
  destruct (obs mp) as [o|] eqn:Eo.
  - rewrite (obs_name_in_family mp o Eo). cbn.
    destruct (name o) as [s|l]; [|reflexivity].
    destruct (String.eqb s "Hamiltonian" || String.eqb s "SparseHamiltonian"); reflexivity.
  - exfalso. apply Hobs; reflexivity.
Qed.

(** C2 (amended): for a measurement process whose observable is present
    whenever it is an expectation value, [measure] picks its strategy in
    this order: a process that is not a state measurement raises
    [NotImplementedError]; otherwise an expectation value whose
    observable is named [Hamiltonian] or [SparseHamiltonian] is evaluated
    by [state_hamiltonian_expval]; every other state measurement is
    evaluated by [state_diagonalizing_gates]. *)
Theorem measure_dispatch (env : collaborators) (mp : MeasurementProcess) (st : tensor) :
  (isinstance_ExpectationMP mp = true -> obs mp <> None) ->
  (isinstance_StateMeasurement mp = false ->
     measure env mp st = Raise NotImplementedError) /\
  (isinstance_StateMeasurement mp = true -> is_hamiltonian_expval mp = true ->
     measure env mp st = state_hamiltonian_expval env mp st) /\
  (isinstance_StateMeasurement mp = true -> is_hamiltonian_expval mp = false ->
     measure env mp st = state_diagonalizing_gates env mp st).
Proof.
  intros Hobs. repeat split.
  - intros Hst. rewrite measure_unfold, get_measurement_function_not_state by exact Hst.
    reflexivity.
  - intros Hst Hh.
    rewrite measure_unfold, get_measurement_function_state by assumption.
    rewrite Hh. reflexivity.
  - intros Hst Hh.
    rewrite measure_unfold, get_measurement_function_state by assumption.
    rewrite Hh. reflexivity.
Qed.

Lemma measure_dispatch_witness :
  let mp := {| mp_class := ExpectationMP;
               obs := Some (Hamiltonian None [C1] [PauliZ None (inl 0%Z)]);
               mp_wires := [] |} in
  let st := {| tshape := [2]; tdata := [C1; C0] |} in
  (isinstance_ExpectationMP mp = true -> obs mp <> None) /\
  measure idle_env mp st = state_hamiltonian_expval idle_env mp st.
Proof.
  split; [discriminate|].
  apply (measure_dispatch idle_env); [discriminate | reflexivity | reflexivity].
Defined.

(** C2 as stated fails: an expectation value without observable is a
    state measurement and is not an expectation value whose observable
    carries one of the two names, yet [measure] does not evaluate it by
    the diagonalizing-gate strategy. *)
Lemma measure_dispatch_counterexample :
  let mp := {| mp_class := ExpectationMP; obs := None; mp_wires := [inl 0%Z] |} in
  let st := {| tshape := [2]; tdata := [C1; C0] |} in
  isinstance_StateMeasurement mp = true /\
  is_hamiltonian_expval mp = false /\
  measure idle_env mp st <> state_diagonalizing_gates idle_env mp st.
Proof.
  split; [reflexivity | split; [reflexivity |]].
  cbv [measure get_measurement_function isinstance_StateMeasurement isinstance_ExpectationMP
       mp_class obs_name_in obs mbind result_bind state_diagonalizing_gates].
  discriminate.
Qed.

(** C9: an expectation value without observable never reaches the
    diagonalizing-gate strategy: the dispatch reads the name of the missing
    observable and fails with an [AttributeError]. *)
Theorem measure_expval_without_obs (env : collaborators) (mp : MeasurementProcess) (st : tensor) :
  isinstance_ExpectationMP mp = true ->
  obs mp = None ->
  get_measurement_function env mp = Raise AttributeError /\
  measure env mp st = Raise AttributeError /\
  measure env mp st <> state_diagonalizing_gates env mp st.
Proof.
  intros He Ho.
  assert (Hst : isinstance_StateMeasurement mp = true).
  { unfold isinstance_ExpectationMP in He. unfold isinstance_StateMeasurement.
    destruct (mp_class mp); first [reflexivity | discriminate He]. }
  assert (Hg : get_measurement_function env mp = Raise AttributeError).
  { unfold get_measurement_function, obs_name_in. rewrite Hst, He, Ho. reflexivity. }
  split; [exact Hg | split].
  - rewrite measure_unfold, Hg. reflexivity.
  - rewrite measure_unfold, Hg. unfold state_diagonalizing_gates. discriminate.
Qed.

Lemma measure_expval_without_obs_witness :
  let mp := {| mp_class := ExpectationMP; obs := None; mp_wires := [inl 0%Z] |} in
  let st := {| tshape := [2]; tdata := [C1; C0] |} in
  measure idle_env mp st = Raise AttributeError.
Proof.
  apply (measure_expval_without_obs idle_env); reflexivity.
Defined.

(** ** Arrays *)

Lemma shape_tabulate_as (t : scalar_type) (rows cols : nat) (f : nat -> nat -> C) :
  shape (tabulate_as t rows cols f) = (rows, cols).
Proof. reflexivity. Qed.

Lemma dtype_tabulate_as (t : scalar_type) (rows cols : nat) (f : nat -> nat -> C) :
  dtype (tabulate_as t rows cols f) = t.
Proof. reflexivity. Qed.

Lemma shape_tabulate (rows cols : nat) (f : nat -> nat -> C) :
  shape (tabulate rows cols f) = (rows, cols).
Proof. reflexivity. Qed.

Lemma nth_map_seq {A : Type} (g : nat -> A) (n k : nat) (d : A) :
  k < n -> nth k (map g (seq 0 n)) d = g k.
Proof.
  intros Hk.
  rewrite (nth_indep _ d (g 0)) by (rewrite length_map, length_seq; exact Hk).
  rewrite map_nth, seq_nth by exact Hk. reflexivity.
Qed.

Lemma item_tabulate_as (t : scalar_type) (rows cols : nat) (f : nat -> nat -> C) (r c : nat) :
  r < rows -> c < cols -> item (tabulate_as t rows cols f) r c = f r c.
Proof.
  intros Hr Hc. unfold item, tabulate_as; cbn [data].
  rewrite nth_map_seq by exact Hr. apply nth_map_seq; exact Hc.
Qed.

Lemma item_tabulate (rows cols : nat) (f : nat -> nat -> C) (r c : nat) :
  r < rows -> c < cols -> item (tabulate rows cols f) r c = f r c.
Proof. apply item_tabulate_as. Qed.

Lemma tabulate_as_ext (t : scalar_type) (rows cols : nat) (f g : nat -> nat -> C) :
  (forall r c, r < rows -> c < cols -> f r c = g r c) ->
  tabulate_as t rows cols f = tabulate_as t rows cols g.
Proof.
  intros H. unfold tabulate_as. f_equal.
  apply map_ext_in. intros r Hr. apply map_ext_in. intros c Hc.
  apply in_seq in Hr. apply in_seq in Hc. apply H; lia.
Qed.

Lemma well_shaped_tabulate_as (t : scalar_type) (rows cols : nat) (f : nat -> nat -> C) :
  well_shaped (tabulate_as t rows cols f).
Proof.
  split; cbn.
  - rewrite length_map, length_seq. reflexivity.
  - apply List.Forall_forall. intros row Hin. apply in_map_iff in Hin.
    destruct Hin as [r [<- _]]. rewrite length_map, length_seq. reflexivity.
Qed.

Lemma well_shaped_tabulate (rows cols : nat) (f : nat -> nat -> C) :
  well_shaped (tabulate rows cols f).
Proof. apply well_shaped_tabulate_as. Qed.

Lemma Csum_ext_seq (f g : nat -> C) (n : nat) :
  (forall k, k < n -> f k = g k) ->
  Csum (map f (seq 0 n)) = Csum (map g (seq 0 n)).
Proof.
  intros H. f_equal. apply map_ext_in. intros k Hk.
  apply in_seq in Hk. apply H. lia.
Qed.

Lemma Cconj_C0 : Cconj C0 = C0.
Proof.
  reflexivity.
Qed.

Lemma item_row_matrix (v : list C) (k : nat) : item (row_matrix v) 0 k = nth k v C0.
Proof. reflexivity. Qed.

Lemma item_column_matrix (v : list C) (k : nat) : item (column_matrix v) k 0 = nth k v C0.
Proof.
  unfold item, column_matrix; cbn [data].
  destruct (Nat.lt_ge_cases k (length v)) as [Hk|Hk].
  - rewrite (nth_indep _ [] [C0]) by (rewrite length_map; exact Hk).
    rewrite (map_nth (fun x => [x])). reflexivity.
  - rewrite (nth_overflow (map _ _)) by (rewrite length_map; exact Hk).
    rewrite (nth_overflow v) by exact Hk. reflexivity.
Qed.

(** ** The sparse expectation value *)

Lemma bind_Ok {E A B : Type} (a : A) (k : A -> result E B) : (Ok a ≫= k) = k a.
Proof. reflexivity. Qed.

Lemma dot_Ok (a b : ndarray) :
  snd (shape a) = fst (shape b) ->
  dot a b = Ok (tabulate (fst (shape a)) (snd (shape b))
                  (fun i j => Csum (map (fun k => Cmul (item a i k) (item b k j))
                                        (seq 0 (snd (shape a)))))).
Proof.
  intros H. unfold dot. rewrite H, Nat.eqb_refl. reflexivity.
Qed.

(** C4: for a state vector and an observable whose sparse matrix [H] is
    given in the basis of the state, [state_hamiltonian_expval] returns
    the scalar [real(conj(state) . H . state)]; the imaginary component of
    what it returns is zero. *)
Theorem state_hamiltonian_expval_real (env : collaborators) (mp : MeasurementProcess)
  (st : tensor) (o : Operator) (H : ndarray) :
  obs mp = Some o ->
  sparse_matrix env o (seq 0 (length (tshape st))) = Ok H ->
  shape H = (length (tdata st), length (tdata st)) ->
  exists res : tensor,
    state_hamiltonian_expval env mp st = Ok res /\
    tshape res = [] /\
    tdata res = [Creal (contraction H (tdata st))] /\
    Forall (fun z => Cim z = 0%Qc) (tdata res).
Proof.
  intros Ho Hs Hshape.
  exists {| tshape := []; tdata := [Creal (contraction H (tdata st))] |}.
  split; [| split; [reflexivity | split; [reflexivity |]]].
  2:{ constructor; [reflexivity | constructor]. }
  unfold state_hamiltonian_expval. rewrite Ho, bind_Ok, Hs, bind_Ok.
  rewrite dot_Ok by (rewrite Hshape; reflexivity).
  rewrite bind_Ok, dot_Ok by (cbn; rewrite length_map, Hshape; reflexivity).
  rewrite bind_Ok, Hshape.
  cbn [shape row_matrix column_matrix tabulate tabulate_as fst snd data map seq nth].
  unfold real_squeeze. cbn [length Nat.eqb map].
  do 3 f_equal. unfold contraction. rewrite ?length_map. f_equal.
  apply Csum_ext_seq. intros k Hk.
  rewrite item_row_matrix.
  rewrite <- Cconj_C0 at 1. rewrite (map_nth Cconj). f_equal.
  rewrite item_tabulate by (first [exact Hk | lia]).
  apply Csum_ext_seq. intros j Hj. rewrite item_column_matrix. reflexivity.
Qed.

Lemma state_hamiltonian_expval_real_witness :
  let mp := {| mp_class := ExpectationMP;
               obs := Some (Hamiltonian None [C1] [PauliZ None (inl 0%Z)]);
               mp_wires := [] |} in
  let st := {| tshape := [2]; tdata := [C0; C1] |} in
  exists res : tensor,
    state_hamiltonian_expval pauli_z_env mp st = Ok res /\
    tshape res = [] /\
    tdata res = [Creal (contraction (pauli_matrix Label.Z) [C0; C1])] /\
    Forall (fun z => Cim z = 0%Qc) (tdata res).
Proof.
  intros mp st.
  exact (state_hamiltonian_expval_real pauli_z_env mp st
           (Hamiltonian None [C1] [PauliZ None (inl 0%Z)]) (pauli_matrix Label.Z)
           eq_refl eq_refl eq_refl).
Defined.

(** ** The checks of [pauli_decompose] *)

Lemma int_log2_pow2 (n : nat) : int_log2 (2 ^ n) = Ok n.
Proof.
  unfold int_log2.
  destruct (Nat.eqb_spec (2 ^ n) 0) as [E|_].
  - exfalso. apply (Nat.pow_nonzero 2 n); [discriminate | exact E].
  - rewrite Nat.log2_pow2 by lia. reflexivity.
Qed.

Lemma wires_fit_default (wire_order : option (list wire)) (n : nat) :
  wires_fit wire_order n ->
  match wire_order with
  | Some ws =>
      if negb (Nat.eqb (length ws) n)
      then Raise (ValueError (WiresNotCompatible (length ws) n))
      else Ok ws
  | None => Ok (map (fun k => inl (Z.of_nat k)) (seq 0 n))
  end = Ok (default_wires wire_order n).
Proof.
  destruct wire_order as [ws|]; cbn; [|reflexivity].
  intros ->. rewrite Nat.eqb_refl. reflexivity.
Qed.

(** Past its checks, [pauli_decompose] transforms, normalizes, collects
    and packages. *)
Lemma pauli_decompose_checked (matrix : ndarray) (n : nat) (hide_identity : bool)
  (wire_order : option (list wire)) (pauli : bool) :
  shape matrix = (2 ^ n, 2 ^ n) ->
  wires_fit wire_order n ->
  pauli_decompose matrix hide_identity wire_order pauli false =
  (term_mat ← computed_term_mat matrix n;
   package pauli (collect_terms hide_identity (default_wires wire_order n) n term_mat)).
Proof.
  intros Hs Hw. unfold pauli_decompose. rewrite bind_Ok, Hs. cbn [fst snd].
  rewrite Nat.eqb_refl. cbn [negb]. rewrite int_log2_pow2, bind_Ok.
  rewrite Nat.eqb_refl. cbn [negb].
  rewrite (wires_fit_default wire_order n Hw), bind_Ok.
  unfold computed_term_mat.
  destruct (for_each (hadamard_pass n) (seq 0 n) (permuted matrix (xor_indices (2 ^ n))));
    reflexivity.
Qed.

(** On a [complex128] array a pass never fails. *)
Lemma hadamard_pass_complex (n : nat) (term_mat : ndarray) (idx : nat) :
  dtype term_mat = complex128 ->
  hadamard_pass n term_mat idx = Ok (complex_pass n term_mat idx).
Proof.
  intros Ht. unfold hadamard_pass, complex_pass. rewrite Ht. cbv zeta.
  unfold tabulate. f_equal. apply tabulate_as_ext. intros r c Hr Hc.
  rewrite item_tabulate_as by assumption.
  destruct (Nat.testbit r (n - 1 - idx)); [|reflexivity].
  destruct (Nat.testbit c (n - 1 - idx)); reflexivity.
Qed.

Lemma for_each_complex (n : nat) (idxs : list nat) (term_mat : ndarray) :
  dtype term_mat = complex128 ->
  for_each (hadamard_pass n) idxs term_mat = Ok (fold_left (complex_pass n) idxs term_mat).
Proof.
  revert term_mat. induction idxs as [|idx idxs IH]; intros term_mat Ht; [reflexivity|].
  cbn [for_each fold_left]. rewrite (hadamard_pass_complex n term_mat idx Ht), bind_Ok.
  apply IH. reflexivity.
Qed.

Lemma computed_term_mat_complex (matrix : ndarray) (n : nat) :
  dtype matrix = complex128 ->
  computed_term_mat matrix n = Ok (final_term_mat matrix n).
Proof.
  intros Ht. unfold computed_term_mat, final_term_mat.
  rewrite for_each_complex by exact Ht. rewrite bind_Ok. reflexivity.
Qed.

Lemma pauli_decompose_unpadded (matrix : ndarray) (n : nat) (hide_identity : bool)
  (wire_order : option (list wire)) (pauli : bool) :
  dtype matrix = complex128 ->
  shape matrix = (2 ^ n, 2 ^ n) ->
  wires_fit wire_order n ->
  pauli_decompose matrix hide_identity wire_order pauli false =
  package pauli (collect_terms hide_identity (default_wires wire_order n) n
                   (final_term_mat matrix n)).
Proof.
  intros Ht Hs Hw. rewrite (pauli_decompose_checked matrix n) by assumption.
  rewrite computed_term_mat_complex by exact Ht. rewrite bind_Ok. reflexivity.
Qed.

Lemma pauli_decompose_not_square (matrix : ndarray) (hide_identity : bool)
  (wire_order : option (list wire)) (pauli : bool) :
  fst (shape matrix) <> snd (shape matrix) ->
  pauli_decompose matrix hide_identity wire_order pauli false =
  Raise (ValueError (ShouldBeSquare (shape matrix))).
Proof.
  intros H. unfold pauli_decompose. rewrite bind_Ok.
  destruct (Nat.eqb_spec (fst (shape matrix)) (snd (shape matrix))) as [E|_];
    [contradiction | reflexivity].
Qed.

Lemma pauli_decompose_not_power_of_two (matrix : ndarray) (hide_identity : bool)
  (wire_order : option (list wire)) (pauli : bool) :
  fst (shape matrix) = snd (shape matrix) ->
  1 <= fst (shape matrix) ->
  ~ is_power_of_two (fst (shape matrix)) ->
  pauli_decompose matrix hide_identity wire_order pauli false =
  Raise (ValueError (ShouldBePowerOfTwo (shape matrix))).
Proof.
  intros Hsq Hpos Hnp. unfold pauli_decompose. rewrite bind_Ok, <- Hsq.
  rewrite Nat.eqb_refl. cbn [negb]. unfold int_log2.
  destruct (Nat.eqb_spec (fst (shape matrix)) 0) as [E|_]; [lia|].
  rewrite bind_Ok.
  destruct (Nat.eqb_spec (fst (shape matrix)) (2 ^ Nat.log2 (fst (shape matrix)))) as [E|_].
  - exfalso. apply Hnp. eexists. exact E.
  - reflexivity.
Qed.

(** C5 (the empty matrix): a 0x0 matrix is square and its side is not a
    power of two, yet [pauli_decompose] does not reach its power-of-two
    check: [int(log2(0))] raises an [OverflowError]. *)
Theorem pauli_decompose_empty_matrix (t : scalar_type) (hide_identity : bool)
  (wire_order : option (list wire)) (pauli : bool) :
  let matrix := {| dtype := t; shape := (0, 0); data := [] |} in
  well_shaped matrix /\
  ~ is_power_of_two (fst (shape matrix)) /\
  pauli_decompose matrix hide_identity wire_order pauli false = Raise OverflowError /\
  pauli_decompose matrix hide_identity wire_order pauli false <>
    Raise (ValueError (ShouldBePowerOfTwo (shape matrix))).
Proof.
  cbv zeta. split; [| split; [| split]].
  - split; [reflexivity | constructor].
  - intros [n Hn]. cbn in Hn. symmetry in Hn.
    apply (Nat.pow_nonzero 2 n); [discriminate | exact Hn].
  - reflexivity.
  - discriminate.
Qed.

Lemma pauli_decompose_padded (matrix : ndarray) (hide_identity : bool)
  (wire_order : option (list wire)) (pauli : bool) :
  pauli_decompose matrix hide_identity wire_order pauli true =
  (padded ← pad_to_power_of_two matrix;
   pauli_decompose padded hide_identity wire_order pauli false).
Proof. reflexivity. Qed.

Lemma observables_of_no_qubit (hide_identity : bool) (wire_order : list wire) :
  observables_of hide_identity wire_order [] = [].
Proof.
  unfold observables_of. cbn [forallb negb]. rewrite andb_false_r, combine_nil. reflexivity.
Qed.

Lemma collect_terms_no_qubit (hide_identity : bool) (wire_order : list wire) (term_mat : ndarray) :
  collect_terms hide_identity wire_order 0 term_mat = ([], []).
Proof.
  unfold collect_terms. cbn [product fold_left].
  rewrite observables_of_no_qubit.
  destruct (negb (allclose0 (coefficient_of term_mat []))); reflexivity.
Qed.

(** C10: a 1x1 matrix [[c]] decomposes into no term at all, whatever
    [c] is: with no qubit the observables of the identity term are the
    empty list, which the guard on [observables] discards.  Re-expanding
    the result gives 0, which is not [c] when [c] is not zero. *)
Theorem pauli_decompose_1x1_no_terms (t : scalar_type) (c : C) (hide_identity : bool)
  (wire_order : option (list wire)) (pauli padding : bool) :
  c <> C0 ->
  wires_fit wire_order 0 ->
  pauli_decompose {| dtype := t; shape := (1, 1); data := [[c]] |}
    hide_identity wire_order pauli padding =
    Ok (if pauli then inl ∅ else inr (Hamiltonian None [] [])) /\
  exists R : ndarray,
    reexpand 0 (Hamiltonian None [] []) = Some R /\
    shape R = (1, 1) /\ item R 0 0 = C0 /\ item R 0 0 <> c.
Proof.
  intros Hc Hw. split.
  - assert (Hu : pauli_decompose {| dtype := t; shape := (1, 1); data := [[c]] |}
                   hide_identity wire_order pauli false =
                 Ok (if pauli then inl ∅ else inr (Hamiltonian None [] []))).
    { rewrite (pauli_decompose_checked _ 0) by (first [reflexivity | exact Hw]).
      unfold computed_term_mat. cbn [seq for_each]. rewrite !bind_Ok.
      rewrite collect_terms_no_qubit. destruct pauli; reflexivity. }
    destruct padding; [|exact Hu].
    rewrite pauli_decompose_padded.
    change (pad_to_power_of_two {| dtype := t; shape := (1, 1); data := [[c]] |})
      with (Ok (E := exception) {| dtype := t; shape := (1, 1); data := [[c]] |}).
    rewrite bind_Ok. exact Hu.
  - exists (zeros 1 1). repeat split.
    intros E. apply Hc. symmetry. exact E.
Qed.

Lemma pauli_decompose_1x1_no_terms_witness :
  pauli_decompose {| dtype := complex128; shape := (1, 1); data := [[C1]] |}
    false None false false =
    Ok (inr (Hamiltonian None [] [])) /\
  exists R : ndarray,
    reexpand 0 (Hamiltonian None [] []) = Some R /\
    shape R = (1, 1) /\ item R 0 0 = C0 /\ item R 0 0 <> C1.
Proof.
  apply (pauli_decompose_1x1_no_terms complex128 C1 false None false false).
  - discriminate.
  - exact Logic.I.
Defined.

(** ** The rejections of [pauli_sentence] *)

Section OperatorInduction.
Variable P : Operator -> Prop.
Hypothesis HX : forall rep w, P (PauliX rep w).
Hypothesis HY : forall rep w, P (PauliY rep w).
Hypothesis HZ : forall rep w, P (PauliZ rep w).
Hypothesis HI : forall rep w, P (Identity rep w).
Hypothesis HTensor : forall rep obs, List.Forall P obs -> P (Tensor rep obs).
Hypothesis HProd : forall rep operands, List.Forall P operands -> P (Prod rep operands).
Hypothesis HSProd : forall rep scalar base, P base -> P (SProd rep scalar base).
Hypothesis HHam : forall rep coeffs ops, List.Forall P ops -> P (Hamiltonian rep coeffs ops).
Hypothesis HSum : forall rep operands, List.Forall P operands -> P (Sum rep operands).
Hypothesis HOther : forall rep name wires, P (Other rep name wires).

Lemma Operator_nested_ind : forall op, P op.
Proof.
  fix IH 1. intros op.
  assert (Hall : forall l : list Operator, List.Forall P l).
  { fix IHl 1. intros [|x l]; [constructor | constructor; [apply IH | apply IHl]]. }
  destruct op.
  - apply HX.
  - apply HY.
  - apply HZ.
  - apply HI.
  - apply HTensor, Hall.
  - apply HProd, Hall.
  - apply HSProd, IH.
  - apply HHam, Hall.
  - apply HSum, Hall.
  - apply HOther.
Qed.
End OperatorInduction.

(** What [reduce] over lazily produced results can raise. *)
Lemma reduce_from_raise {A : Type} (f : A -> A -> A) (xs : list (result exception A)) (acc : A)
  (e : exception) :
  reduce_from f acc xs = Raise e -> In (Raise e) xs.
Proof.
  revert acc. induction xs as [|x xs IH]; intros acc H; cbn in H.
  - discriminate H.
  - destruct x as [b|e']; cbn in H.
    + right. exact (IH _ H).
    + left. congruence.
Qed.

Lemma reduce_raise {A : Type} (f : A -> A -> A) (xs : list (result exception A))
  (e : exception) :
  reduce f xs = Raise e -> (xs = [] /\ e = TypeError) \/ In (Raise e) xs.
Proof.
  destruct xs as [|x xs]; cbn; intros H.
  - left. split; [reflexivity | congruence].
  - right. destruct x as [a|e']; cbn in H.
    + right. exact (reduce_from_raise _ _ _ _ H).
    + left. congruence.
Qed.

Lemma reduce_from_all_Ok {A : Type} (f : A -> A -> A) (xs : list A) (acc : A) :
  exists r, reduce_from f acc (map Ok xs) = Ok r.
Proof.
  revert acc. induction xs as [|x xs IH]; intros acc; cbn.
  - eexists; reflexivity.
  - apply IH.
Qed.

Lemma reduce_from_some_raise {A : Type} (f : A -> A -> A) (xs : list (result exception A))
  (acc : A) :
  (exists e, In (Raise e) xs) -> exists e, reduce_from f acc xs = Raise e.
Proof.
  revert acc. induction xs as [|x xs IH]; intros acc [e Hin]; [destruct Hin|].
  destruct x as [b|e']; cbn.
  - apply IH. destruct Hin as [Heq|Hin]; [discriminate Heq | eauto].
  - eauto.
Qed.

Lemma reduce_some_raise {A : Type} (f : A -> A -> A) (xs : list (result exception A)) :
  (exists e, In (Raise e) xs) -> exists e, reduce f xs = Raise e.
Proof.
  intros [e Hin]. destruct xs as [|x xs]; [destruct Hin|].
  destruct x as [b|e']; cbn.
  - apply reduce_from_some_raise. destruct Hin as [Heq|Hin]; [discriminate Heq | eauto].
  - eauto.
Qed.

Lemma scaled_summands_raise (conv : Operator -> result exception (gmap (gmap wire label) C))
  (cs : list C) (os : list Operator) (e : exception) :
  scaled_summands conv cs os = Raise e -> exists term, In term os /\ conv term = Raise e.
Proof.
  revert cs. induction os as [|term os IH]; intros cs H; cbn in H; [discriminate H|].
  destruct cs as [|coeff cs]; [discriminate H|].
  destruct (conv term) as [ps|e'] eqn:Ec; cbn in H.
  - destruct (scaled_summands conv cs os) as [summands|e''] eqn:Es; cbn in H.
    + discriminate H.
    + injection H as ->. destruct (IH _ Es) as [t [Hin Ht]]. exists t. split; [right|]; assumption.
  - injection H as ->. exists term. split; [left; reflexivity | exact Ec].
Qed.

Lemma forallb_false_Exists {A : Type} (p : A -> bool) (l : list A) :
  forallb p l = false <-> Exists (fun x => p x = false) l.
Proof.
  induction l as [|x l IH]; cbn.
  - split; [discriminate | intros H; inversion H].
  - destruct (p x) eqn:E; cbn.
    + rewrite IH. split; [intros H; right; exact H|].
      intros H. inversion H; subst; [congruence | assumption].
    + split; [intros _; left; exact E | reflexivity].
Qed.

Lemma nonempty_composites_operands (x : Operator) (l : list Operator) :
  forallb nonempty_composites l = true -> In x l -> nonempty_composites x = true.
Proof.
  intros H Hin. rewrite forallb_forall in H. apply H, Hin.
Qed.

Lemma _pauli_sentence_Tensor rep obs :
  _pauli_sentence (Tensor rep obs) =
  if negb (forallb is_pauli_factor obs)
  then Raise (ValueError (MustBeLinearCombination (Tensor rep obs)))
  else reduce ps_mul (map _pauli_sentence obs).
Proof. reflexivity. Qed.

Lemma _pauli_sentence_Prod rep operands :
  _pauli_sentence (Prod rep operands) = reduce ps_mul (map _pauli_sentence operands).
Proof. reflexivity. Qed.

Lemma _pauli_sentence_SProd rep scalar base :
  _pauli_sentence (SProd rep scalar base) =
  (ps ← _pauli_sentence base; Ok (update_values (fun coeff => Cmul coeff scalar) ps)).
Proof. reflexivity. Qed.

Lemma _pauli_sentence_Hamiltonian rep coeffs ops :
  _pauli_sentence (Hamiltonian rep coeffs ops) =
  if negb (forallb is_pauli_word ops)
  then Raise (ValueError (MustBeLinearCombination (Hamiltonian rep coeffs ops)))
  else (summands ← scaled_summands _pauli_sentence coeffs ops;
        if 0 <? length summands then reduce ps_add (map Ok summands) else Ok ∅).
Proof. reflexivity. Qed.

Lemma _pauli_sentence_Sum rep operands :
  _pauli_sentence (Sum rep operands) = reduce ps_add (map _pauli_sentence operands).
Proof. reflexivity. Qed.

(** Whatever [_pauli_sentence] raises on an operator without empty
    composites is the "linear combination of Pauli operators" error, and it
    names an operator inside the argument which is not such a
    combination. *)
Lemma _pauli_sentence_raises_only (op : Operator) :
  nonempty_composites op = true ->
  forall e, _pauli_sentence op = Raise e ->
  exists culprit,
    occurs_in culprit op /\ not_pauli_combination culprit /\
    e = ValueError (MustBeLinearCombination culprit).
Proof.
  induction op as [rep w | rep w | rep w | rep w | rep obs IH | rep operands IH
                  | rep scalar base IH | rep coeffs ops IH | rep operands IH | rep name wires]
    using Operator_nested_ind; intros Hwf e He;
    try (cbn in He; discriminate He).
  - (* Tensor *)
    rewrite _pauli_sentence_Tensor in He. cbn [nonempty_composites] in Hwf.
    apply andb_prop in Hwf. destruct Hwf as [Hne Hwf].
    destruct (forallb is_pauli_factor obs) eqn:Ef; cbn [negb] in He.
    + apply reduce_raise in He. destruct He as [[Hnil _]|Hin];
      [apply map_eq_nil in Hnil; subst; discriminate Hne|].
      apply in_map_iff in Hin. destruct Hin as [x [Hx Hin]].
      rewrite List.Forall_forall in IH.
      destruct (IH x Hin (nonempty_composites_operands x _ Hwf Hin) e Hx) as [c [Hc1 [Hc2 Hc3]]].
      exists c. split; [eapply occurs_tensor; eassumption | split; assumption].
    + injection He as <-. eexists. split; [apply occurs_here | split; [|reflexivity]].
      apply npc_tensor, forallb_false_Exists, Ef.
  - (* Prod *)
    rewrite _pauli_sentence_Prod in He. cbn [nonempty_composites] in Hwf.
    apply andb_prop in Hwf. destruct Hwf as [Hne Hwf].
    apply reduce_raise in He. destruct He as [[Hnil _]|Hin];
      [apply map_eq_nil in Hnil; subst; discriminate Hne|].
    apply in_map_iff in Hin. destruct Hin as [x [Hx Hin]].
    rewrite List.Forall_forall in IH.
    destruct (IH x Hin (nonempty_composites_operands x _ Hwf Hin) e Hx) as [c [Hc1 [Hc2 Hc3]]].
    exists c. split; [eapply occurs_prod; eassumption | split; assumption].
  - (* SProd *)
    rewrite _pauli_sentence_SProd in He. cbn [nonempty_composites] in Hwf.
    destruct (_pauli_sentence base) as [ps|e'] eqn:Eb; cbn in He; [discriminate He|].
    injection He as ->.
    destruct (IH Hwf e eq_refl) as [c [Hc1 [Hc2 Hc3]]].
    exists c. split; [apply occurs_sprod; assumption | split; assumption].
  - (* Hamiltonian *)
    rewrite _pauli_sentence_Hamiltonian in He. cbn [nonempty_composites] in Hwf.
    destruct (forallb is_pauli_word ops) eqn:Ef; cbn [negb] in He.
    + destruct (scaled_summands _pauli_sentence coeffs ops) as [summands|e'] eqn:Es;
        cbn in He.
      * destruct summands as [|s0 summands]; cbn in He; [discriminate He|].
        destruct (reduce_from_all_Ok ps_add summands s0) as [r Hr].
        rewrite Hr in He. discriminate He.
      * injection He as ->. apply scaled_summands_raise in Es.
        destruct Es as [x [Hin Hx]]. rewrite List.Forall_forall in IH.
        destruct (IH x Hin (nonempty_composites_operands x _ Hwf Hin) e Hx)
          as [c [Hc1 [Hc2 Hc3]]].
        exists c. split; [eapply occurs_hamiltonian; eassumption | split; assumption].
    + injection He as <-. eexists. split; [apply occurs_here | split; [|reflexivity]].
      apply npc_hamiltonian, forallb_false_Exists, Ef.
  - (* Sum *)
    rewrite _pauli_sentence_Sum in He. cbn [nonempty_composites] in Hwf.
    apply andb_prop in Hwf. destruct Hwf as [Hne Hwf].
    apply reduce_raise in He. destruct He as [[Hnil _]|Hin];
      [apply map_eq_nil in Hnil; subst; discriminate Hne|].
    apply in_map_iff in Hin. destruct Hin as [x [Hx Hin]].
    rewrite List.Forall_forall in IH.
    destruct (IH x Hin (nonempty_composites_operands x _ Hwf Hin) e Hx) as [c [Hc1 [Hc2 Hc3]]].
    exists c. split; [eapply occurs_sum; eassumption | split; assumption].
  - (* Other *)
    cbn in He. injection He as <-. eexists.
    split; [apply occurs_here | split; [apply npc_unregistered | reflexivity]].
Qed.

Lemma Exists_raises (operands : list Operator) :
  List.Forall (fun op => nonempty_composites op = true ->
                         not_pauli_combination op ->
                         exists e, _pauli_sentence op = Raise e) operands ->
  forallb nonempty_composites operands = true ->
  Exists not_pauli_combination operands ->
  exists e, In (Raise e) (map _pauli_sentence operands).
Proof.
  intros HF Hwf Hex. apply List.Exists_exists in Hex. destruct Hex as [x [Hin Hx]].
  rewrite List.Forall_forall in HF.
  destruct (HF x Hin (nonempty_composites_operands x _ Hwf Hin) Hx) as [e He].
  exists e. apply in_map_iff. exists x. split; assumption.
Qed.

(** An operator that is not a linear combination of Pauli words is not
    converted. *)
Lemma _pauli_sentence_rejects (op : Operator) :
  nonempty_composites op = true ->
  not_pauli_combination op ->
  exists e, _pauli_sentence op = Raise e.
Proof.
  induction op as [rep w | rep w | rep w | rep w | rep obs IH | rep operands IH
                  | rep scalar base IH | rep coeffs ops IH | rep operands IH | rep name wires]
    using Operator_nested_ind; intros Hwf Hn; try (inversion Hn; fail).
  - (* Tensor *)
    inversion Hn as [| ? ? Hex | | | |]; subst.
    apply forallb_false_Exists in Hex.
    rewrite _pauli_sentence_Tensor, Hex. eexists; reflexivity.
  - (* Prod *)
    inversion Hn as [| | ? ? Hex | | |]; subst.
    cbn [nonempty_composites] in Hwf. apply andb_prop in Hwf. destruct Hwf as [_ Hwf].
    rewrite _pauli_sentence_Prod. apply reduce_some_raise, Exists_raises; assumption.
  - (* SProd *)
    inversion Hn as [| | | ? ? ? Hb | |]; subst.
    destruct (IH Hwf Hb) as [e He].
    rewrite _pauli_sentence_SProd, He. eexists; reflexivity.
  - (* Hamiltonian *)
    inversion Hn as [| | | | ? ? ? Hex |]; subst.
    apply forallb_false_Exists in Hex.
    rewrite _pauli_sentence_Hamiltonian, Hex. eexists; reflexivity.
  - (* Sum *)
    inversion Hn as [| | | | | ? ? Hex]; subst.
    cbn [nonempty_composites] in Hwf. apply andb_prop in Hwf. destruct Hwf as [_ Hwf].
    rewrite _pauli_sentence_Sum. apply reduce_some_raise, Exists_raises; assumption.
  - (* Other *)
    cbn. eexists; reflexivity.
Qed.

(** C3 (amended): an operator without cached sentence, all of whose
    tensors, products and sums have at least one operand, that is not a
    linear combination of Pauli words (an operator of an unregistered
    class, a tensor or product with a non-Pauli factor, a weighted sum
    whose terms are not all Pauli words) is rejected by [pauli_sentence]
    with the "must be a linear combination of Pauli operators" error,
    which names an offending operator that occurs in it. *)
Theorem pauli_sentence_rejects (op : Operator) :
  _pauli_rep op = None ->
  nonempty_composites op = true ->
  not_pauli_combination op ->
  exists culprit,
    occurs_in culprit op /\ not_pauli_combination culprit /\
    pauli_sentence op = Raise (ValueError (MustBeLinearCombination culprit)).
Proof.
  intros Hrep Hwf Hn. unfold pauli_sentence. rewrite Hrep.
  destruct (_pauli_sentence_rejects op Hwf Hn) as [e He].
  destruct (_pauli_sentence_raises_only op Hwf e He) as [c [Hc1 [Hc2 Hc3]]].
  exists c. rewrite He, Hc3. repeat split; assumption.
Qed.

Lemma pauli_sentence_rejects_witness :
  let rx := Other None "RX" [inl 1%Z] in
  let op := Prod None [PauliX None (inl 0%Z); rx] in
  exists culprit,
    occurs_in culprit op /\ not_pauli_combination culprit /\
    pauli_sentence op = Raise (ValueError (MustBeLinearCombination culprit)).
Proof.
  intros rx op. apply pauli_sentence_rejects.
  - reflexivity.
  - reflexivity.
  - apply npc_prod. right. left. apply npc_unregistered.
Defined.

(** C3 as stated fails for the product of the empty tensor and a
    rotation: it has no cached sentence and contains a non-Pauli factor,
    yet its first operand is converted first, and [reduce] on the empty
    sequence of its factors raises a [TypeError]; the descriptive error is
    never raised. *)
Lemma pauli_sentence_rejects_counterexample :
  let rx := Other None "RX" [inl 1%Z] in
  let op := Prod None [Tensor None []; rx] in
  _pauli_rep op = None /\
  not_pauli_combination op /\
  nonempty_composites op = false /\
  pauli_sentence op = Raise TypeError /\
  forall culprit, pauli_sentence op <> Raise (ValueError (MustBeLinearCombination culprit)).
Proof.
  intros rx op. split; [reflexivity | split; [| split; [reflexivity | split; [reflexivity |]]]].
  - apply npc_prod. right. left. apply npc_unregistered.
  - intros culprit H. discriminate H.
Qed.

(** An unregistered operator, a tensor with a non-Pauli factor and a
    weighted sum with a term that is not a Pauli word are named
    themselves. *)
Lemma pauli_sentence_rejects_directly (op : Operator) :
  _pauli_rep op = None ->
  match op with
  | Other _ _ _ => True
  | Tensor _ obs => Exists (fun factor => is_pauli_factor factor = false) obs
  | Hamiltonian _ _ ops => Exists (fun term => is_pauli_word term = false) ops
  | _ => False
  end ->
  pauli_sentence op = Raise (ValueError (MustBeLinearCombination op)).
Proof.
  intros Hrep Hcase. unfold pauli_sentence. rewrite Hrep.
  destruct op; try contradiction.
  - apply forallb_false_Exists in Hcase. rewrite _pauli_sentence_Tensor, Hcase. reflexivity.
  - apply forallb_false_Exists in Hcase. rewrite _pauli_sentence_Hamiltonian, Hcase. reflexivity.
  - reflexivity.
Qed.

(** The example of the specification: [2.0 * (X(0) @ Z(1))] converts to
    the single term [{0: X, 1: Z} -> 2.0]. *)
Example pauli_sentence_scaled_tensor :
  exists ps,
    pauli_sentence (SProd None (Cint 2) (Tensor None [PauliX None (inl 0%Z); PauliZ None (inl 1%Z)]))
      = Ok ps /\
    size ps = 1 /\
    (exists c, ps !! ({[ inl 0%Z := Label.X; inl 1%Z := Label.Z ]} : gmap wire label) = Some c /\
               C_eq_bool c (Cint 2) = true).
Proof.
  eexists. split; [reflexivity|]. split; [vm_compute; reflexivity|].
  eexists. split; [vm_compute; reflexivity | vm_compute; reflexivity].
Qed.
(** ** Arithmetic of exact complex numbers *)

Lemma C_ext (a b : C) : Cre a = Cre b -> Cim a = Cim b -> a = b.
Proof. destruct a, b; cbn; intros -> ->; reflexivity. Qed.

Ltac Cring :=
  apply C_ext;
  unfold Cadd, Csub, Cmul, Copp, Cdivn, Cnat, C0, C1, Ci, Cre, Cim, Qcdiv; cbn [fst snd]; ring.

Lemma Cadd_0_l a : Cadd C0 a = a.
Proof. Cring. Qed.
Lemma Cadd_comm a b : Cadd a b = Cadd b a.
Proof. Cring. Qed.
Lemma Cadd_assoc a b c : Cadd a (Cadd b c) = Cadd (Cadd a b) c.
Proof. Cring. Qed.
Lemma Cmul_0_l a : Cmul C0 a = C0.
Proof. Cring. Qed.
Lemma Cmul_0_r a : Cmul a C0 = C0.
Proof. Cring. Qed.
Lemma Cmul_1_r a : Cmul a C1 = a.
Proof. Cring. Qed.

Lemma fold_Cadd_shift (l : list C) (a : C) : fold_left Cadd l a = Cadd a (fold_left Cadd l C0).
Proof.
  revert a. induction l as [|x l IH]; intros a; cbn.
  - Cring.
  - rewrite (IH (Cadd a x)), (IH (Cadd C0 x)). Cring.
Qed.

Lemma Csum_cons (a : C) (l : list C) : Csum (a :: l) = Cadd a (Csum l).
Proof. unfold Csum; cbn. rewrite fold_Cadd_shift. Cring. Qed.

Lemma Csum_nil : Csum [] = C0.
Proof. reflexivity. Qed.

Lemma Csum_app (l1 l2 : list C) : Csum (l1 ++ l2) = Cadd (Csum l1) (Csum l2).
Proof.
  induction l1 as [|x l1 IH]; cbn [app].
  - rewrite Csum_nil. Cring.
  - rewrite !Csum_cons, IH. Cring.
Qed.

Lemma Csum_map_add {A : Type} (f g : A -> C) (l : list A) :
  Csum (map (fun x => Cadd (f x) (g x)) l) = Cadd (Csum (map f l)) (Csum (map g l)).
Proof.
  induction l as [|x l IH]; cbn [map].
  - rewrite !Csum_nil. Cring.
  - rewrite !Csum_cons, IH. Cring.
Qed.

Lemma Csum_map_mul_l {A : Type} (k : C) (f : A -> C) (l : list A) :
  Csum (map (fun x => Cmul k (f x)) l) = Cmul k (Csum (map f l)).
Proof.
  induction l as [|x l IH]; cbn [map].
  - rewrite !Csum_nil. Cring.
  - rewrite !Csum_cons, IH. Cring.
Qed.

Lemma Csum_map_ext {A : Type} (f g : A -> C) (l : list A) :
  (forall x, In x l -> f x = g x) -> Csum (map f l) = Csum (map g l).
Proof. intros H. f_equal. apply map_ext_in, H. Qed.

Lemma Csum_flat_map {A B : Type} (f : B -> C) (g : A -> list B) (l : list A) :
  Csum (map f (flat_map g l)) = Csum (map (fun x => Csum (map f (g x))) l).
Proof.
  induction l as [|x l IH]; cbn [flat_map map].
  - reflexivity.
  - rewrite map_app, Csum_app, Csum_cons, IH. reflexivity.
Qed.

(** ** Bits of indices *)

Lemma testbit_double_0 (r : nat) (b : bool) : Nat.testbit (2 * r + Nat.b2n b) 0 = b.
Proof. apply Nat.testbit_0_r. Qed.

Lemma testbit_double_S (r : nat) (b : bool) (k : nat) :
  Nat.testbit (2 * r + Nat.b2n b) (S k) = Nat.testbit r k.
Proof. apply Nat.testbit_succ_r. Qed.

Lemma half_cases (r : nat) : exists h b, r = 2 * h + Nat.b2n b.
Proof. exists (Nat.div2 r), (Nat.odd r). apply Nat.div2_odd. Qed.

Lemma testbit_true_le (k r : nat) : Nat.testbit r k = true -> 2 ^ k <= r.
Proof.
  revert r. induction k as [|k IH]; intros r H; destruct (half_cases r) as [h [b ->]].
  - rewrite testbit_double_0 in H. subst b. cbn [Nat.b2n Nat.pow]. lia.
  - rewrite testbit_double_S in H. apply IH in H. rewrite Nat.pow_succ_r'.
    destruct b; cbn [Nat.b2n]; lia.
Qed.

Lemma testbit_false_add_lt (k n r : nat) :
  k < n -> r < 2 ^ n -> Nat.testbit r k = false -> r + 2 ^ k < 2 ^ n.
Proof.
  revert n r. induction k as [|k IH]; intros n r Hk Hr H;
    destruct (half_cases r) as [h [b ->]]; (destruct n as [|n]; [lia|]);
    rewrite ?Nat.pow_succ_r' in *.
  - rewrite testbit_double_0 in H. subst b. cbn [Nat.b2n Nat.pow] in *. lia.
  - rewrite testbit_double_S in H.
    assert (Hd : h < 2 ^ n) by (destruct b; cbn [Nat.b2n] in Hr; lia).
    specialize (IH n h ltac:(lia) Hd H). destruct b; cbn [Nat.b2n]; lia.
Qed.

Lemma lxor_double (r c : nat) (b d : bool) :
  Nat.lxor (2 * r + Nat.b2n b) (2 * c + Nat.b2n d) = 2 * Nat.lxor r c + Nat.b2n (xorb b d).
Proof.
  apply Nat.bits_inj. intros [|k].
  - rewrite Nat.lxor_spec, !testbit_double_0. reflexivity.
  - rewrite Nat.lxor_spec, !testbit_double_S, Nat.lxor_spec. reflexivity.
Qed.

Lemma lxor_lt_pow2 (n r c : nat) : r < 2 ^ n -> c < 2 ^ n -> Nat.lxor r c < 2 ^ n.
Proof.
  revert r c. induction n as [|n IH]; intros r c Hr Hc.
  - cbn in *. assert (r = 0) by lia. assert (c = 0) by lia. subst. cbn. lia.
  - rewrite Nat.pow_succ_r' in *.
    destruct (half_cases r) as [h [b ->]]. destruct (half_cases c) as [h' [b' ->]].
    rewrite lxor_double.
    assert (Nat.lxor h h' < 2 ^ n).
    { apply IH; [destruct b | destruct b']; cbn [Nat.b2n] in *; lia. }
    destruct (xorb b b'); cbn [Nat.b2n]; lia.
Qed.

(** ** The Hadamard passes *)

Lemma passes_ext (bits : list nat) (F G : nat -> nat -> C) :
  (forall r c, F r c = G r c) -> forall r c, passes bits F r c = passes bits G r c.
Proof.
  revert F G. induction bits as [|k bits IH]; intros F G H r c; cbn.
  - apply H.
  - apply IH. intros r' c'. unfold pass_fn. rewrite !H. reflexivity.
Qed.

Lemma passes_app (bits1 bits2 : list nat) (F : nat -> nat -> C) :
  passes (bits1 ++ bits2) F = passes bits2 (passes bits1 F).
Proof. unfold passes. apply fold_left_app. Qed.

(** A pass on a higher bit acts inside each block of rows and columns with
    a given last bit. *)
Lemma pass_fn_blk (k : nat) (F : nat -> nat -> C) (b d : bool) (r c : nat) :
  blk b d (pass_fn (S k) F) r c = pass_fn k (blk b d F) r c.
Proof.
  unfold blk, pass_fn. rewrite !testbit_double_S.
  destruct (Nat.testbit r k) eqn:Er.
  - apply testbit_true_le in Er.
    replace (2 * r + Nat.b2n b - 2 ^ S k) with (2 * (r - 2 ^ k) + Nat.b2n b)
      by (rewrite Nat.pow_succ_r'; lia).
    reflexivity.
  - replace (2 * r + Nat.b2n b + 2 ^ S k) with (2 * (r + 2 ^ k) + Nat.b2n b)
      by (rewrite Nat.pow_succ_r'; lia).
    reflexivity.
Qed.

Lemma passes_blk (bits : list nat) (F : nat -> nat -> C) (b d : bool) (r c : nat) :
  blk b d (passes (map S bits) F) r c = passes bits (blk b d F) r c.
Proof.
  revert F. induction bits as [|k bits IH]; intros F; cbn [map].
  - reflexivity.
  - change (passes (S k :: map S bits) F) with (passes (map S bits) (pass_fn (S k) F)).
    change (passes (k :: bits) (blk b d F)) with (passes bits (pass_fn k (blk b d F))).
    rewrite IH. apply passes_ext. intros r' c'. apply pass_fn_blk.
Qed.

Lemma bit_order_S (n : nat) : bit_order (S n) = map S (bit_order n) ++ [0].
Proof.
  unfold bit_order. rewrite seq_S, map_app. cbn [map]. f_equal.
  - rewrite map_map. apply map_ext_in. intros idx Hin. apply in_seq in Hin. lia.
  - f_equal. lia.
Qed.

Lemma bit_order_lt (n k : nat) : In k (bit_order n) -> k < n.
Proof.
  unfold bit_order. intros H. apply in_map_iff in H. destruct H as [idx [<- Hin]].
  apply in_seq in Hin. lia.
Qed.

(** The last pass, on bit 0, in terms of the blocks of the earlier ones. *)
Lemma passes_last_bit (n : nat) (F : nat -> nat -> C) (z x : nat) (zl xl : bool) :
  passes (bit_order (S n)) F (2 * z + Nat.b2n zl) (2 * x + Nat.b2n xl) =
  if zl then
    let diff := Csub (passes (bit_order n) (blk false xl F) z x)
                     (passes (bit_order n) (blk true xl F) z x) in
    if xl then Cmul diff Ci else diff
  else Cadd (passes (bit_order n) (blk false xl F) z x)
            (passes (bit_order n) (blk true xl F) z x).
Proof.
  rewrite bit_order_S, passes_app. cbn [passes fold_left].
  unfold pass_fn at 1. rewrite !testbit_double_0.
  rewrite <- !passes_blk. unfold blk.
  destruct zl; cbn [Nat.b2n Nat.pow].
  - replace (2 * z + 1 - 1) with (2 * z + 0) by lia.
    reflexivity.
  - replace (2 * z + 0 + 1) with (2 * z + 1) by lia. reflexivity.
Qed.

(** ** Pauli strings *)

Lemma int_base2_snoc (bits : list bool) (b : bool) :
  int_base2 (bits ++ [b]) = 2 * int_base2 bits + Nat.b2n b.
Proof. unfold int_base2. rewrite fold_left_app. reflexivity. Qed.

Lemma zrow_snoc (q : list label) (l : label) : zrow (q ++ [l]) = 2 * zrow q + Nat.b2n (in_YZ l).
Proof. unfold zrow. rewrite map_app. apply int_base2_snoc. Qed.

Lemma xcol_snoc (q : list label) (l : label) : xcol (q ++ [l]) = 2 * xcol q + Nat.b2n (in_XY l).
Proof. unfold xcol. rewrite map_app. apply int_base2_snoc. Qed.

Lemma int_base2_lt (bits : list bool) : int_base2 bits < 2 ^ length bits.
Proof.
  induction bits as [|b bits IH] using rev_ind.
  - cbn. lia.
  - rewrite int_base2_snoc, length_app. cbn [length]. rewrite Nat.add_1_r, Nat.pow_succ_r'.
    destruct b; cbn [Nat.b2n]; lia.
Qed.

Lemma product_length {A : Type} (pool : list A) (n : nat) (p : list A) :
  In p (product pool n) -> length p = n.
Proof.
  revert p. induction n as [|n IH]; intros p H; cbn in H.
  - destruct H as [<-|[]]. reflexivity.
  - apply in_flat_map in H. destruct H as [q [Hq H]].
    apply in_map_iff in H. destruct H as [y [<- _]].
    rewrite length_app, (IH q Hq). cbn. lia.
Qed.

Lemma zrow_lt (n : nat) (p : list label) : length p = n -> zrow p < 2 ^ n.
Proof. intros <-. unfold zrow. rewrite <- (length_map in_YZ p). apply int_base2_lt. Qed.

Lemma xcol_lt (n : nat) (p : list label) : length p = n -> xcol p < 2 ^ n.
Proof. intros <-. unfold xcol. rewrite <- (length_map in_XY p). apply int_base2_lt. Qed.

Lemma kron_all_snoc (ms : list ndarray) (m : ndarray) :
  kron_all (ms ++ [m]) = kron (kron_all ms) m.
Proof. unfold kron_all. rewrite fold_left_app. reflexivity. Qed.

Lemma shape_kron_all_pauli (p : list label) :
  shape (kron_all (map pauli_matrix p)) = (2 ^ length p, 2 ^ length p).
Proof.
  induction p as [|l p IH] using rev_ind.
  - reflexivity.
  - rewrite map_app. cbn [map]. rewrite kron_all_snoc. unfold kron.
    rewrite shape_tabulate, IH. cbn [fst snd shape pauli_matrix].
    rewrite length_app. cbn [length]. rewrite Nat.add_1_r, Nat.pow_succ_r'.
    f_equal; lia.
Qed.

Lemma double_div2 (r : nat) (b : bool) : (2 * r + Nat.b2n b) / 2 = r.
Proof.
  symmetry. apply (Nat.div_unique _ 2 r (Nat.b2n b)); [destruct b; cbn; lia | lia].
Qed.

Lemma double_mod2 (r : nat) (b : bool) : (2 * r + Nat.b2n b) mod 2 = Nat.b2n b.
Proof.
  symmetry. apply (Nat.mod_unique _ 2 r (Nat.b2n b)); [destruct b; cbn; lia | lia].
Qed.

Lemma pauli_entry_snoc (q : list label) (l : label) (r c : nat) (b d : bool) :
  r < 2 ^ length q -> c < 2 ^ length q ->
  pauli_entry (q ++ [l]) (2 * r + Nat.b2n b) (2 * c + Nat.b2n d) =
  Cmul (pauli_entry q r c) (sig l b d).
Proof.
  intros Hr Hc. unfold pauli_entry, sig. rewrite map_app. cbn [map].
  rewrite kron_all_snoc. unfold kron. rewrite shape_kron_all_pauli.
  cbn [fst snd shape pauli_matrix].
  rewrite item_tabulate by (destruct b, d; cbn [Nat.b2n]; lia).
  rewrite !double_div2, !double_mod2. reflexivity.
Qed.

Lemma pauli_entry_nil : pauli_entry [] 0 0 = C1.
Proof. reflexivity. Qed.

(** ** Natural numbers as complex numbers *)

Lemma Qc_of_nat_mul (a b : nat) : Qc_of_nat (a * b) = (Qc_of_nat a * Qc_of_nat b)%Qc.
Proof.
  unfold Qc_of_nat, Qcmult. apply Q2Qc_eq_iff. cbn [this Q2Qc].
  rewrite !Qred_correct, Nat2Z.inj_mul, inject_Z_mult. reflexivity.
Qed.

Lemma Cnat_mul (a b : nat) : Cnat (a * b) = Cmul (Cnat a) (Cnat b).
Proof.
  apply C_ext; unfold Cnat, Cmul, Cre, Cim; cbn [fst snd]; rewrite ?Qc_of_nat_mul; ring.
Qed.

Lemma Cnat_1 : Cnat 1 = C1.
Proof. reflexivity. Qed.

Lemma Cnat_2_mul (a : C) : Cmul (Cnat 2) a = Cadd a a.
Proof.
  apply C_ext; unfold Cnat, Cmul, Cadd, Cre, Cim; cbn [fst snd].
  - change (Qc_of_nat 2) with (1 + 1)%Qc. ring.
  - change (Qc_of_nat 2) with (1 + 1)%Qc. ring.
Qed.

Lemma Qc_of_nat_pow2_nonzero (n : nat) : Qc_of_nat (2 ^ n) <> 0%Qc.
Proof.
  unfold Qc_of_nat. intros H. apply Q2Qc_eq_iff in H.
  unfold Qeq in H. cbn in H.
  assert (2 ^ n <> 0) by (apply Nat.pow_nonzero; discriminate). lia.
Qed.

Lemma Cdivn_Cnat_mul (n : nat) (a : C) : Cdivn (Cmul (Cnat (2 ^ n)) a) (2 ^ n) = a.
Proof.
  pose proof (Qc_of_nat_pow2_nonzero n) as Hn.
  apply C_ext; unfold Cdivn, Cnat, Cmul, Cre, Cim; cbn [fst snd]; field; exact Hn.
Qed.

Lemma Cmul_Cdivn (a b : C) (n : nat) : Cmul (Cdivn a n) b = Cdivn (Cmul a b) n.
Proof. Cring. Qed.

Lemma Csum_map_Cdivn {A : Type} (f : A -> C) (n : nat) (l : list A) :
  Csum (map (fun x => Cdivn (f x) n) l) = Cdivn (Csum (map f l)) n.
Proof.
  induction l as [|x l IH]; cbn [map].
  - rewrite !Csum_nil. Cring.
  - rewrite !Csum_cons, IH. Cring.
Qed.

(** ** Re-expanding the transformed coefficients *)

Lemma product_S {A : Type} (pool : list A) (n : nat) :
  product pool (S n) = flat_map (fun x => map (fun y => x ++ [y]) pool) (product pool n).
Proof. reflexivity. Qed.

Lemma Csum_IXYZ (f : list label -> C) (q : list label) :
  Csum (map f (map (fun y => q ++ [y]) IXYZ)) =
  Cadd (Cadd (f (q ++ [Label.I])) (f (q ++ [Label.X])))
       (Cadd (f (q ++ [Label.Y])) (f (q ++ [Label.Z]))).
Proof.
  cbn [IXYZ map]. rewrite !Csum_cons, Csum_nil. Cring.
Qed.

(** The four Pauli strings that extend [q] by one symbol re-expand, at an
    entry whose row ends in [b] and whose column ends in [d], to twice the
    contribution of [q] in the block of rows ending in [b] and of columns
    ending in [b xor d]. *)
Lemma last_symbol_sum (n : nat) (F : nat -> nat -> C) (q : list label) (r c : nat) (b d : bool) :
  length q = n -> r < 2 ^ n -> c < 2 ^ n ->
  Csum (map (fun p => Cmul (passes (bit_order (S n)) F (zrow p) (xcol p))
                           (pauli_entry p (2 * r + Nat.b2n b) (2 * c + Nat.b2n d)))
            (map (fun y => q ++ [y]) IXYZ)) =
  Cmul (Cnat 2)
       (Cmul (passes (bit_order n) (blk b (xorb b d) F) (zrow q) (xcol q)) (pauli_entry q r c)).
Proof.
  intros Hq Hr Hc. rewrite Csum_IXYZ.
  rewrite !zrow_snoc, !xcol_snoc, !passes_last_bit.
  rewrite !pauli_entry_snoc by (rewrite Hq; assumption).
  cbn [in_YZ in_XY].
  set (K := pauli_entry q r c).
  set (A00 := passes (bit_order n) (blk false false F) (zrow q) (xcol q)).
  set (A10 := passes (bit_order n) (blk true false F) (zrow q) (xcol q)).
  set (A01 := passes (bit_order n) (blk false true F) (zrow q) (xcol q)).
  set (A11 := passes (bit_order n) (blk true true F) (zrow q) (xcol q)).
  destruct b, d; cbn [xorb]; fold A00 A10 A01 A11;
    unfold sig, item, pauli_matrix; cbn [data Nat.b2n nth];
    apply C_ext;
    unfold Cnat, Cadd, Csub, Cmul, Copp, C0, C1, Ci, Cre, Cim; cbn [fst snd];
    change (Qc_of_nat 2) with (1 + 1)%Qc; ring.
Qed.

(** Summed over all Pauli strings, the transformed entries times the
    entries of the Kronecker products give back, [2^n] times, the entry
    the transform started from. *)
Lemma reexpansion_identity (n : nat) :
  forall (F : nat -> nat -> C) (r c : nat),
  r < 2 ^ n -> c < 2 ^ n ->
  Csum (map (fun p => Cmul (passes (bit_order n) F (zrow p) (xcol p)) (pauli_entry p r c))
            (product IXYZ n)) =
  Cmul (Cnat (2 ^ n)) (F r (Nat.lxor r c)).
Proof.
  induction n as [|n IH]; intros F r c Hr Hc.
  - cbn in Hr, Hc. assert (r = 0) by lia. assert (c = 0) by lia. subst.
    cbn [product map bit_order seq]. rewrite Csum_cons, Csum_nil.
    cbn [passes fold_left zrow xcol map int_base2 Nat.lxor Nat.pow].
    rewrite pauli_entry_nil, Cnat_1. change (Nat.lxor 0 0) with 0. Cring.
  - destruct (half_cases r) as [r' [b ->]]. destruct (half_cases c) as [c' [d ->]].
    rewrite Nat.pow_succ_r' in Hr, Hc.
    assert (Hr' : r' < 2 ^ n) by (destruct b; cbn [Nat.b2n] in Hr; lia).
    assert (Hc' : c' < 2 ^ n) by (destruct d; cbn [Nat.b2n] in Hc; lia).
    rewrite product_S, Csum_flat_map.
    rewrite (Csum_map_ext _
               (fun q => Cmul (Cnat 2)
                  (Cmul (passes (bit_order n) (blk b (xorb b d) F) (zrow q) (xcol q))
                        (pauli_entry q r' c')))).
    2:{ intros q Hq. apply last_symbol_sum; [apply (product_length _ _ _ Hq) | assumption..]. }
    rewrite Csum_map_mul_l, (IH _ r' c' Hr' Hc').
    rewrite lxor_double. unfold blk.
    rewrite Nat.pow_succ_r', Cnat_mul. Cring.
Qed.

(** ** From the arrays of [pauli_decompose] to entry functions *)

Lemma lxor_step (j m : nat) :
  Nat.lxor (Nat.lxor j m) (Nat.lxor (m + 1) m) = Nat.lxor j (S m).
Proof.
  rewrite Nat.lxor_assoc, (Nat.lxor_comm (m + 1) m), <- (Nat.lxor_assoc m m).
  rewrite Nat.lxor_nilpotent, Nat.lxor_0_l, Nat.add_1_r. reflexivity.
Qed.

(** The XOR permutation: entry [j] of [indices[k]] is [j ^ k]. *)
Lemma xor_indices_prefix (n_rows m : nat) :
  fold_left
    (fun indices idx =>
       indices ++ [map (fun v => Nat.lxor v (Nat.lxor (idx + 1) idx)) (List.last indices [])])
    (seq 0 m) [seq 0 n_rows] =
  map (fun k => map (fun j => Nat.lxor j k) (seq 0 n_rows)) (seq 0 (S m)).
Proof.
  induction m as [|m IH].
  - cbn [seq fold_left map]. f_equal. rewrite <- (map_id (seq 0 n_rows)) at 1.
    apply map_ext. intros j. rewrite Nat.lxor_0_r. reflexivity.
  - rewrite seq_S, fold_left_app, IH. cbn [fold_left Nat.add].
    rewrite (seq_S (S m)), (map_app _ (seq 0 (S m))). cbn [map Nat.add]. f_equal.
    rewrite (seq_S m), map_app. cbn [map Nat.add]. rewrite last_last, map_map.
    f_equal. apply map_ext. intros j. apply lxor_step.
Qed.

Lemma xor_indices_closed (n_rows : nat) :
  1 <= n_rows ->
  xor_indices n_rows = map (fun k => map (fun j => Nat.lxor j k) (seq 0 n_rows)) (seq 0 n_rows).
Proof.
  intros H. unfold xor_indices. rewrite xor_indices_prefix.
  replace (S (n_rows - 1)) with n_rows by lia. reflexivity.
Qed.

Lemma combine_seq_map {A : Type} (g : nat -> A) (l : list nat) :
  combine l (map g l) = map (fun k => (k, g k)) l.
Proof. induction l as [|x l IH]; cbn; [reflexivity | rewrite IH; reflexivity]. Qed.

Lemma permuted_xor (matrix : ndarray) (n_rows : nat) :
  1 <= n_rows -> shape matrix = (n_rows, n_rows) ->
  permuted matrix (xor_indices n_rows) =
  tabulate_as (dtype matrix) n_rows n_rows (fun k j => item matrix k (Nat.lxor j k)).
Proof.
  intros Hn Hs. unfold permuted, enumerate, tabulate_as.
  rewrite xor_indices_closed by exact Hn. rewrite Hs, length_map, length_seq.
  cbn [fst]. f_equal. rewrite combine_seq_map, map_map. apply map_ext. intros k.
  cbn [fst snd]. rewrite map_map. reflexivity.
Qed.

Lemma complex_pass_tabulate (n : nat) (term_mat : ndarray) (idx : nat) :
  complex_pass n term_mat idx =
  tabulate (fst (shape term_mat)) (snd (shape term_mat)) (pass_fn (n - 1 - idx) (item term_mat)).
Proof. reflexivity. Qed.

Lemma pass_fn_ext_range (n bit : nat) (F G : nat -> nat -> C) :
  bit < n ->
  (forall r c, r < 2 ^ n -> c < 2 ^ n -> F r c = G r c) ->
  forall r c, r < 2 ^ n -> c < 2 ^ n -> pass_fn bit F r c = pass_fn bit G r c.
Proof.
  intros Hb H r c Hr Hc. unfold pass_fn.
  destruct (Nat.testbit r bit) eqn:E.
  - rewrite !H by lia. reflexivity.
  - rewrite !H by (first [assumption | apply testbit_false_add_lt; assumption]). reflexivity.
Qed.

Lemma passes_ext_range (n : nat) (bits : list nat) (F G : nat -> nat -> C) :
  (forall k, In k bits -> k < n) ->
  (forall r c, r < 2 ^ n -> c < 2 ^ n -> F r c = G r c) ->
  forall r c, r < 2 ^ n -> c < 2 ^ n -> passes bits F r c = passes bits G r c.
Proof.
  revert F G. induction bits as [|k bits IH]; intros F G Hb H r c Hr Hc; cbn.
  - apply H; assumption.
  - apply IH; try assumption.
    + intros k' Hk'. apply Hb. right. exact Hk'.
    + apply pass_fn_ext_range; [apply Hb; left; reflexivity | exact H].
Qed.

(** The loop of Hadamard passes keeps the shape, and its entries are those
    of the passes on the entry function. *)
Lemma hadamard_loop (n : nat) (idxs : list nat) (term_mat : ndarray) :
  shape term_mat = (2 ^ n, 2 ^ n) ->
  well_shaped term_mat ->
  (forall idx, In idx idxs -> idx < n) ->
  let result := fold_left (complex_pass n) idxs term_mat in
  shape result = (2 ^ n, 2 ^ n) /\ well_shaped result /\
  forall r c, r < 2 ^ n -> c < 2 ^ n ->
    item result r c = passes (map (fun idx => n - 1 - idx) idxs) (item term_mat) r c.
Proof.
  revert term_mat. induction idxs as [|idx idxs IH]; intros term_mat Hs Hw Hidx; cbn zeta.
  - cbn. auto.
  - cbn [fold_left map].
    assert (Hs' : shape (complex_pass n term_mat idx) = (2 ^ n, 2 ^ n)).
    { rewrite complex_pass_tabulate, Hs. reflexivity. }
    assert (Hw' : well_shaped (complex_pass n term_mat idx)).
    { rewrite complex_pass_tabulate. apply well_shaped_tabulate. }
    destruct (IH (complex_pass n term_mat idx) Hs' Hw'
                (fun i Hi => Hidx i (or_intror Hi))) as [H1 [H2 H3]].
    split; [exact H1 | split; [exact H2 |]].
    intros r c Hr Hc. rewrite (H3 r c Hr Hc).
    change (passes (n - 1 - idx :: map (fun idx0 => n - 1 - idx0) idxs) (item term_mat))
      with (passes (map (fun idx0 => n - 1 - idx0) idxs) (pass_fn (n - 1 - idx) (item term_mat))).
    apply (passes_ext_range n); try assumption.
    + intros k Hk. apply in_map_iff in Hk. destruct Hk as [i [<- Hi]].
      specialize (Hidx i (or_intror Hi)). lia.
    + intros r' c' Hr' Hc'. rewrite complex_pass_tabulate, Hs. cbn [fst snd].
      apply item_tabulate; assumption.
Qed.

Lemma item_divide (term_mat : ndarray) (d r c : nat) :
  well_shaped term_mat -> r < fst (shape term_mat) -> c < snd (shape term_mat) ->
  item (divide term_mat d) r c = Cdivn (item term_mat r c) d.
Proof.
  intros [Hl Hrows] Hr Hc. unfold item, divide. cbn [data].
  rewrite (nth_indep _ [] (map (fun x => Cdivn x d) [])) by (rewrite length_map; lia).
  rewrite (map_nth (map (fun x => Cdivn x d))).
  assert (Hrow : length (nth r (data term_mat) []) = snd (shape term_mat)).
  { rewrite List.Forall_forall in Hrows. apply Hrows, nth_In. lia. }
  rewrite (nth_indep _ C0 (Cdivn C0 d)) by (rewrite length_map; lia).
  rewrite (map_nth (fun x => Cdivn x d)). reflexivity.
Qed.

(** The entries of the transformed, normalized [term_mat]. *)
Lemma item_final_term_mat (matrix : ndarray) (n z x : nat) :
  shape matrix = (2 ^ n, 2 ^ n) -> z < 2 ^ n -> x < 2 ^ n ->
  item (final_term_mat matrix n) z x =
  Cdivn (passes (bit_order n) (fun k j => item matrix k (Nat.lxor j k)) z x) (2 ^ n).
Proof.
  intros Hs Hz Hx. unfold final_term_mat.
  assert (Hpos : 1 <= 2 ^ n).
  { assert (2 ^ n <> 0) by (apply Nat.pow_nonzero; discriminate). lia. }
  rewrite (permuted_xor matrix (2 ^ n) Hpos Hs).
  destruct (hadamard_loop n (seq 0 n)
              (tabulate_as (dtype matrix) (2 ^ n) (2 ^ n)
                 (fun k j => item matrix k (Nat.lxor j k)))
              eq_refl (well_shaped_tabulate_as _ _ _ _)) as [H1 [H2 H3]].
  { intros idx Hin. apply in_seq in Hin. lia. }
  rewrite item_divide by (first [exact H2 | rewrite H1; assumption]).
  f_equal. rewrite (H3 z x Hz Hx). fold (bit_order n).
  apply (passes_ext_range n); try assumption.
  - apply bit_order_lt.
  - intros r c Hr Hc. rewrite item_tabulate_as by assumption. reflexivity.
Qed.

(** ** Bounds on squared moduli *)

Lemma sq_nonneg_Q (x : Q) : (0 <= x * x)%Q.
Proof. nra. Qed.

Lemma mul_nonneg_Q (x y : Q) : (0 <= x -> 0 <= y -> 0 <= x * y)%Q.
Proof. nra. Qed.

(** The Cauchy-Schwarz inequality for two pairs of rationals. *)
Lemma cauchy_schwarz_Q (a1 a2 b1 b2 A B : Q) :
  (0 <= A -> 0 <= B -> a1 * a1 + a2 * a2 <= A * A -> b1 * b1 + b2 * b2 <= B * B ->
   a1 * b1 + a2 * b2 <= A * B)%Q.
Proof.
  intros HA HB Ha Hb.
  pose proof (sq_nonneg_Q (a1 * b2 - a2 * b1)) as H0.
  pose proof (sq_nonneg_Q a1) as H1. pose proof (sq_nonneg_Q a2) as H2.
  pose proof (mul_nonneg_Q A B HA HB) as HAB.
  assert (Hx : (0 <= (A * A - (a1 * a1 + a2 * a2)) * (B * B))%Q).
  { apply mul_nonneg_Q; [lra | apply sq_nonneg_Q]. }
  assert (Hy : (0 <= (a1 * a1 + a2 * a2) * (B * B - (b1 * b1 + b2 * b2)))%Q).
  { apply mul_nonneg_Q; lra. }
  assert (E : ((A * B) * (A * B) - (a1 * b1 + a2 * b2) * (a1 * b1 + a2 * b2) ==
               (A * A - (a1 * a1 + a2 * a2)) * (B * B)
               + (a1 * a1 + a2 * a2) * (B * B - (b1 * b1 + b2 * b2))
               + (a1 * b2 - a2 * b1) * (a1 * b2 - a2 * b1))%Q) by ring.
  destruct (Qlt_le_dec (A * B) (a1 * b1 + a2 * b2)) as [Hlt|Hle]; [|exact Hle].
  exfalso.
  assert (Hw : (0 < (a1 * b1 + a2 * b2 - A * B) * (a1 * b1 + a2 * b2 - A * B))%Q).
  { apply Qmult_lt_0_compat; lra. }
  assert (E3 : ((a1 * b1 + a2 * b2) * (a1 * b1 + a2 * b2) - (A * B) * (A * B) ==
                (a1 * b1 + a2 * b2 - A * B) * (a1 * b1 + a2 * b2 - A * B)
                + (1 + 1) * (A * B) * (a1 * b1 + a2 * b2 - A * B))%Q) by ring.
  assert (Hv : (0 <= (1 + 1) * (A * B) * (a1 * b1 + a2 * b2 - A * B))%Q).
  { apply mul_nonneg_Q; [apply mul_nonneg_Q; lra | lra]. }
  lra.
Qed.

Lemma triangle_Q (a1 a2 b1 b2 A B : Q) :
  (0 <= A -> 0 <= B -> a1 * a1 + a2 * a2 <= A * A -> b1 * b1 + b2 * b2 <= B * B ->
   (a1 + b1) * (a1 + b1) + (a2 + b2) * (a2 + b2) <= (A + B) * (A + B))%Q.
Proof.
  intros HA HB Ha Hb. pose proof (cauchy_schwarz_Q a1 a2 b1 b2 A B HA HB Ha Hb).
  assert (E : ((A + B) * (A + B) - ((a1 + b1) * (a1 + b1) + (a2 + b2) * (a2 + b2)) ==
               (A * A - (a1 * a1 + a2 * a2)) + (B * B - (b1 * b1 + b2 * b2))
               + (1 + 1) * (A * B - (a1 * b1 + a2 * b2)))%Q) by ring.
  lra.
Qed.

(** The triangle inequality for the modulus, on squares. *)
Lemma Cnorm2_add_le (a b : C) (A B : Qc) :
  (0 <= A -> 0 <= B -> Cnorm2 a <= A * A -> Cnorm2 b <= B * B ->
   Cnorm2 (Cadd a b) <= (A + B) * (A + B))%Qc.
Proof.
  destruct a as [a1 a2], b as [b1 b2]. unfold Cnorm2, Cadd, Cre, Cim. cbn [fst snd].
  unfold Qcle. cbn [this Qcplus Qcmult Q2Qc]. rewrite !Qred_correct.
  apply triangle_Q.
Qed.

Lemma Cnorm2_mul (a b : C) : Cnorm2 (Cmul a b) = (Cnorm2 a * Cnorm2 b)%Qc.
Proof. unfold Cnorm2, Cmul, Cre, Cim; cbn [fst snd]; ring. Qed.

Lemma Cnorm2_opp (a : C) : Cnorm2 (Copp a) = Cnorm2 a.
Proof. unfold Cnorm2, Copp, Cre, Cim; cbn [fst snd]; ring. Qed.

Lemma Cnorm2_C0 : Cnorm2 C0 = 0%Qc.
Proof. unfold Cnorm2, C0, Cre, Cim; cbn [fst snd]; ring. Qed.

Lemma Qc_of_nat_nonneg (k : nat) : (0 <= Qc_of_nat k)%Qc.
Proof.
  unfold Qcle, Qc_of_nat. cbn [this Q2Qc]. rewrite !Qred_correct.
  unfold Qle. cbn. lia.
Qed.

Lemma Qc_mul_nonneg (x y : Qc) : (0 <= x -> 0 <= y -> 0 <= x * y)%Qc.
Proof.
  unfold Qcle. cbn [this Qcmult Q2Qc]. rewrite !Qred_correct. apply mul_nonneg_Q.
Qed.

Lemma Qc_sq_nonneg (x : Qc) : (0 <= x * x)%Qc.
Proof.
  unfold Qcle. cbn [this Qcmult Q2Qc]. rewrite !Qred_correct. apply sq_nonneg_Q.
Qed.

Lemma Qc_of_nat_double (k : nat) : Qc_of_nat (2 * k) = (Qc_of_nat k + Qc_of_nat k)%Qc.
Proof. rewrite Qc_of_nat_mul. change (Qc_of_nat 2) with (1 + 1)%Qc. ring. Qed.

(** ** The terms that the tolerance drops *)

Lemma sig_unit_first (b d : bool) : Cnorm2 (sig (first_symbol b d) b d) = 1%Qc.
Proof.
  destruct b, d; unfold sig, first_symbol, item, pauli_matrix, Cnorm2, Cre, Cim, C1;
    cbn [xorb data Nat.b2n nth fst snd]; ring.
Qed.

Lemma sig_unit_second (b d : bool) : Cnorm2 (sig (second_symbol b d) b d) = 1%Qc.
Proof.
  destruct b, d;
    unfold sig, second_symbol, item, pauli_matrix, Cnorm2, Copp, Cre, Cim, C1, Ci;
    cbn [xorb data Nat.b2n nth fst snd]; ring.
Qed.

Lemma last_symbol_split (D : list label -> C) (q : list label) (K : C) (b d : bool) :
  Cadd (Cadd (Cmul (D (q ++ [Label.I])) (Cmul K (sig Label.I b d)))
             (Cmul (D (q ++ [Label.X])) (Cmul K (sig Label.X b d))))
       (Cadd (Cmul (D (q ++ [Label.Y])) (Cmul K (sig Label.Y b d)))
             (Cmul (D (q ++ [Label.Z])) (Cmul K (sig Label.Z b d)))) =
  Cadd (Cmul (Cmul (D (q ++ [first_symbol b d])) (sig (first_symbol b d) b d)) K)
       (Cmul (Cmul (D (q ++ [second_symbol b d])) (sig (second_symbol b d) b d)) K).
Proof.
  destruct b, d; unfold sig, first_symbol, second_symbol, item, pauli_matrix;
    cbn [xorb data Nat.b2n nth]; Cring.
Qed.

(** A family of coefficients of modulus at most [eps] re-expands, at every
    entry, to a number of modulus at most [2^n * eps]: only [2^n] of the
    [4^n] Pauli strings have a non-zero entry there, and that entry has
    modulus 1. *)
Lemma small_coefficients_bound (n : nat) :
  forall (D : list label -> C) (eps : Qc) (r c : nat),
  (0 <= eps)%Qc ->
  (forall p, Cnorm2 (D p) <= eps * eps)%Qc ->
  r < 2 ^ n -> c < 2 ^ n ->
  (Cnorm2 (Csum (map (fun p => Cmul (D p) (pauli_entry p r c)) (product IXYZ n)))
   <= (Qc_of_nat (2 ^ n) * eps) * (Qc_of_nat (2 ^ n) * eps))%Qc.
Proof.
  induction n as [|n IH]; intros D eps r c Heps HD Hr Hc.
  - cbn in Hr, Hc. assert (r = 0) by lia. assert (c = 0) by lia. subst.
    cbn [product map]. rewrite Csum_cons, Csum_nil, pauli_entry_nil.
    replace (Cadd (Cmul (D []) C1) C0) with (D []) by Cring.
    cbn [Nat.pow]. change (Qc_of_nat 1) with 1%Qc.
    replace (1 * eps * (1 * eps))%Qc with (eps * eps)%Qc by ring.
    apply HD.
  - destruct (half_cases r) as [r' [b ->]]. destruct (half_cases c) as [c' [d ->]].
    rewrite Nat.pow_succ_r' in Hr, Hc.
    assert (Hr' : r' < 2 ^ n) by (destruct b; cbn [Nat.b2n] in Hr; lia).
    assert (Hc' : c' < 2 ^ n) by (destruct d; cbn [Nat.b2n] in Hc; lia).
    rewrite product_S, Csum_flat_map.
    rewrite (Csum_map_ext _
               (fun q => Cadd
                  (Cmul (Cmul (D (q ++ [first_symbol b d])) (sig (first_symbol b d) b d))
                        (pauli_entry q r' c'))
                  (Cmul (Cmul (D (q ++ [second_symbol b d])) (sig (second_symbol b d) b d))
                        (pauli_entry q r' c')))).
    2:{ intros q Hq. rewrite Csum_IXYZ.
        rewrite !pauli_entry_snoc by (rewrite (product_length _ _ _ Hq); assumption).
        apply last_symbol_split. }
    rewrite Csum_map_add.
    rewrite Nat.pow_succ_r', Qc_of_nat_double.
    replace ((Qc_of_nat (2 ^ n) + Qc_of_nat (2 ^ n)) * eps)%Qc
      with (Qc_of_nat (2 ^ n) * eps + Qc_of_nat (2 ^ n) * eps)%Qc by ring.
    assert (Hnn : (0 <= Qc_of_nat (2 ^ n) * eps)%Qc)
      by (apply Qc_mul_nonneg; [apply Qc_of_nat_nonneg | exact Heps]).
    apply Cnorm2_add_le; try exact Hnn.
    + apply (IH (fun q => Cmul (D (q ++ [first_symbol b d])) (sig (first_symbol b d) b d)));
        try assumption.
      intros p. rewrite Cnorm2_mul, sig_unit_first.
      replace (Cnorm2 (D (p ++ [first_symbol b d])) * 1)%Qc
        with (Cnorm2 (D (p ++ [first_symbol b d]))) by ring.
      apply HD.
    + apply (IH (fun q => Cmul (D (q ++ [second_symbol b d])) (sig (second_symbol b d) b d)));
        try assumption.
      intros p. rewrite Cnorm2_mul, sig_unit_second.
      replace (Cnorm2 (D (p ++ [second_symbol b d])) * 1)%Qc
        with (Cnorm2 (D (p ++ [second_symbol b d]))) by ring.
      apply HD.
Qed.

(** ** The terms collected by [pauli_decompose] *)

Lemma collect_terms_fold (hide_identity : bool) (wire_order : list wire) (term_mat : ndarray)
  (strings : list (list label)) (acc : list C * list (list (label * wire))) :
  fold_left
    (fun terms pauli_rep =>
       let coefficient := coefficient_of term_mat pauli_rep in
       if negb (allclose0 coefficient) then
         let observables := observables_of hide_identity wire_order pauli_rep in
         match observables with
         | [] => terms
         | _ :: _ => (fst terms ++ [coefficient], snd terms ++ [observables])
         end
       else terms)
    strings acc =
  (fst acc ++ map fst (kept_terms hide_identity wire_order term_mat strings),
   snd acc ++ map snd (kept_terms hide_identity wire_order term_mat strings)).
Proof.
  revert acc. induction strings as [|p strings IH]; intros [cs os].
  - cbn. rewrite !app_nil_r. reflexivity.
  - cbn [fold_left kept_terms flat_map]. fold (kept_terms hide_identity wire_order term_mat strings).
    rewrite IH. cbn zeta.
    destruct (negb (allclose0 (coefficient_of term_mat p))); [|reflexivity].
    destruct (observables_of hide_identity wire_order p) as [|o os']; [reflexivity|].
    cbn [fst snd app map]. rewrite <- !app_assoc. reflexivity.
Qed.

Lemma collect_terms_kept (hide_identity : bool) (wire_order : list wire) (n : nat)
  (term_mat : ndarray) :
  collect_terms hide_identity wire_order n term_mat =
  (map fst (kept_terms hide_identity wire_order term_mat (product IXYZ n)),
   map snd (kept_terms hide_identity wire_order term_mat (product IXYZ n))).
Proof. unfold collect_terms. rewrite collect_terms_fold. reflexivity. Qed.

Lemma kept_terms_nonempty (hide_identity : bool) (wire_order : list wire) (term_mat : ndarray)
  (strings : list (list label)) :
  List.Forall (fun t => snd t <> []) (kept_terms hide_identity wire_order term_mat strings).
Proof.
  apply List.Forall_forall. intros t Hin. unfold kept_terms in Hin.
  apply in_flat_map in Hin. destruct Hin as [p [_ Hin]]. cbn zeta in Hin.
  destruct (negb (allclose0 (coefficient_of term_mat p))); [|destruct Hin].
  destruct (observables_of hide_identity wire_order p) as [|o os]; [destruct Hin|].
  destruct Hin as [<-|[]]. discriminate.
Qed.

Lemma map_snd_combine {A B : Type} (l : list A) (k : list B) :
  length l = length k -> map snd (combine l k) = k.
Proof.
  revert k. induction l as [|x l IH]; intros [|y k] H; cbn in *; try discriminate.
  - reflexivity.
  - f_equal. apply IH. lia.
Qed.

(** Without [hide_identity], the observables of a string pair its symbols
    with the wires, in order. *)
Lemma observables_of_labels (wire_order : list wire) (p : list label) :
  length wire_order = length p ->
  map fst (observables_of false wire_order p) = p.
Proof.
  intros H. unfold observables_of. cbn [andb]. rewrite map_map. cbn [fst].
  apply map_snd_combine, H.
Qed.

Lemma observables_of_nonempty (wire_order : list wire) (p : list label) :
  length wire_order = length p -> 1 <= length p ->
  observables_of false wire_order p <> [].
Proof.
  intros H Hp Hnil. apply (f_equal (map fst)) in Hnil.
  rewrite observables_of_labels in Hnil by exact H. subst p. cbn in Hp. lia.
Qed.

(** ** The operators of the terms *)

Lemma reduce_from_matmul_tensor (l xs : list Operator) :
  reduce_from matmul (Tensor None l) (map Ok xs) = Ok (Tensor None (l ++ xs)).
Proof.
  revert l. induction xs as [|x xs IH]; intros l; cbn.
  - rewrite app_nil_r. reflexivity.
  - rewrite IH, <- app_assoc. reflexivity.
Qed.

Lemma label_of_op_map (o : label) (w : wire) : label_of (op_map o w) = Some o.
Proof. destruct o; reflexivity. Qed.

Lemma mapM_label_of_op_map (obs_term : list (label * wire)) :
  mapM label_of (map (fun ow => op_map (fst ow) (snd ow)) obs_term) = Some (map fst obs_term).
Proof.
  induction obs_term as [|[o w] rest IH]; [reflexivity|].
  cbn [map mapM fst snd]. rewrite label_of_op_map, IH. reflexivity.
Qed.

Lemma term_operator_matrix (obs_term : list (label * wire)) :
  obs_term <> [] ->
  exists op,
    term_operator obs_term = Ok op /\
    term_matrix op = Some (kron_all (map pauli_matrix (map fst obs_term))).
Proof.
  intros Hne. destruct obs_term as [|[o1 w1] rest]; [contradiction|].
  unfold term_operator. cbn [map reduce fst snd]. rewrite bind_Ok.
  destruct rest as [|[o2 w2] rest].
  - exists (op_map o1 w1). split; [reflexivity|].
    unfold term_matrix. destruct o1; reflexivity.
  - exists (Tensor None (op_map o1 w1 :: op_map o2 w2
                         :: map (fun ow => op_map (fst ow) (snd ow)) rest)).
    split.
    + cbn [map reduce_from fst snd]. rewrite bind_Ok.
      replace (matmul (op_map o1 w1) (op_map o2 w2))
        with (Tensor None [op_map o1 w1; op_map o2 w2]) by (destruct o1; reflexivity).
      rewrite <- (map_map (fun ow => op_map (fst ow) (snd ow)) Ok).
      rewrite reduce_from_matmul_tensor. reflexivity.
    + unfold term_matrix. cbn [factors].
      change (op_map o1 w1 :: op_map o2 w2 :: map (fun ow => op_map (fst ow) (snd ow)) rest)
        with (map (fun ow => op_map (fst ow) (snd ow)) ((o1, w1) :: (o2, w2) :: rest)).
      rewrite mapM_label_of_op_map. reflexivity.
Qed.

Lemma collect_term_operators (obs_terms : list (list (label * wire))) :
  List.Forall (fun o => o <> []) obs_terms ->
  exists ops,
    collect (map term_operator obs_terms) = Ok ops /\
    mapM term_matrix ops =
      Some (map (fun o => kron_all (map pauli_matrix (map fst o))) obs_terms).
Proof.
  induction obs_terms as [|o rest IH]; intros HF.
  - exists []. split; reflexivity.
  - inversion HF as [|? ? Ho Hrest]; subst.
    destruct (term_operator_matrix o Ho) as [op [H1 H2]].
    destruct (IH Hrest) as [ops [H3 H4]].
    exists (op :: ops). split.
    + cbn [map collect]. rewrite H1, bind_Ok, H3, bind_Ok. reflexivity.
    + cbn [map mapM]. rewrite H2, H4. reflexivity.
Qed.

(** ** Sums of matrices *)

Lemma item_zeros (rows cols r c : nat) : r < rows -> c < cols -> item (zeros rows cols) r c = C0.
Proof. intros Hr Hc. unfold zeros. rewrite item_tabulate by assumption. reflexivity. Qed.

Lemma item_madd (a b : ndarray) (r c : nat) :
  r < fst (shape a) -> c < snd (shape a) ->
  item (madd a b) r c = Cadd (item a r c) (item b r c).
Proof. intros Hr Hc. unfold madd. rewrite item_tabulate by assumption. reflexivity. Qed.

Lemma item_mscale (k : C) (a : ndarray) (r c : nat) :
  r < fst (shape a) -> c < snd (shape a) ->
  item (mscale k a) r c = Cmul k (item a r c).
Proof. intros Hr Hc. unfold mscale. rewrite item_tabulate by assumption. reflexivity. Qed.

Lemma fold_madd (ms : list ndarray) (acc : ndarray) (rows cols : nat) :
  shape acc = (rows, cols) ->
  shape (fold_left madd ms acc) = (rows, cols) /\
  forall r c, r < rows -> c < cols ->
    item (fold_left madd ms acc) r c = Cadd (item acc r c) (Csum (map (fun m => item m r c) ms)).
Proof.
  revert acc. induction ms as [|m ms IH]; intros acc Hs.
  - split; [exact Hs|]. intros r c _ _. cbn [fold_left map]. rewrite Csum_nil. Cring.
  - cbn [fold_left map].
    assert (Hs' : shape (madd acc m) = (rows, cols)) by (unfold madd; rewrite Hs; reflexivity).
    destruct (IH (madd acc m) Hs') as [H1 H2]. split; [exact H1|].
    intros r c Hr Hc. rewrite (H2 r c Hr Hc), Csum_cons.
    rewrite item_madd by (rewrite Hs; assumption). Cring.
Qed.

Lemma zip_with_maps {A B D E : Type} (f : B -> D -> E) (g : A -> B) (h : A -> D) (l : list A) :
  zip_with f (map g l) (map h l) = map (fun x => f (g x) (h x)) l.
Proof. induction l as [|x l IH]; cbn; [reflexivity | rewrite IH; reflexivity]. Qed.

(** ** Re-expanding the decomposition *)

(** The weighted sum that [pauli_decompose] builds re-expands to the sum,
    over all Pauli strings, of the kept coefficient times the Kronecker
    product. *)
Lemma reexpand_kept (n : nat) (wire_order : list wire) (term_mat : ndarray) :
  1 <= n -> length wire_order = n ->
  exists H R,
    package false (collect_terms false wire_order n term_mat) = Ok (inr H) /\
    reexpand n H = Some R /\
    shape R = (2 ^ n, 2 ^ n) /\
    forall r c, r < 2 ^ n -> c < 2 ^ n ->
      item R r c =
      Csum (map (fun p => Cmul (kept_coefficient term_mat p) (pauli_entry p r c))
                (product IXYZ n)).
Proof.
  intros Hn Hw. rewrite collect_terms_kept.
  set (kept := kept_terms false wire_order term_mat (product IXYZ n)).
  destruct (collect_term_operators (map snd kept)) as [ops [H1 H2]].
  { apply List.Forall_map. apply kept_terms_nonempty. }
  set (ms := map (fun o => kron_all (map pauli_matrix (map fst o))) (map snd kept)) in H2.
  exists (Hamiltonian None (map fst kept) ops).
  exists (fold_left madd (zip_with mscale (map fst kept) ms) (zeros (2 ^ n) (2 ^ n))).
  destruct (fold_madd (zip_with mscale (map fst kept) ms) (zeros (2 ^ n) (2 ^ n))
              (2 ^ n) (2 ^ n) eq_refl) as [Hshape Hitem].
  split; [| split; [| split; [exact Hshape |]]].
  - unfold package. cbn [fst snd].
    change (map (fun obs_term => reduce matmul
                   (map (fun ow => Ok (op_map (fst ow) (snd ow))) obs_term)) (map snd kept))
      with (map term_operator (map snd kept)).
    rewrite H1, bind_Ok. reflexivity.
  - unfold reexpand. rewrite H2. reflexivity.
  - intros r c Hr Hc. rewrite (Hitem r c Hr Hc), item_zeros by assumption.
    rewrite Cadd_0_l. unfold ms. rewrite map_map, zip_with_maps, map_map.
    unfold kept, kept_terms. rewrite Csum_flat_map.
    apply Csum_map_ext. intros p Hp. cbn zeta.
    pose proof (product_length _ _ _ Hp) as Hlen.
    unfold kept_coefficient.
    destruct (allclose0 (coefficient_of term_mat p)); cbn [negb map].
    + rewrite Csum_nil. Cring.
    + pose proof (observables_of_nonempty wire_order p ltac:(lia) ltac:(lia)) as Hne.
      pose proof (observables_of_labels wire_order p ltac:(lia)) as Hlab.
      destruct (observables_of false wire_order p) as [|o os]; [contradiction|].
      cbn [map fst snd]. rewrite Csum_cons, Csum_nil. cbn [map fst] in Hlab.
      change (pauli_matrix (fst o) :: map pauli_matrix (map fst os))
        with (map pauli_matrix (fst o :: map fst os)).
      rewrite Hlab.
      rewrite item_mscale by (rewrite shape_kron_all_pauli, Hlen; assumption).
      unfold pauli_entry. Cring.
Qed.

Lemma lxor_cancel (r c : nat) : Nat.lxor (Nat.lxor r c) r = c.
Proof.
  rewrite (Nat.lxor_comm r c), Nat.lxor_assoc, Nat.lxor_nilpotent, Nat.lxor_0_r. reflexivity.
Qed.

(** With every coefficient kept, the re-expansion is the matrix. *)
Lemma coefficients_reexpand (n : nat) (matrix : ndarray) (r c : nat) :
  shape matrix = (2 ^ n, 2 ^ n) -> r < 2 ^ n -> c < 2 ^ n ->
  Csum (map (fun p => Cmul (coefficient_of (final_term_mat matrix n) p) (pauli_entry p r c))
            (product IXYZ n)) =
  item matrix r c.
Proof.
  intros Hs Hr Hc.
  rewrite (Csum_map_ext _
             (fun p => Cdivn (Cmul (passes (bit_order n)
                                      (fun k j => item matrix k (Nat.lxor j k)) (zrow p) (xcol p))
                                   (pauli_entry p r c)) (2 ^ n))).
  2:{ intros p Hp. pose proof (product_length _ _ _ Hp) as Hlen.
      unfold coefficient_of. fold (zrow p) (xcol p).
      rewrite item_final_term_mat by (first [exact Hs | apply zrow_lt, Hlen | apply xcol_lt, Hlen]).
      apply Cmul_Cdivn. }
  rewrite Csum_map_Cdivn, (reexpansion_identity n _ r c Hr Hc), Cdivn_Cnat_mul.
  cbv beta. rewrite lxor_cancel. reflexivity.
Qed.

Lemma coefficient_split (term_mat : ndarray) (p : list label) :
  coefficient_of term_mat p = Cadd (kept_coefficient term_mat p) (dropped_coefficient term_mat p).
Proof.
  unfold kept_coefficient, dropped_coefficient.
  destruct (allclose0 (coefficient_of term_mat p)); Cring.
Qed.

Lemma Qc_le_bool_true (a b : Qc) : Qc_le_bool a b = true -> (a <= b)%Qc.
Proof. unfold Qc_le_bool, Qcle. apply Qle_bool_imp_le. Qed.

Lemma atol_nonneg : (0 <= atol)%Qc.
Proof. apply Qc_le_bool_true. reflexivity. Qed.

Lemma dropped_coefficient_small (term_mat : ndarray) (p : list label) :
  (Cnorm2 (dropped_coefficient term_mat p) <= atol * atol)%Qc.
Proof.
  unfold dropped_coefficient.
  destruct (allclose0 (coefficient_of term_mat p)) eqn:E.
  - apply Qc_le_bool_true. exact E.
  - rewrite Cnorm2_C0. apply Qc_sq_nonneg.
Qed.

(** The re-expansion of the decomposition of a matrix on at least one
    qubit, plus the re-expansion of the dropped coefficients, is the
    matrix. *)
Lemma decompose_reexpand_split (n : nat) (matrix : ndarray) (wire_order : option (list wire)) :
  dtype matrix = complex128 ->
  1 <= n ->
  shape matrix = (2 ^ n, 2 ^ n) ->
  wires_fit wire_order n ->
  exists H R,
    pauli_decompose matrix false wire_order false false = Ok (inr H) /\
    reexpand n H = Some R /\
    shape R = (2 ^ n, 2 ^ n) /\
    forall r c, r < 2 ^ n -> c < 2 ^ n ->
      Cadd (item R r c)
           (Csum (map (fun p => Cmul (dropped_coefficient (final_term_mat matrix n) p)
                                     (pauli_entry p r c))
                      (product IXYZ n))) =
      item matrix r c.
Proof.
  intros Ht Hn Hs Hw.
  rewrite (pauli_decompose_unpadded matrix n false wire_order false Ht Hs Hw).
  assert (Hlen : length (default_wires wire_order n) = n).
  { destruct wire_order as [ws|]; cbn in *; [exact Hw | rewrite length_map, length_seq; reflexivity]. }
  destruct (reexpand_kept n (default_wires wire_order n) (final_term_mat matrix n) Hn Hlen)
    as [H [R [H1 [H2 [H3 H4]]]]].
  exists H, R. split; [exact H1 | split; [exact H2 | split; [exact H3 |]]].
  intros r c Hr Hc. rewrite (H4 r c Hr Hc).
  rewrite <- (coefficients_reexpand n matrix r c Hs Hr Hc).
  set (T := final_term_mat matrix n).
  rewrite <- Csum_map_add. apply Csum_map_ext. intros p _.
  rewrite (coefficient_split T p) at 1. Cring.
Qed.

Lemma Csum_all_C0 {A : Type} (f : A -> C) (l : list A) :
  (forall x, In x l -> f x = C0) -> Csum (map f l) = C0.
Proof.
  intros H. induction l as [|x l IH]; [reflexivity|].
  cbn [map]. rewrite Csum_cons, H by (left; reflexivity).
  rewrite IH by (intros y Hy; apply H; right; exact Hy). Cring.
Qed.

(** Hence the re-expansion differs from the matrix by at most
    [2^n * atol] in modulus at every entry, and not at all when no
    non-zero coefficient is dropped. *)
Lemma decompose_reexpand_close (n : nat) (matrix : ndarray) (wire_order : option (list wire)) :
  dtype matrix = complex128 ->
  1 <= n ->
  shape matrix = (2 ^ n, 2 ^ n) ->
  wires_fit wire_order n ->
  exists H R,
    pauli_decompose matrix false wire_order false false = Ok (inr H) /\
    reexpand n H = Some R /\
    shape R = (2 ^ n, 2 ^ n) /\
    (forall r c, r < 2 ^ n -> c < 2 ^ n ->
       Cclose (Qc_of_nat (2 ^ n) * atol) (item R r c) (item matrix r c)) /\
    ((forall p, In p (product IXYZ n) ->
                dropped_coefficient (final_term_mat matrix n) p = C0) ->
     forall r c, r < 2 ^ n -> c < 2 ^ n -> item R r c = item matrix r c).
Proof.
  intros Ht Hn Hs Hw.
  destruct (decompose_reexpand_split n matrix wire_order Ht Hn Hs Hw)
    as [H [R [H1 [H2 [H3 H4]]]]].
  exists H, R. split; [exact H1 | split; [exact H2 | split; [exact H3 | split]]].
  - intros r c Hr Hc. unfold Cclose. rewrite <- (H4 r c Hr Hc).
    match goal with
    | |- (Cnorm2 (Csub ?a (Cadd ?a ?d)) <= _)%Qc =>
        replace (Csub a (Cadd a d)) with (Copp d) by Cring
    end.
    rewrite Cnorm2_opp.
    apply small_coefficients_bound;
      [apply atol_nonneg | apply dropped_coefficient_small | exact Hr | exact Hc].
  - intros Hd r c Hr Hc. rewrite <- (H4 r c Hr Hc).
    rewrite Csum_all_C0; [Cring|].
    intros p Hp. rewrite (Hd p Hp). Cring.
Qed.

(** ** The round trip of [pauli_decompose] *)

Lemma Cclose_bool_false (eps : Qc) (a b : C) : Cclose_bool eps a b = false -> ~ Cclose eps a b.
Proof.
  unfold Cclose_bool, Cclose, Qc_le_bool, Qcle. intros Hb Hc.
  apply Qle_bool_iff in Hc. congruence.
Qed.

(** C1 (amended): for every matrix of size [2^n x 2^n] with [n >= 1] held
    in a [complex128] array, Hermitian or not, and in exact arithmetic (the
    rounding of binary64 is not modelled), [pauli_decompose] succeeds and
    the sum over its terms of the coefficient times the Kronecker product
    of the Pauli factors differs from the matrix by at most [2^n * 1e-8]
    in modulus at every entry; it is the matrix itself when no non-zero
    coefficient falls under the tolerance of the term filter. *)
Theorem pauli_decompose_roundtrip (n : nat) (matrix : ndarray) (wire_order : option (list wire)) :
  dtype matrix = complex128 ->
  1 <= n ->
  shape matrix = (2 ^ n, 2 ^ n) ->
  wires_fit wire_order n ->
  exists H R,
    pauli_decompose matrix false wire_order false false = Ok (inr H) /\
    reexpand n H = Some R /\
    shape R = (2 ^ n, 2 ^ n) /\
    (forall r c, r < 2 ^ n -> c < 2 ^ n ->
       Cclose (Qc_of_nat (2 ^ n) * atol) (item R r c) (item matrix r c)) /\
    ((forall p, In p (product IXYZ n) ->
                dropped_coefficient (final_term_mat matrix n) p = C0) ->
     forall r c, r < 2 ^ n -> c < 2 ^ n -> item R r c = item matrix r c).
Proof.
  intros Ht Hn Hs Hw. exact (decompose_reexpand_close n matrix wire_order Ht Hn Hs Hw).
Qed.

Lemma pauli_decompose_roundtrip_witness :
  let matrix := pauli_matrix Label.Y in
  exists H R,
    pauli_decompose matrix false None false false = Ok (inr H) /\
    reexpand 1 H = Some R /\
    shape R = (2 ^ 1, 2 ^ 1) /\
    (forall r c, r < 2 ^ 1 -> c < 2 ^ 1 ->
       Cclose (Qc_of_nat (2 ^ 1) * atol) (item R r c) (item matrix r c)) /\
    ((forall p, In p (product IXYZ 1) ->
                dropped_coefficient (final_term_mat matrix 1) p = C0) ->
     forall r c, r < 2 ^ 1 -> c < 2 ^ 1 -> item R r c = item matrix r c).
Proof.
  exact (pauli_decompose_roundtrip 1 (pauli_matrix Label.Y) None eq_refl (le_n 1) eq_refl
           Logic.I).
Defined.

(** C1 as stated fails for three Hermitian matrices.  The 1x1 matrix [[1]]
    decomposes into no term and re-expands to 0.  The 16x16 matrix whose
    only non-zero entry is 1.44e-7 has sixteen non-zero coefficients, all
    equal to 0.9e-8: the term filter drops them all, and the re-expansion,
    0, is further than ten times 1e-8 from the matrix.  The 4x4 identity
    held in a [float64] array is not decomposed at all: the in-place
    product by [1j] raises. *)
Lemma pauli_decompose_roundtrip_counterexample :
  (let matrix := {| dtype := complex128; shape := (1, 1); data := [[C1]] |} in
   is_hermitian matrix = true /\
   pauli_decompose matrix false None false false = Ok (inr (Hamiltonian None [] [])) /\
   exists R, reexpand 0 (Hamiltonian None [] []) = Some R /\
             ~ Cclose atol (item R 0 0) (item matrix 0 0)) /\
  (let matrix := corner_matrix 16 sixteen_small in
   is_hermitian matrix = true /\
   pauli_decompose matrix false None false false = Ok (inr (Hamiltonian None [] [])) /\
   exists R, reexpand 4 (Hamiltonian None [] []) = Some R /\
             ~ Cclose (Qc_of_nat 10 * atol) (item R 0 0) (item matrix 0 0)) /\
  (let matrix := tabulate_as float64 4 4 (fun r c => if Nat.eqb r c then C1 else C0) in
   is_hermitian matrix = true /\
   pauli_decompose matrix false None false false = Raise UFuncTypeError).
Proof.
  split; [|split]; cbv zeta.
  - split; [exact eq_refl | split; [exact eq_refl |]].
    eexists. split; [exact eq_refl|]. apply Cclose_bool_false. exact eq_refl.
  - split; [exact eq_refl | split; [exact eq_refl |]].
    eexists. split; [exact eq_refl|]. apply Cclose_bool_false. exact eq_refl.
  - split; exact eq_refl.
Qed.

(** The example of the docstring: the ten terms of the decomposition of [A],
    in the order of [itertools.product], with their coefficients. *)
Example pauli_decompose_docstring :
  summary (pauli_decompose docstring_matrix false None false false) =
  Some [((-1)%Q, 0%Q, [Some Label.I; Some Label.I]);
        ((-3 # 2)%Q, 0%Q, [Some Label.I; Some Label.X]);
        ((-1 # 2)%Q, 0%Q, [Some Label.I; Some Label.Y]);
        ((-1)%Q, 0%Q, [Some Label.I; Some Label.Z]);
        ((-3 # 2)%Q, 0%Q, [Some Label.X; Some Label.I]);
        ((-1)%Q, 0%Q, [Some Label.X; Some Label.X]);
        ((-1 # 2)%Q, 0%Q, [Some Label.X; Some Label.Z]);
        (1%Q, 0%Q, [Some Label.Y; Some Label.Y]);
        ((-1 # 2)%Q, 0%Q, [Some Label.Z; Some Label.X]);
        ((-1 # 2)%Q, 0%Q, [Some Label.Z; Some Label.Y])].
Proof. exact eq_refl. Qed.

(** ** Padding *)

Lemma nth_zero_rows (k m w c : nat) : nth c (nth k (repeat (repeat C0 w) m) []) C0 = C0.
Proof.
  destruct (Nat.lt_ge_cases k m) as [Hk|Hk].
  - rewrite (nth_indep _ [] (repeat C0 w)) by (rewrite repeat_length; exact Hk).
    rewrite nth_repeat.
    destruct (Nat.lt_ge_cases c w) as [Hc|Hc].
    + rewrite nth_repeat. reflexivity.
    + apply nth_overflow. rewrite repeat_length. exact Hc.
  - rewrite (nth_overflow (repeat _ _)) by (rewrite repeat_length; exact Hk).
    destruct c; reflexivity.
Qed.

(** The entries of a padded matrix: those of the matrix inside its shape,
    zero elsewhere. *)
Lemma item_pad (matrix : ndarray) (after0 after1 r c : nat) :
  well_shaped matrix ->
  item (pad matrix after0 after1) r c =
  if Nat.ltb r (fst (shape matrix)) && Nat.ltb c (snd (shape matrix))
  then item matrix r c else C0.
Proof.
  intros [Hl Hrows]. unfold item, pad. cbn [data].
  destruct (Nat.ltb_spec r (fst (shape matrix))) as [Hr|Hr]; cbn [andb].
  - rewrite app_nth1 by (rewrite length_map; lia).
    rewrite (nth_indep _ [] ([] ++ repeat C0 after1)) by (rewrite length_map; lia).
    rewrite (map_nth (fun row => row ++ repeat C0 after1)).
    assert (Hrow : length (nth r (data matrix) []) = snd (shape matrix)).
    { rewrite List.Forall_forall in Hrows. apply Hrows, nth_In. lia. }
    destruct (Nat.ltb_spec c (snd (shape matrix))) as [Hc|Hc].
    + rewrite app_nth1 by lia. reflexivity.
    + rewrite app_nth2 by lia.
      destruct (Nat.lt_ge_cases (c - length (nth r (data matrix) [])) after1) as [H|H].
      * rewrite nth_repeat. reflexivity.
      * apply nth_overflow. rewrite repeat_length. exact H.
  - rewrite app_nth2 by (rewrite length_map; lia). apply nth_zero_rows.
Qed.

Lemma not_power_of_two_ge_3 (s : nat) : 1 <= s -> ~ is_power_of_two s -> 3 <= s.
Proof.
  intros Hs Hn.
  destruct s as [|[|[|s]]]; [lia | | | lia].
  - exfalso. apply Hn. exists 0. reflexivity.
  - exfalso. apply Hn. exists 1. reflexivity.
Qed.

(** The padding branch on a square matrix whose side is not a power of
    two: zeros are appended on both axes up to the next power of two. *)
Lemma pad_to_power_of_two_square (matrix : ndarray) (s : nat) :
  shape matrix = (s, s) -> 1 <= s -> ~ is_power_of_two s ->
  let n := Nat.log2_up s in
  1 <= n /\ s < 2 ^ n /\
  pad_to_power_of_two matrix = Ok (pad matrix (2 ^ n - s) (2 ^ n - s)) /\
  shape (pad matrix (2 ^ n - s) (2 ^ n - s)) = (2 ^ n, 2 ^ n).
Proof.
  intros Hs Hpos Hnp n.
  pose proof (not_power_of_two_ge_3 s Hpos Hnp) as H3.
  destruct (Nat.log2_up_spec s ltac:(lia)) as [_ Hup]. fold n in Hup.
  assert (Hne : s <> 2 ^ n) by (intros E; apply Hnp; exists n; exact E).
  assert (Hn : 1 <= n).
  { destruct n as [|n']; [cbn in Hup; lia | lia]. }
  split; [exact Hn | split; [lia | split]].
  - unfold pad_to_power_of_two. rewrite Hs. cbn [fst snd]. rewrite Nat.max_id.
    unfold int_ceil_log2. destruct (Nat.eqb_spec s 0) as [E|_]; [lia|].
    rewrite bind_Ok. fold n. rewrite Nat.eqb_refl. cbn [negb orb].
    destruct (Nat.eqb_spec s (2 ^ n)) as [E|_]; [contradiction|]. cbn [negb].
    unfold abs_diff. replace (s - 2 ^ n) with 0 by lia. reflexivity.
  - unfold pad. rewrite Hs. cbn [shape fst snd]. f_equal; lia.
Qed.

(** C6 (amended): for a non-empty square matrix whose side is not a power
    of two, [pauli_decompose(M, padding=True)] pads the matrix with zeros
    on both axes up to the next power of two, keeping its dtype, and
    returns what it returns on the padded matrix.  When the matrix is held
    in a [complex128] array, and in exact arithmetic (the rounding of
    binary64 is not modelled), the call succeeds and re-expanding the
    decomposition gives a matrix of the padded shape that differs from the
    padded matrix by at most [2^n * 1e-8] in modulus at every entry, and
    not at all when no non-zero coefficient falls under the tolerance of
    the term filter. *)
Theorem pauli_decompose_padding (matrix : ndarray) (s : nat) :
  well_shaped matrix ->
  shape matrix = (s, s) ->
  1 <= s ->
  ~ is_power_of_two s ->
  let n := Nat.log2_up s in
  let padded := pad matrix (2 ^ n - s) (2 ^ n - s) in
  s < 2 ^ n /\
  shape padded = (2 ^ n, 2 ^ n) /\
  dtype padded = dtype matrix /\
  (forall r c, item padded r c = if Nat.ltb r s && Nat.ltb c s then item matrix r c else C0) /\
  (forall hide_identity wire_order pauli,
     pauli_decompose matrix hide_identity wire_order pauli true =
     pauli_decompose padded hide_identity wire_order pauli false) /\
  (forall wire_order, dtype matrix = complex128 -> wires_fit wire_order n ->
     exists H R,
       pauli_decompose matrix false wire_order false true = Ok (inr H) /\
       reexpand n H = Some R /\
       shape R = (2 ^ n, 2 ^ n) /\
       shape R <> shape matrix /\
       (forall r c, r < 2 ^ n -> c < 2 ^ n ->
          Cclose (Qc_of_nat (2 ^ n) * atol) (item R r c) (item padded r c)) /\
       ((forall p, In p (product IXYZ n) ->
                   dropped_coefficient (final_term_mat padded n) p = C0) ->
        forall r c, r < 2 ^ n -> c < 2 ^ n -> item R r c = item padded r c)).
Proof.
  intros Hw Hs Hpos Hnp n padded.
  destruct (pad_to_power_of_two_square matrix s Hs Hpos Hnp) as [Hn [Hlt [Hpad Hshape]]].
  fold n in Hn, Hlt, Hpad, Hshape. fold padded in Hpad, Hshape.
  assert (Hdec : forall hide_identity wire_order pauli,
             pauli_decompose matrix hide_identity wire_order pauli true =
             pauli_decompose padded hide_identity wire_order pauli false).
  { intros h wo p. rewrite pauli_decompose_padded, Hpad, bind_Ok. reflexivity. }
  split; [exact Hlt | split; [exact Hshape | split; [reflexivity | split; [| split; [exact Hdec |]]]]].
  - intros r c. unfold padded. rewrite item_pad by exact Hw. rewrite Hs. reflexivity.
  - intros wo Ht Hwo.
    destruct (decompose_reexpand_close n padded wo Ht Hn Hshape Hwo)
      as [H [R [H1 [H2 [H3 [H4 H5]]]]]].
    exists H, R. rewrite Hdec.
    split; [exact H1 | split; [exact H2 | split; [exact H3 | split; [| split; assumption]]]].
    rewrite H3, Hs. intros E. injection E as E _. lia.
Qed.

Lemma pauli_decompose_padding_witness :
  let matrix := corner_matrix 3 C1 in
  let n := Nat.log2_up 3 in
  let padded := pad matrix (2 ^ n - 3) (2 ^ n - 3) in
  3 < 2 ^ n /\
  shape padded = (2 ^ n, 2 ^ n) /\
  dtype padded = dtype matrix /\
  (forall r c, item padded r c = if Nat.ltb r 3 && Nat.ltb c 3 then item matrix r c else C0) /\
  (forall hide_identity wire_order pauli,
     pauli_decompose matrix hide_identity wire_order pauli true =
     pauli_decompose padded hide_identity wire_order pauli false) /\
  (forall wire_order, dtype matrix = complex128 -> wires_fit wire_order n ->
     exists H R,
       pauli_decompose matrix false wire_order false true = Ok (inr H) /\
       reexpand n H = Some R /\
       shape R = (2 ^ n, 2 ^ n) /\
       shape R <> shape matrix /\
       (forall r c, r < 2 ^ n -> c < 2 ^ n ->
          Cclose (Qc_of_nat (2 ^ n) * atol) (item R r c) (item padded r c)) /\
       ((forall p, In p (product IXYZ n) ->
                   dropped_coefficient (final_term_mat padded n) p = C0) ->
        forall r c, r < 2 ^ n -> c < 2 ^ n -> item R r c = item padded r c)).
Proof.
  refine (pauli_decompose_padding (corner_matrix 3 C1) 3 (well_shaped_tabulate _ _ _)
            eq_refl (le_S _ _ (le_S _ _ (le_n 1))) _).
  intros [k Hk]. destruct k as [|[|k]]; [discriminate Hk | discriminate Hk |].
  rewrite !Nat.pow_succ_r' in Hk.
  assert (1 <= 2 ^ k) by (assert (2 ^ k <> 0) by (apply Nat.pow_nonzero; discriminate); lia).
  lia.
Defined.

(** C6 as stated fails: the 3x3 Hermitian matrix whose only non-zero entry
    is 3.6e-8 is padded to 4x4; the four non-zero coefficients of the
    padded matrix equal 0.9e-8 and are dropped, so that the re-expansion is
    the zero matrix and not the padded matrix.  And the 3x3 identity held
    in a [float64] array is padded to a 4x4 [float64] array, on which the
    in-place product by [1j] raises: nothing is decomposed. *)
Lemma pauli_decompose_padding_counterexample :
  (let matrix := corner_matrix 3 four_small in
   let padded := pad matrix 1 1 in
   is_hermitian matrix = true /\
   ~ is_power_of_two 3 /\
   pauli_decompose matrix false None false true = Ok (inr (Hamiltonian None [] [])) /\
   exists R, reexpand 2 (Hamiltonian None [] []) = Some R /\
             item R 0 0 = C0 /\ item padded 0 0 = four_small /\
             item R 0 0 <> item padded 0 0 /\
             ~ Cclose atol (item R 0 0) (item padded 0 0)) /\
  (let matrix := tabulate_as float64 3 3 (fun r c => if Nat.eqb r c then C1 else C0) in
   pad_to_power_of_two matrix = Ok (pad matrix 1 1) /\
   dtype (pad matrix 1 1) = float64 /\
   pauli_decompose matrix false None false true = Raise UFuncTypeError).
Proof.
  split; cbv zeta.
  - split; [exact eq_refl | split; [| split; [exact eq_refl |]]].
    + intros [k Hk]. destruct k as [|[|k]]; [discriminate Hk | discriminate Hk |].
      rewrite !Nat.pow_succ_r' in Hk.
      assert (1 <= 2 ^ k) by (assert (2 ^ k <> 0) by (apply Nat.pow_nonzero; discriminate); lia).
      lia.
    + eexists. split; [exact eq_refl | split; [exact eq_refl | split; [exact eq_refl | split]]].
      * discriminate.
      * apply Cclose_bool_false. exact eq_refl.
  - split; [exact eq_refl | split; exact eq_refl].
Qed.

(** The dimension checks without padding, for a non-empty matrix. *)
Lemma pauli_decompose_dimension_errors (matrix : ndarray) (hide_identity : bool)
  (wire_order : option (list wire)) (pauli : bool) :
  (fst (shape matrix) <> snd (shape matrix) ->
   pauli_decompose matrix hide_identity wire_order pauli false =
   Raise (ValueError (ShouldBeSquare (shape matrix)))) /\
  (fst (shape matrix) = snd (shape matrix) ->
   1 <= fst (shape matrix) ->
   ~ is_power_of_two (fst (shape matrix)) ->
   pauli_decompose matrix hide_identity wire_order pauli false =
   Raise (ValueError (ShouldBePowerOfTwo (shape matrix)))).
Proof.
  split.
  - apply pauli_decompose_not_square.
  - apply pauli_decompose_not_power_of_two.
Qed.

(** * Further properties *)

(** ** More on the dispatch and the strategies of [measure] *)

Lemma state_hamiltonian_expval_value (env : collaborators) (mp : MeasurementProcess)
  (st : tensor) (o : Operator) (H : ndarray) :
  obs mp = Some o ->
  sparse_matrix env o (seq 0 (length (tshape st))) = Ok H ->
  shape H = (length (tdata st), length (tdata st)) ->
  state_hamiltonian_expval env mp st =
  Ok {| tshape := []; tdata := [Creal (contraction H (tdata st))] |}.
Proof.
  intros Ho Hs Hshape.
  unfold state_hamiltonian_expval. rewrite Ho, bind_Ok, Hs, bind_Ok.
  rewrite dot_Ok by (rewrite Hshape; reflexivity).
  rewrite bind_Ok, dot_Ok by (cbn; rewrite length_map, Hshape; reflexivity).
  rewrite bind_Ok, Hshape.
  cbn [shape row_matrix column_matrix tabulate tabulate_as fst snd data map seq nth].
  unfold real_squeeze. cbn [length Nat.eqb map].
  do 3 f_equal. unfold contraction. rewrite ?length_map. f_equal.
  apply Csum_ext_seq. intros k Hk.
  rewrite item_row_matrix.
  rewrite <- Cconj_C0 at 1. rewrite (map_nth Cconj). f_equal.
  rewrite item_tabulate by (first [exact Hk | lia]).
  apply Csum_ext_seq. intros j Hj. rewrite item_column_matrix. reflexivity.
Qed.

(** X1: the expectation value of an observable named [Hamiltonian] or
    [SparseHamiltonian], measured through [measure], is the real scalar
    [real(conj(state) . H . state)], [H] being the sparse matrix of the
    observable in the basis of the state: the diagonalizing gates and the
    reduction of the measurement process are not used. *)
Theorem measure_hamiltonian_expval (env : collaborators) (mp : MeasurementProcess)
  (st : tensor) (o : Operator) (H : ndarray) :
  mp_class mp = ExpectationMP ->
  obs mp = Some o ->
  name o = inl "Hamiltonian"%string \/ name o = inl "SparseHamiltonian"%string ->
  sparse_matrix env o (seq 0 (length (tshape st))) = Ok H ->
  shape H = (length (tdata st), length (tdata st)) ->
  measure env mp st = Ok {| tshape := []; tdata := [Creal (contraction H (tdata st))] |}.
Proof.
  intros Hc Ho Hname Hs Hshape.
  rewrite measure_unfold, get_measurement_function_state.
  - assert (Hh : is_hamiltonian_expval mp = true).
    { unfold is_hamiltonian_expval, isinstance_ExpectationMP. rewrite Hc, Ho.
      destruct Hname as [-> | ->]; reflexivity. }
    rewrite Hh. apply (state_hamiltonian_expval_value env mp st o H); assumption.
  - unfold isinstance_StateMeasurement. rewrite Hc. reflexivity.
  - intros _. rewrite Ho. discriminate.
Qed.

Lemma measure_hamiltonian_expval_witness :
  let o := Other None "SparseHamiltonian" [inl 0%Z] in
  let mp := {| mp_class := ExpectationMP; obs := Some o; mp_wires := [] |} in
  let st := {| tshape := [2]; tdata := [C0; C1] |} in
  measure pauli_z_env mp st =
  Ok {| tshape := []; tdata := [Creal (contraction (pauli_matrix Label.Z) (tdata st))] |}.
Proof.
  intros o mp st.
  exact (measure_hamiltonian_expval pauli_z_env mp st o (pauli_matrix Label.Z)
           eq_refl eq_refl (or_intror eq_refl) eq_refl eq_refl).
Defined.

(** X2: a state measurement that is not an expectation value (a variance,
    a probability, a state) is evaluated by the diagonalizing-gate
    strategy whatever its observable is: a Hamiltonian does not select the
    sparse strategy, and a missing observable is not an error, because the
    name of the observable is only read for expectation values. *)
Theorem measure_other_state_measurement (env : collaborators) (mp : MeasurementProcess)
  (st : tensor) :
  isinstance_StateMeasurement mp = true ->
  isinstance_ExpectationMP mp = false ->
  get_measurement_function env mp = Ok (state_diagonalizing_gates env) /\
  measure env mp st = state_diagonalizing_gates env mp st.
Proof.
  intros Hst He.
  assert (Hg : get_measurement_function env mp = Ok (state_diagonalizing_gates env)).
  { unfold get_measurement_function. rewrite Hst, He. reflexivity. }
  split; [exact Hg|]. rewrite measure_unfold, Hg. reflexivity.
Qed.

Lemma measure_other_state_measurement_witness :
  let mp_var := {| mp_class := VarianceMP;
                   obs := Some (Hamiltonian None [C1] [PauliZ None (inl 0%Z)]);
                   mp_wires := [] |} in
  let mp_state := {| mp_class := StateMP; obs := None; mp_wires := [inl 0%Z] |} in
  let st := {| tshape := [2]; tdata := [C1; C0] |} in
  measure pauli_z_env mp_var st = state_diagonalizing_gates pauli_z_env mp_var st /\
  measure pauli_z_env mp_state st = state_diagonalizing_gates pauli_z_env mp_state st.
Proof.
  intros mp_var mp_state st. split.
  - exact (proj2 (measure_other_state_measurement pauli_z_env mp_var st eq_refl eq_refl)).
  - exact (proj2 (measure_other_state_measurement pauli_z_env mp_state st eq_refl eq_refl)).
Defined.

(** ** More on [_pauli_sentence] *)

(** X3: a scalar product [s * (t * base)] converts to the sentence of
    [base] with every coefficient [c] replaced by [(c * t) * s], the words
    unchanged, and fails as [base] fails; this holds whatever the
    arithmetic.  In exact arithmetic, where the product is associative,
    this is also the conversion of the scalar product [(t * s) * base]; in
    binary64 the two agree up to rounding only. *)
Theorem SProd_of_SProd (rep1 rep2 rep3 : option (gmap (gmap wire label) C)) (s t : C)
  (base : Operator) :
  _pauli_sentence (SProd rep1 s (SProd rep2 t base)) =
    (ps ← _pauli_sentence base;
     Ok (update_values (fun c => Cmul (Cmul c t) s) ps)) /\
  _pauli_sentence (SProd rep1 s (SProd rep2 t base)) =
    _pauli_sentence (SProd rep3 (Cmul t s) base).
Proof.
  rewrite !_pauli_sentence_SProd.
  destruct (_pauli_sentence base) as [ps|e]; [|split; reflexivity].
  rewrite !bind_Ok. unfold update_values. rewrite <- map_fmap_compose. split.
  - reflexivity.
  - f_equal. apply map_fmap_ext. intros w c _. cbn. Cring.
Qed.

Lemma reduce_singleton {A : Type} (f : A -> A -> A) (x : A) : reduce f [Ok x] = Ok x.
Proof. reflexivity. Qed.

(** X4: a weighted sum with the single term [c * term], [term] a Pauli
    word, converts like the scalar product [SProd(c, term)]: the two paths
    scale the sentence of the term in the same way. *)
Theorem Hamiltonian_single_term (rep1 rep2 : option (gmap (gmap wire label) C)) (c : C)
  (term : Operator) :
  is_pauli_word term = true ->
  _pauli_sentence (Hamiltonian rep1 [c] [term]) = _pauli_sentence (SProd rep2 c term).
Proof.
  intros Hw. rewrite _pauli_sentence_Hamiltonian, _pauli_sentence_SProd.
  cbn [forallb]. rewrite Hw. cbn [andb negb scaled_summands].
  destruct (_pauli_sentence term) as [ps|e]; [|reflexivity].
  rewrite !bind_Ok. cbn [length Nat.ltb Nat.leb map]. rewrite reduce_singleton.
  f_equal. unfold update_values. apply map_fmap_ext. intros w x _. Cring.
Qed.

Lemma Hamiltonian_single_term_witness :
  let term := Tensor None [PauliX None (inl 0%Z); PauliZ None (inl 1%Z)] in
  _pauli_sentence (Hamiltonian None [Cint 2] [term]) = _pauli_sentence (SProd None (Cint 2) term).
Proof.
  intros term. exact (Hamiltonian_single_term None None (Cint 2) term eq_refl).
Defined.

Lemma scaled_summands_no_pair (conv : Operator -> result exception (gmap (gmap wire label) C))
  (cs : list C) (os : list Operator) :
  cs = [] \/ os = [] -> scaled_summands conv cs os = Ok [].
Proof.
  intros [-> | ->]; [destruct os | destruct cs]; reflexivity.
Qed.

(** X5: a weighted sum with no (coefficient, term) pair converts to the
    empty sentence, whereas a tensor, a product and a sum without operand
    make [reduce] fail with a [TypeError]. *)
Theorem conversion_of_empty_composites (rep : option (gmap (gmap wire label) C))
  (coeffs : list C) (ops : list Operator) :
  coeffs = [] \/ ops = [] ->
  forallb is_pauli_word ops = true ->
  _pauli_sentence (Hamiltonian rep coeffs ops) = Ok ∅ /\
  _pauli_sentence (Tensor rep []) = Raise TypeError /\
  _pauli_sentence (Prod rep []) = Raise TypeError /\
  _pauli_sentence (Sum rep []) = Raise TypeError.
Proof.
  intros Hempty Hw. split; [| repeat split].
  rewrite _pauli_sentence_Hamiltonian, Hw. cbn [negb].
  rewrite (scaled_summands_no_pair _ _ _ Hempty). reflexivity.
Qed.

Lemma conversion_of_empty_composites_witness :
  _pauli_sentence (Hamiltonian None [] [PauliX None (inl 0%Z)]) = Ok ∅ /\
  _pauli_sentence (Tensor None []) = Raise TypeError /\
  _pauli_sentence (Prod None []) = Raise TypeError /\
  _pauli_sentence (Sum None []) = Raise TypeError.
Proof.
  exact (conversion_of_empty_composites None [] [PauliX None (inl 0%Z)] (or_introl eq_refl) eq_refl).
Defined.

Lemma reduce_from_first_raise {A : Type} (f : A -> A -> A) (pre : list A)
  (post : list (result exception A)) (acc : A) (e : exception) :
  reduce_from f acc (map Ok pre ++ Raise e :: post) = Raise e.
Proof.
  revert acc. induction pre as [|x pre IH]; intros acc; cbn; [reflexivity | apply IH].
Qed.

Lemma reduce_first_raise {A : Type} (f : A -> A -> A) (pre : list A)
  (post : list (result exception A)) (e : exception) :
  reduce f (map Ok pre ++ Raise e :: post) = Raise e.
Proof.
  destruct pre as [|x pre]; cbn; [reflexivity | apply reduce_from_first_raise].
Qed.

Lemma map_conv_split (conv : Operator -> result exception (gmap (gmap wire label) C))
  (pre : list Operator) (x : Operator) (post : list Operator) (e : exception) :
  List.Forall (fun o => exists ps, conv o = Ok ps) pre ->
  conv x = Raise e ->
  exists pss, map conv (pre ++ x :: post) = map Ok pss ++ Raise e :: map conv post.
Proof.
  intros Hpre Hx. induction Hpre as [|o pre [ps Ho] _ [pss IH]].
  - exists []. cbn. rewrite Hx. reflexivity.
  - exists (ps :: pss). cbn [app map]. rewrite Ho. f_equal. exact IH.
Qed.

(** X6: a product and a sum raise the error of their first operand that
    does not convert; the operands after it play no role. *)
Theorem first_failing_operand_decides (rep : option (gmap (gmap wire label) C))
  (pre : list Operator) (x : Operator) (post : list Operator) (e : exception) :
  List.Forall (fun o => exists ps, _pauli_sentence o = Ok ps) pre ->
  _pauli_sentence x = Raise e ->
  _pauli_sentence (Prod rep (pre ++ x :: post)) = Raise e /\
  _pauli_sentence (Sum rep (pre ++ x :: post)) = Raise e.
Proof.
  intros Hpre Hx.
  destruct (map_conv_split _pauli_sentence pre x post e Hpre Hx) as [pss Hsplit].
  rewrite _pauli_sentence_Prod, _pauli_sentence_Sum, Hsplit.
  split; apply reduce_first_raise.
Qed.

Lemma first_failing_operand_decides_witness :
  let rx := Other None "RX" [inl 1%Z] in
  let ry := Other None "RY" [inl 2%Z] in
  _pauli_sentence (Prod None ([PauliX None (inl 0%Z)] ++ rx :: [ry])) =
    Raise (ValueError (MustBeLinearCombination rx)) /\
  _pauli_sentence (Sum None ([PauliX None (inl 0%Z)] ++ rx :: [ry])) =
    Raise (ValueError (MustBeLinearCombination rx)).
Proof.
  intros rx ry.
  refine (first_failing_operand_decides None [PauliX None (inl 0%Z)] rx [ry] _ _ eq_refl).
  constructor; [eexists; reflexivity | constructor].
Defined.

(** ** The ways [pauli_decompose] succeeds and fails *)


Lemma pauli_decompose_wire_mismatch (matrix : ndarray) (n : nat) (hide_identity : bool)
  (ws : list wire) (pauli : bool) :
  shape matrix = (2 ^ n, 2 ^ n) ->
  length ws <> n ->
  pauli_decompose matrix hide_identity (Some ws) pauli false =
  Raise (ValueError (WiresNotCompatible (length ws) n)).
Proof.
  intros Hs Hl. unfold pauli_decompose. rewrite bind_Ok, Hs. cbn [fst snd].
  rewrite Nat.eqb_refl. cbn [negb]. rewrite int_log2_pow2, bind_Ok, Nat.eqb_refl. cbn [negb].
  destruct (Nat.eqb_spec (length ws) n) as [E|_]; [contradiction | reflexivity].
Qed.

Lemma pauli_decompose_side_0 (matrix : ndarray) (hide_identity : bool)
  (wire_order : option (list wire)) (pauli : bool) :
  fst (shape matrix) = snd (shape matrix) -> fst (shape matrix) = 0 ->
  pauli_decompose matrix hide_identity wire_order pauli false = Raise OverflowError.
Proof.
  intros Hsq H0. unfold pauli_decompose. rewrite bind_Ok, <- Hsq, Nat.eqb_refl. cbn [negb].
  unfold int_log2. rewrite H0. reflexivity.
Qed.

Lemma pauli_decompose_via_padding (matrix : ndarray) (hide_identity : bool)
  (wire_order : option (list wire)) (pauli padding : bool) :
  pauli_decompose matrix hide_identity wire_order pauli padding =
  (used ← (if padding then pad_to_power_of_two matrix else Ok matrix);
   pauli_decompose used hide_identity wire_order pauli false).
Proof. destruct padding; reflexivity. Qed.

Lemma pauli_decompose_unpadded_Ok_inv (matrix : ndarray) (hide_identity : bool)
  (wire_order : option (list wire)) (pauli : bool)
  (res : gmap (gmap wire label) C + Operator) :
  pauli_decompose matrix hide_identity wire_order pauli false = Ok res ->
  exists (n : nat) (term_mat : ndarray),
    shape matrix = (2 ^ n, 2 ^ n) /\
    wires_fit wire_order n /\
    computed_term_mat matrix n = Ok term_mat /\
    package pauli (collect_terms hide_identity (default_wires wire_order n) n term_mat) = Ok res.
Proof.
  intros H.
  destruct (Nat.eq_dec (fst (shape matrix)) (snd (shape matrix))) as [Hsq|Hsq].
  2:{ rewrite pauli_decompose_not_square in H by exact Hsq. discriminate H. }
  destruct (Nat.eq_dec (fst (shape matrix)) 0) as [H0|H0].
  { rewrite pauli_decompose_side_0 in H by assumption. discriminate H. }
  set (n := Nat.log2 (fst (shape matrix))).
  destruct (Nat.eq_dec (fst (shape matrix)) (2 ^ n)) as [Hpow|Hpow].
  2:{ rewrite pauli_decompose_not_power_of_two in H; [discriminate H | exact Hsq | lia |].
      intros [k Hk]. apply Hpow. unfold n. rewrite Hk, Nat.log2_pow2 by lia. reflexivity. }
  assert (Hshape : shape matrix = (2 ^ n, 2 ^ n)).
  { destruct (shape matrix) as [a b]. cbn in *. subst b. rewrite <- Hpow. reflexivity. }
  assert (Hfit : wires_fit wire_order n).
  { destruct wire_order as [ws|]; [|exact Logic.I]. cbn.
    destruct (Nat.eq_dec (length ws) n) as [E|E]; [exact E|].
    rewrite (pauli_decompose_wire_mismatch matrix n) in H by assumption. discriminate H. }
  rewrite (pauli_decompose_checked matrix n) in H by assumption.
  destruct (computed_term_mat matrix n) as [term_mat|e] eqn:Et;
    [rewrite bind_Ok in H | discriminate H].
  exists n, term_mat. split; [exact Hshape | split; [exact Hfit | split; [exact Et | exact H]]].
Qed.

(** What a successful call has gone through: the matrix, padded when
    asked for, is a square of side [2^n], the wires fit, the transform has
    not raised, and the result is the packaged collection of the terms of
    the transformed array. *)
Lemma pauli_decompose_Ok_inv (matrix : ndarray) (hide_identity : bool)
  (wire_order : option (list wire)) (pauli padding : bool)
  (res : gmap (gmap wire label) C + Operator) :
  pauli_decompose matrix hide_identity wire_order pauli padding = Ok res ->
  exists (used : ndarray) (n : nat) (term_mat : ndarray),
    (if padding then pad_to_power_of_two matrix else Ok matrix) = Ok used /\
    shape used = (2 ^ n, 2 ^ n) /\
    wires_fit wire_order n /\
    computed_term_mat used n = Ok term_mat /\
    package pauli (collect_terms hide_identity (default_wires wire_order n) n term_mat) = Ok res.
Proof.
  rewrite pauli_decompose_via_padding. intros H.
  destruct (if padding then pad_to_power_of_two matrix else Ok matrix) as [used|e];
    [rewrite bind_Ok in H | discriminate H].
  destruct (pauli_decompose_unpadded_Ok_inv used _ _ _ _ H) as [n [term_mat [H1 [H2 [H3 H4]]]]].
  exists used, n, term_mat.
  split; [reflexivity | split; [exact H1 | split; [exact H2 | split; [exact H3 | exact H4]]]].
Qed.

(** The transform on a [float64] array: the first pass raises when there
    are two qubits or more; with at most one qubit no pass raises. *)
Lemma hadamard_pass_float64 (n : nat) (term_mat : ndarray) (idx : nat) :
  dtype term_mat = float64 -> n <> 1 ->
  hadamard_pass n term_mat idx = Raise UFuncTypeError.
Proof.
  intros Ht Hn. unfold hadamard_pass. rewrite Ht.
  destruct (Nat.eqb_spec n 1) as [E|_]; [contradiction | reflexivity].
Qed.

Lemma computed_term_mat_float64_raises (matrix : ndarray) (n : nat) :
  dtype matrix = float64 -> 2 <= n ->
  computed_term_mat matrix n = Raise UFuncTypeError.
Proof.
  intros Ht Hn. unfold computed_term_mat.
  destruct n as [|n]; [lia|]. cbn [seq for_each].
  rewrite hadamard_pass_float64 by (first [exact Ht | lia]). reflexivity.
Qed.




(** X8: a wire order whose length is not the number of qubits of a
    [2^n x 2^n] matrix is rejected with the "number of wires ... is not
    compatible with the number of qubits" error, which carries both
    numbers. *)
Theorem pauli_decompose_wire_count (matrix : ndarray) (n : nat) (hide_identity : bool)
  (ws : list wire) (pauli : bool) :
  shape matrix = (2 ^ n, 2 ^ n) ->
  length ws <> n ->
  pauli_decompose matrix hide_identity (Some ws) pauli false =
  Raise (ValueError (WiresNotCompatible (length ws) n)).
Proof. apply pauli_decompose_wire_mismatch. Qed.

Lemma pauli_decompose_wire_count_witness :
  pauli_decompose (pauli_matrix Label.X) false (Some [inl 0%Z; inl 1%Z]) false false =
  Raise (ValueError (WiresNotCompatible 2 1)).
Proof.
  refine (pauli_decompose_wire_count (pauli_matrix Label.X) 1 false [inl 0%Z; inl 1%Z] false
            eq_refl _).
  discriminate.
Defined.





(** X10: on a square matrix whose side is a power of two, [padding=True]
    changes nothing. *)
Theorem pauli_decompose_padding_noop (matrix : ndarray) (n : nat) (hide_identity : bool)
  (wire_order : option (list wire)) (pauli : bool) :
  shape matrix = (2 ^ n, 2 ^ n) ->
  pauli_decompose matrix hide_identity wire_order pauli true =
  pauli_decompose matrix hide_identity wire_order pauli false.
Proof.
  intros Hs. rewrite pauli_decompose_padded.
  assert (Hpad : pad_to_power_of_two matrix = Ok matrix).
  { unfold pad_to_power_of_two, int_ceil_log2. rewrite Hs. cbn [fst snd].
    rewrite Nat.max_id.
    destruct (Nat.eqb_spec (2 ^ n) 0) as [E|_].
    - exfalso. apply (Nat.pow_nonzero 2 n); [discriminate | exact E].
    - rewrite bind_Ok, Nat.log2_up_pow2 by lia. rewrite Nat.eqb_refl. reflexivity. }
  rewrite Hpad, bind_Ok. reflexivity.
Qed.

Lemma pauli_decompose_padding_noop_witness :
  pauli_decompose (pauli_matrix Label.Y) false None false true =
  pauli_decompose (pauli_matrix Label.Y) false None false false.
Proof.
  exact (pauli_decompose_padding_noop (pauli_matrix Label.Y) 1 false None false eq_refl).
Defined.

(** ** The terms of a decomposition *)

Lemma collect_Ok_Forall2 {A : Type} (xs : list (result exception A)) (ys : list A) :
  collect xs = Ok ys -> Forall2 (fun x y => x = Ok y) xs ys.
Proof.
  revert ys. induction xs as [|x xs IH]; intros ys H; cbn in H.
  - injection H as <-. constructor.
  - destruct x as [a|e]; [rewrite bind_Ok in H | discriminate H].
    destruct (collect xs) as [rest|e]; [rewrite bind_Ok in H | discriminate H].
    injection H as <-. constructor; [reflexivity | apply IH; reflexivity].
Qed.

Lemma term_operator_factors (obs_term : list (label * wire)) (op : Operator) :
  term_operator obs_term = Ok op ->
  obs_term <> [] /\ factors op = map (fun ow => op_map (fst ow) (snd ow)) obs_term.
Proof.
  intros H. destruct obs_term as [|[o1 w1] rest]; [discriminate H|].
  split; [discriminate|].
  unfold term_operator in H. cbn [map reduce fst snd] in H. rewrite bind_Ok in H.
  destruct rest as [|[o2 w2] rest].
  - cbn in H. injection H as <-. destruct o1; reflexivity.
  - cbn [map reduce_from fst snd] in H. rewrite bind_Ok in H.
    replace (matmul (op_map o1 w1) (op_map o2 w2))
      with (Tensor None [op_map o1 w1; op_map o2 w2]) in H by (destruct o1; reflexivity).
    rewrite <- (map_map (fun ow => op_map (fst ow) (snd ow)) Ok) in H.
    rewrite reduce_from_matmul_tensor in H. injection H as <-. reflexivity.
Qed.

Lemma package_false_inv (terms : list C * list (list (label * wire))) (H : Operator) :
  package false terms = Ok (inr H) ->
  exists ops, H = Hamiltonian None (fst terms) ops /\
              Forall2 (fun o op => term_operator o = Ok op) (snd terms) ops.
Proof.
  unfold package. intros Hp.
  change (map (fun obs_term => reduce matmul
                 (map (fun ow => Ok (op_map (fst ow) (snd ow))) obs_term)) (snd terms))
    with (map term_operator (snd terms)) in Hp.
  destruct (collect (map term_operator (snd terms))) as [ops|e] eqn:Ec;
    [rewrite bind_Ok in Hp | discriminate Hp].
  injection Hp as <-. exists ops. split; [reflexivity|].
  apply collect_Ok_Forall2 in Ec.
  remember (snd terms) as os eqn:Eos. clear Eos.
  revert ops Ec. induction os as [|o os IH]; intros ops Ec; inversion Ec; subst; constructor.
  - assumption.
  - apply IH. assumption.
Qed.

Lemma kept_terms_In (hide_identity : bool) (wire_order : list wire) (term_mat : ndarray)
  (strings : list (list label)) (t : C * list (label * wire)) :
  In t (kept_terms hide_identity wire_order term_mat strings) ->
  exists p, In p strings /\
            fst t = coefficient_of term_mat p /\
            allclose0 (fst t) = false /\
            snd t = observables_of hide_identity wire_order p /\
            snd t <> [].
Proof.
  unfold kept_terms. intros Hin. apply in_flat_map in Hin. destruct Hin as [p [Hp Hin]].
  cbn zeta in Hin.
  destruct (allclose0 (coefficient_of term_mat p)) eqn:Ea; cbn [negb] in Hin; [destruct Hin|].
  destruct (observables_of hide_identity wire_order p) as [|o os] eqn:Eo; [destruct Hin|].
  destruct Hin as [<-|[]]. exists p. cbn [fst snd].
  split; [exact Hp | split; [reflexivity | split; [exact Ea | split; [symmetry; exact Eo |]]]].
  discriminate.
Qed.

Lemma kept_terms_length (hide_identity : bool) (wire_order : list wire) (term_mat : ndarray)
  (strings : list (list label)) :
  length (kept_terms hide_identity wire_order term_mat strings) <= length strings.
Proof.
  induction strings as [|p strings IH]; [cbn; lia|].
  cbn [kept_terms flat_map]. fold (kept_terms hide_identity wire_order term_mat strings).
  rewrite length_app. cbn [length].
  destruct (negb (allclose0 (coefficient_of term_mat p))); cbn zeta; [|cbn; lia].
  destruct (observables_of hide_identity wire_order p); cbn; lia.
Qed.

Lemma length_flat_map_extend {A : Type} (pool : list A) (l : list (list A)) :
  length (flat_map (fun x => map (fun y => x ++ [y]) pool) l) = length pool * length l.
Proof.
  induction l as [|x l IHl]; [cbn; lia|].
  cbn [flat_map]. rewrite length_app, length_map, IHl. cbn [length]. lia.
Qed.

Lemma product_count {A : Type} (pool : list A) (n : nat) :
  length (product pool n) = length pool ^ n.
Proof.
  induction n as [|n IH]; [reflexivity|].
  rewrite product_S, length_flat_map_extend, IH, Nat.pow_succ_r'. reflexivity.
Qed.

Lemma is_pauli_factor_op_map (o : label) (w : wire) : is_pauli_factor (op_map o w) = true.
Proof. destruct o; reflexivity. Qed.

(** The shape of what a successful call returns when a weighted sum is
    asked for. *)
Lemma pauli_decompose_Hamiltonian_inv (matrix : ndarray) (hide_identity : bool)
  (wire_order : option (list wire)) (padding : bool) (H : Operator) :
  pauli_decompose matrix hide_identity wire_order false padding = Ok (inr H) ->
  exists (used : ndarray) (n : nat) (term_mat : ndarray) (ops : list Operator),
    (if padding then pad_to_power_of_two matrix else Ok matrix) = Ok used /\
    shape used = (2 ^ n, 2 ^ n) /\
    computed_term_mat used n = Ok term_mat /\
    let kept := kept_terms hide_identity (default_wires wire_order n) term_mat
                  (product IXYZ n) in
    H = Hamiltonian None (map fst kept) ops /\
    Forall2 (fun o op => term_operator o = Ok op) (map snd kept) ops.
Proof.
  intros Hd. apply pauli_decompose_Ok_inv in Hd.
  destruct Hd as [used [n [term_mat [Hused [Hs [_ [Ht Hp]]]]]]].
  rewrite collect_terms_kept in Hp. apply package_false_inv in Hp.
  destruct Hp as [ops [HH HF]]. exists used, n, term_mat, ops.
  split; [exact Hused | split; [exact Hs | split; [exact Ht | split; assumption]]].
Qed.

Lemma pauli_decompose_Hamiltonian_exists (matrix : ndarray) (n : nat) (hide_identity : bool)
  (wire_order : option (list wire)) :
  dtype matrix = complex128 ->
  shape matrix = (2 ^ n, 2 ^ n) ->
  wires_fit wire_order n ->
  exists coeffs ops,
    pauli_decompose matrix hide_identity wire_order false false
      = Ok (inr (Hamiltonian None coeffs ops)).
Proof.
  intros Ht Hs Hw. rewrite (pauli_decompose_unpadded matrix n) by assumption.
  rewrite collect_terms_kept. unfold package. cbn [fst snd].
  set (kept := kept_terms hide_identity (default_wires wire_order n) (final_term_mat matrix n)
                 (product IXYZ n)).
  destruct (collect_term_operators (map snd kept)) as [ops [H1 _]].
  { apply List.Forall_map. apply kept_terms_nonempty. }
  change (map (fun obs_term => reduce matmul
                 (map (fun ow => Ok (op_map (fst ow) (snd ow))) obs_term))
              (map snd kept))
    with (map term_operator (map snd kept)).
  rewrite H1, bind_Ok. exists (map fst kept), ops. reflexivity.
Qed.

(** X11: in the weighted sum that [pauli_decompose] returns there are as
    many coefficients as observables, no coefficient is within the
    tolerance of zero, every observable is a non-empty product of
    single-qubit Pauli and identity operators, and (without padding) there
    are never more terms than matrix entries. *)
Theorem decomposition_terms (matrix : ndarray) (hide_identity : bool)
  (wire_order : option (list wire)) (padding : bool)
  (rep : option (gmap (gmap wire label) C)) (coeffs : list C) (ops : list Operator) :
  pauli_decompose matrix hide_identity wire_order false padding
    = Ok (inr (Hamiltonian rep coeffs ops)) ->
  length coeffs = length ops /\
  List.Forall (fun c => allclose0 c = false) coeffs /\
  List.Forall (fun op => factors op <> [] /\ forallb is_pauli_factor (factors op) = true) ops /\
  (padding = false -> length coeffs <= fst (shape matrix) * snd (shape matrix)).
Proof.
  intros Hd. apply pauli_decompose_Hamiltonian_inv in Hd.
  destruct Hd as [used [n [term_mat [ops' [Hused [Hs [_ [HH HF]]]]]]]].
  injection HH as -> -> ->.
  set (kept := kept_terms hide_identity (default_wires wire_order n) term_mat
                 (product IXYZ n)) in *.
  split; [| split; [| split]].
  - apply Forall2_length in HF. rewrite length_map in *. exact HF.
  - apply List.Forall_forall. intros c Hc. apply in_map_iff in Hc.
    destruct Hc as [t [<- Ht]]. apply kept_terms_In in Ht.
    destruct Ht as [p [_ [_ [Ha _]]]]. exact Ha.
  - clear Hused Hs. remember (map snd kept) as os eqn:Eos. clear Eos kept.
    induction HF as [|o op os ops' Ho _ IH]; constructor; [|exact IH].
    apply term_operator_factors in Ho. destruct Ho as [Hne Hf]. rewrite Hf. split.
    + destruct o; [contradiction | discriminate].
    + rewrite forallb_forall. intros f Hin. apply in_map_iff in Hin.
      destruct Hin as [ow [<- _]]. apply is_pauli_factor_op_map.
  - intros ->. injection Hused as <-. rewrite Hs. cbn [fst snd].
    rewrite length_map. etransitivity; [apply kept_terms_length|].
    rewrite product_count. cbn [IXYZ length].
    change 4 with (2 * 2). rewrite Nat.pow_mul_l. lia.
Qed.

Lemma decomposition_terms_witness :
  exists coeffs ops,
    pauli_decompose docstring_matrix false None false false
      = Ok (inr (Hamiltonian None coeffs ops)) /\
    length coeffs = length ops /\
    List.Forall (fun c => allclose0 c = false) coeffs /\
    List.Forall (fun op => factors op <> [] /\ forallb is_pauli_factor (factors op) = true) ops /\
    (false = false -> length coeffs <= fst (shape docstring_matrix) * snd (shape docstring_matrix)).
Proof.
  destruct (pauli_decompose_Hamiltonian_exists docstring_matrix 2 false None eq_refl eq_refl
              Logic.I) as [coeffs [ops Hd]].
  exists coeffs, ops. split; [exact Hd|].
  exact (decomposition_terms docstring_matrix false None false None coeffs ops Hd).
Defined.

Lemma is_I_true (l : label) : is_I l = true <-> l = Label.I.
Proof. destruct l; cbn; split; (reflexivity || discriminate). Qed.

Lemma observables_of_hidden (wire_order : list wire) (p : list label) :
  List.Forall (fun ow => fst ow = Label.I) (observables_of true wire_order p) \/
  List.Forall (fun ow => fst ow <> Label.I) (observables_of true wire_order p).
Proof.
  unfold observables_of. cbn [andb].
  destruct (forallb is_I p) eqn:Eall; cbn [negb].
  - left. apply List.Forall_forall. intros ow Hin. apply in_map_iff in Hin.
    destruct Hin as [[w o] [<- Hin]]. cbn [fst snd].
    apply in_combine_r in Hin. rewrite forallb_forall in Eall.
    apply is_I_true, Eall, Hin.
  - right. apply List.Forall_forall. intros ow Hin. apply in_map_iff in Hin.
    destruct Hin as [[w o] [<- Hin]]. cbn [fst snd].
    apply filter_In in Hin. destruct Hin as [_ Hn]. cbn [snd] in Hn.
    intros E. apply is_I_true in E. rewrite E in Hn. discriminate Hn.
Qed.

(** X12: with [hide_identity=True] an identity factor only appears in the
    pure-identity term, which keeps all its identity factors: every
    observable of the weighted sum is either made of identities only or
    contains no identity at all. *)
Theorem hide_identity_terms (matrix : ndarray) (wire_order : option (list wire))
  (padding : bool) (rep : option (gmap (gmap wire label) C)) (coeffs : list C)
  (ops : list Operator) :
  pauli_decompose matrix true wire_order false padding = Ok (inr (Hamiltonian rep coeffs ops)) ->
  List.Forall
    (fun op =>
       List.Forall (fun f => label_of f = Some Label.I) (factors op) \/
       List.Forall (fun f => exists l, label_of f = Some l /\ l <> Label.I) (factors op))
    ops.
Proof.
  intros Hd. apply pauli_decompose_Hamiltonian_inv in Hd.
  destruct Hd as [used [n [term_mat [ops' [_ [_ [_ [HH HF]]]]]]]].
  injection HH as -> -> ->.
  set (kept := kept_terms true (default_wires wire_order n) term_mat
                 (product IXYZ n)) in *.
  assert (Hobs : List.Forall
                   (fun o => List.Forall (fun ow : label * wire => fst ow = Label.I) o \/
                             List.Forall (fun ow : label * wire => fst ow <> Label.I) o)
                   (map snd kept)).
  { apply List.Forall_forall. intros o Ho. apply in_map_iff in Ho.
    destruct Ho as [t [<- Ht]]. apply kept_terms_In in Ht.
    destruct Ht as [p [_ [_ [_ [-> _]]]]]. apply observables_of_hidden. }
  remember (map snd kept) as os eqn:Eos. clear Eos kept.
  induction HF as [|o op os ops' Ho _ IH]; [constructor|].
  inversion Hobs as [|? ? Hcase Hrest]; subst.
  constructor; [|apply IH, Hrest].
  apply term_operator_factors in Ho. destruct Ho as [_ Hf]. rewrite Hf.
  destruct Hcase as [Hall|Hnone]; [left | right];
    apply List.Forall_forall; intros f Hin; apply in_map_iff in Hin;
    destruct Hin as [ow [<- Hin]]; rewrite label_of_op_map.
  - rewrite List.Forall_forall in Hall. rewrite (Hall ow Hin). reflexivity.
  - rewrite List.Forall_forall in Hnone. exists (fst ow). split; [reflexivity | apply Hnone, Hin].
Qed.

Lemma hide_identity_terms_witness :
  exists coeffs ops,
    pauli_decompose docstring_matrix true None false false
      = Ok (inr (Hamiltonian None coeffs ops)) /\
    List.Forall
      (fun op =>
         List.Forall (fun f => label_of f = Some Label.I) (factors op) \/
         List.Forall (fun f => exists l, label_of f = Some l /\ l <> Label.I) (factors op))
      ops.
Proof.
  destruct (pauli_decompose_Hamiltonian_exists docstring_matrix 2 true None eq_refl eq_refl
              Logic.I) as [coeffs [ops Hd]].
  exists coeffs, ops. split; [exact Hd|].
  exact (hide_identity_terms docstring_matrix None false None coeffs ops Hd).
Defined.

(** ** The zero matrix *)

Lemma passes_zero (bits : list nat) (F : nat -> nat -> C) :
  (forall r c, F r c = C0) -> forall r c, passes bits F r c = C0.
Proof.
  revert F. induction bits as [|k bits IH]; intros F HF r c; cbn.
  - apply HF.
  - apply IH. intros r' c'. unfold pass_fn. rewrite !HF.
    destruct (Nat.testbit r' k); [destruct (Nat.testbit c' k)|]; Cring.
Qed.

Lemma flat_map_all_nil {A B : Type} (f : A -> list B) (l : list A) :
  (forall x, In x l -> f x = []) -> flat_map f l = [].
Proof.
  intros H. induction l as [|x l IH]; [reflexivity|].
  cbn [flat_map]. rewrite (H x) by (left; reflexivity).
  apply IH. intros y Hy. apply H. right. exact Hy.
Qed.

Lemma kept_terms_all_negligible (hide_identity : bool) (wire_order : list wire)
  (term_mat : ndarray) (strings : list (list label)) :
  (forall p, In p strings -> allclose0 (coefficient_of term_mat p) = true) ->
  kept_terms hide_identity wire_order term_mat strings = [].
Proof.
  intros H. unfold kept_terms. apply flat_map_all_nil. intros p Hp. cbn zeta.
  rewrite (H p Hp). reflexivity.
Qed.

(** X13: a [complex128] array of size [2^n x 2^n] all of whose entries
    are zero decomposes into no term at all: an empty weighted sum, or an
    empty sentence when [pauli=True]. *)
Theorem pauli_decompose_zero_matrix (matrix : ndarray) (n : nat) (hide_identity : bool)
  (wire_order : option (list wire)) (pauli : bool) :
  dtype matrix = complex128 ->
  shape matrix = (2 ^ n, 2 ^ n) ->
  wires_fit wire_order n ->
  (forall r c, item matrix r c = C0) ->
  pauli_decompose matrix hide_identity wire_order pauli false =
  Ok (if pauli then inl ∅ else inr (Hamiltonian None [] [])).
Proof.
  intros Ht Hs Hw Hz. rewrite (pauli_decompose_unpadded matrix n) by assumption.
  rewrite collect_terms_kept, kept_terms_all_negligible.
  - destruct pauli; reflexivity.
  - intros p Hp. pose proof (product_length _ _ _ Hp) as Hlen.
    unfold coefficient_of. fold (zrow p) (xcol p).
    rewrite item_final_term_mat by (first [exact Hs | apply zrow_lt, Hlen | apply xcol_lt, Hlen]).
    rewrite passes_zero by (intros r c; apply Hz).
    replace (Cdivn C0 (2 ^ n)) with C0 by Cring. reflexivity.
Qed.

Lemma pauli_decompose_zero_matrix_witness :
  pauli_decompose (zeros 4 4) false None false false = Ok (inr (Hamiltonian None [] [])).
Proof.
  refine (pauli_decompose_zero_matrix (zeros 4 4) 2 false None false eq_refl eq_refl Logic.I _).
  intros r c. unfold zeros.
  destruct (Nat.lt_ge_cases r 4) as [Hr|Hr]; [destruct (Nat.lt_ge_cases c 4) as [Hc|Hc]|].
  - apply item_tabulate; assumption.
  - unfold item. apply nth_overflow.
    destruct r as [|[|[|[|r]]]]; cbn; lia.
  - unfold item. rewrite (nth_overflow (data _)) by (cbn; lia). destruct c; reflexivity.
Defined.

(** ** The matrix of one Pauli string *)

Lemma pass_fn_scale (k : nat) (G : nat -> nat -> C) (s : C) (r c : nat) :
  pass_fn k (fun r c => Cmul s (G r c)) r c = Cmul s (pass_fn k G r c).
Proof.
  unfold pass_fn. destruct (Nat.testbit r k); [destruct (Nat.testbit c k)|]; Cring.
Qed.

Lemma passes_scale (bits : list nat) (G : nat -> nat -> C) (s : C) (r c : nat) :
  passes bits (fun r c => Cmul s (G r c)) r c = Cmul s (passes bits G r c).
Proof.
  revert G r c. induction bits as [|k bits IH]; intros G r c; [reflexivity|].
  change (passes (k :: bits) (fun r c => Cmul s (G r c)))
    with (passes bits (pass_fn k (fun r c => Cmul s (G r c)))).
  change (passes (k :: bits) G) with (passes bits (pass_fn k G)).
  rewrite <- IH. apply passes_ext. intros r' c'. apply pass_fn_scale.
Qed.

Lemma snoc_cases {A : Type} (n : nat) (p : list A) :
  length p = S n -> exists q l, p = q ++ [l] /\ length q = n.
Proof.
  intros Hlen. destruct (exists_last (l := p)) as [q [l ->]].
  - intros ->. discriminate Hlen.
  - exists q, l. split; [reflexivity|].
    rewrite length_app in Hlen. cbn [length] in Hlen. lia.
Qed.

Lemma blk_pauli_string (n : nat) (q : list label) (l : label) (b d : bool) (r c : nat) :
  length q = n -> r < 2 ^ n -> c < 2 ^ n ->
  blk b d (fun k j => pauli_entry (q ++ [l]) k (Nat.lxor j k)) r c =
  Cmul (sig l b (xorb d b)) (pauli_entry q r (Nat.lxor c r)).
Proof.
  intros Hlen Hr Hc. unfold blk. rewrite lxor_double.
  rewrite pauli_entry_snoc.
  - Cring.
  - rewrite Hlen. exact Hr.
  - rewrite Hlen. apply lxor_lt_pow2; assumption.
Qed.

(** The transform of the loop takes the matrix of a Pauli string to the
    table that holds [2^n] at the place of this string and zero at the
    place of every other string. *)
Lemma pauli_string_transform (n : nat) :
  forall p q : list label, length p = n -> length q = n ->
  passes (bit_order n) (fun k j => pauli_entry p k (Nat.lxor j k)) (zrow q) (xcol q) =
  if decide (p = q) then Cnat (2 ^ n) else C0.
Proof.
  induction n as [|n IH]; intros p q Hp Hq.
  - destruct p; [|discriminate Hp]. destruct q; [|discriminate Hq].
    reflexivity.
  - destruct (snoc_cases n p Hp) as [p' [l [-> Hp']]].
    destruct (snoc_cases n q Hq) as [q' [m [-> Hq']]].
    rewrite zrow_snoc, xcol_snoc, passes_last_bit.
    pose proof (zrow_lt n q' Hq') as Hz. pose proof (xcol_lt n q' Hq') as Hx.
    assert (Hblk : forall b,
               passes (bit_order n)
                 (blk b (in_XY m) (fun k j => pauli_entry (p' ++ [l]) k (Nat.lxor j k)))
                 (zrow q') (xcol q') =
               Cmul (sig l b (xorb (in_XY m) b))
                    (if decide (p' = q') then Cnat (2 ^ n) else C0)).
    { intros b. rewrite <- (IH p' q' Hp' Hq'), <- passes_scale.
      apply (passes_ext_range n); [intros k; apply bit_order_lt | | exact Hz | exact Hx].
      intros r c Hr Hc. apply (blk_pauli_string n); assumption. }
    rewrite !Hblk. clear Hblk.
    change (Cnat (2 ^ S n)) with (Cnat (2 * 2 ^ n)). rewrite (Cnat_mul 2 (2 ^ n)).
    destruct (decide (p' = q')) as [->|Hne].
    + destruct (decide (l = m)) as [->|Hlm].
      * rewrite decide_True by reflexivity.
        rewrite Cnat_2_mul. destruct m; cbn; Cring.
      * rewrite decide_False by (intros E; apply app_inj_tail in E; destruct E; contradiction).
        destruct l, m; try contradiction; cbn; Cring.
    + rewrite decide_False by (intros E; apply app_inj_tail in E; destruct E; contradiction).
      destruct (in_YZ m); [destruct (in_XY m)|]; cbn zeta; Cring.
Qed.

Lemma In_product_IXYZ (n : nat) (p : list label) : length p = n -> In p (product IXYZ n).
Proof.
  revert p. induction n as [|n IH]; intros p Hp.
  - destruct p; [left; reflexivity | discriminate Hp].
  - destruct (snoc_cases n p Hp) as [q [l [-> Hq]]].
    rewrite product_S. apply in_flat_map. exists q. split; [apply IH, Hq|].
    apply in_map_iff. exists l. split; [reflexivity|]. destruct l; cbn; tauto.
Qed.

Lemma NoDup_extend {A : Type} (pool : list A) (l : list (list A)) :
  List.NoDup pool -> List.NoDup l ->
  List.NoDup (flat_map (fun x => map (fun y => x ++ [y]) pool) l).
Proof.
  intros Hpool Hl. induction Hl as [|x l Hx Hl IH]; [constructor|].
  cbn [flat_map]. apply List.NoDup_app; [|exact IH|].
  - clear -Hpool. induction Hpool as [|y pool Hy Hpool IH]; [constructor|].
    cbn [map]. constructor; [|exact IH].
    intros Hin. apply in_map_iff in Hin. destruct Hin as [y' [E Hy']].
    apply app_inj_tail in E. destruct E as [_ ->]. contradiction.
  - intros a Ha Hb. apply in_map_iff in Ha. destruct Ha as [y [<- _]].
    apply in_flat_map in Hb. destruct Hb as [x' [Hx' Hb]].
    apply in_map_iff in Hb. destruct Hb as [y' [E _]].
    apply app_inj_tail in E. destruct E as [-> _]. contradiction.
Qed.

Lemma NoDup_product_IXYZ (n : nat) : List.NoDup (product IXYZ n).
Proof.
  induction n as [|n IH].
  - constructor; [intros []|constructor].
  - rewrite product_S. apply NoDup_extend; [|exact IH].
    repeat constructor; cbn; intuition discriminate.
Qed.

Lemma flat_map_single {A B : Type} `{EqDecision A} (f : A -> list B) (l : list A) (p : A) :
  List.NoDup l -> In p l ->
  (forall x, In x l -> x <> p -> f x = []) ->
  flat_map f l = f p.
Proof.
  intros Hl. induction Hl as [|x l Hx Hl IH]; intros Hin Hf; [destruct Hin|].
  cbn [flat_map]. destruct (decide (x = p)) as [->|Hne].
  - rewrite flat_map_all_nil; [apply app_nil_r|].
    intros y Hy. apply Hf; [right; exact Hy|]. intros ->. contradiction.
  - rewrite (Hf x) by (first [left; reflexivity | exact Hne]). cbn [app].
    apply IH.
    + destruct Hin as [E|Hin]; [contradiction | exact Hin].
    + intros y Hy. apply Hf. right. exact Hy.
Qed.

Lemma shape_pauli_string_matrix (p : list label) (c : C) :
  shape (mscale c (kron_all (map pauli_matrix p))) = (2 ^ length p, 2 ^ length p).
Proof. unfold mscale. rewrite shape_tabulate, shape_kron_all_pauli. reflexivity. Qed.

(** The coefficient that the transform assigns to a Pauli string, on an
    array that holds a multiple of a Pauli string. *)
Lemma coefficient_of_pauli_string (n : nat) (matrix : ndarray) (p q : list label) (c : C) :
  shape matrix = (2 ^ n, 2 ^ n) ->
  (forall r k, r < 2 ^ n -> k < 2 ^ n -> item matrix r k = Cmul c (pauli_entry p r k)) ->
  length p = n -> length q = n ->
  coefficient_of (final_term_mat matrix n) q = if decide (p = q) then c else C0.
Proof.
  intros Hs Hm Hp Hq. unfold coefficient_of. fold (zrow q) (xcol q).
  pose proof (zrow_lt n q Hq) as Hz. pose proof (xcol_lt n q Hq) as Hx.
  rewrite item_final_term_mat by assumption.
  rewrite (passes_ext_range n (bit_order n) _
             (fun k j => Cmul c (pauli_entry p k (Nat.lxor j k)))); try assumption.
  - rewrite passes_scale, (pauli_string_transform n p q Hp Hq).
    destruct (decide (p = q)).
    + replace (Cmul c (Cnat (2 ^ n))) with (Cmul (Cnat (2 ^ n)) c) by Cring.
      apply Cdivn_Cnat_mul.
    + Cring.
  - intros k. apply bit_order_lt.
  - intros r c' Hr Hc. apply Hm; [exact Hr | apply lxor_lt_pow2; assumption].
Qed.

Lemma filter_not_identity_nonempty (wire_order : list wire) (p : list label) :
  length wire_order = length p -> forallb is_I p = false ->
  List.filter (fun wo : wire * label => negb (is_I (snd wo))) (combine wire_order p) <> [].
Proof.
  revert wire_order. induction p as [|l p IH]; intros ws Hlen Hall; [discriminate Hall|].
  destruct ws as [|w ws]; [discriminate Hlen|].
  cbn [combine List.filter snd]. cbn [forallb] in Hall.
  destruct (is_I l); cbn [negb andb] in *; [|discriminate].
  apply IH; [injection Hlen as Hlen; exact Hlen | exact Hall].
Qed.

Lemma observables_of_some (hide_identity : bool) (wire_order : list wire) (p : list label) :
  length wire_order = length p -> 1 <= length p ->
  observables_of hide_identity wire_order p <> [].
Proof.
  intros Hlen Hp. destruct hide_identity; [|apply observables_of_nonempty; assumption].
  unfold observables_of. cbn [andb].
  destruct (forallb is_I p) eqn:Eall; cbn [negb].
  - apply (observables_of_nonempty wire_order p Hlen Hp).
  - intros E. apply map_eq_nil in E.
    exact (filter_not_identity_nonempty wire_order p Hlen Eall E).
Qed.

Lemma length_default_wires (wire_order : option (list wire)) (n : nat) :
  wires_fit wire_order n -> length (default_wires wire_order n) = n.
Proof.
  intros Hw. destruct wire_order as [ws|]; cbn in *;
    [exact Hw | rewrite length_map, length_seq; reflexivity].
Qed.

Lemma kept_terms_pauli_string (hide_identity : bool) (wire_order : list wire)
  (matrix : ndarray) (p : list label) (c : C) :
  shape matrix = (2 ^ length p, 2 ^ length p) ->
  (forall r k, r < 2 ^ length p -> k < 2 ^ length p ->
     item matrix r k = Cmul c (pauli_entry p r k)) ->
  length wire_order = length p -> 1 <= length p -> allclose0 c = false ->
  kept_terms hide_identity wire_order (final_term_mat matrix (length p))
    (product IXYZ (length p)) =
  [(c, observables_of hide_identity wire_order p)].
Proof.
  intros Hs Hm Hlen Hp Hc. unfold kept_terms.
  rewrite (flat_map_single _ _ p (NoDup_product_IXYZ (length p))
             (In_product_IXYZ (length p) p eq_refl)).
  - cbn zeta. rewrite (coefficient_of_pauli_string (length p) matrix p p c Hs Hm eq_refl eq_refl).
    rewrite decide_True by reflexivity. rewrite Hc. cbn [negb].
    pose proof (observables_of_some hide_identity wire_order p Hlen Hp) as Hne.
    destruct (observables_of hide_identity wire_order p); [contradiction | reflexivity].
  - intros q Hq Hne. cbn zeta.
    rewrite (coefficient_of_pauli_string (length p) matrix p q c Hs Hm eq_refl
               (product_length _ _ _ Hq)).
    rewrite decide_False by (intros E; apply Hne; symmetry; exact E).
    reflexivity.
Qed.

(** X14: a [complex128] array that holds a multiple [c] of the matrix of
    one Pauli string on at least one qubit, with [c] above the tolerance,
    decomposes (in exact arithmetic) into exactly this string with
    coefficient [c]: a sentence with the single word of the string, or a
    weighted sum with the single observable made of the string's factors
    on the wires of the wire order. *)
Theorem pauli_decompose_pauli_string (matrix : ndarray) (p : list label) (c : C)
  (hide_identity : bool) (wire_order : option (list wire)) :
  dtype matrix = complex128 ->
  shape matrix = (2 ^ length p, 2 ^ length p) ->
  (forall r k, r < 2 ^ length p -> k < 2 ^ length p ->
     item matrix r k = Cmul c (pauli_entry p r k)) ->
  1 <= length p ->
  wires_fit wire_order (length p) ->
  allclose0 c = false ->
  let obs := observables_of hide_identity (default_wires wire_order (length p)) p in
  pauli_decompose matrix hide_identity wire_order true false =
    Ok (inl {[ make_PauliWord (dict_of_pairs (map (fun ow => (snd ow, fst ow)) obs)) := c ]}) /\
  exists op,
    pauli_decompose matrix hide_identity wire_order false false =
      Ok (inr (Hamiltonian None [c] [op])) /\
    factors op = map (fun ow => op_map (fst ow) (snd ow)) obs.
Proof.
  intros Ht Hs Hm Hp Hw Hc obs.
  pose proof (length_default_wires wire_order (length p) Hw) as Hlen.
  assert (Hk : collect_terms hide_identity (default_wires wire_order (length p)) (length p)
                 (final_term_mat matrix (length p)) = ([c], [obs])).
  { rewrite collect_terms_kept.
    rewrite (kept_terms_pauli_string hide_identity _ matrix p c Hs Hm Hlen Hp Hc).
    reflexivity. }
  split.
  - rewrite (pauli_decompose_unpadded matrix (length p)) by assumption.
    rewrite Hk. reflexivity.
  - destruct (term_operator_matrix obs) as [op [Hop _]].
    { apply observables_of_some; assumption. }
    exists op. split.
    + rewrite (pauli_decompose_unpadded matrix (length p)) by assumption.
      rewrite Hk. unfold package. cbn [fst snd map collect].
      fold (term_operator obs). rewrite Hop, !bind_Ok. reflexivity.
    + apply term_operator_factors in Hop. apply Hop.
Qed.

Lemma pauli_decompose_pauli_string_witness :
  let matrix := mscale C1 (kron_all (map pauli_matrix [Label.X; Label.Z])) in
  dtype matrix = complex128 /\
  shape matrix = (4, 4) /\
  1 <= length [Label.X; Label.Z] /\
  wires_fit None (length [Label.X; Label.Z]) /\
  allclose0 C1 = false /\
  let obs := observables_of false (default_wires None 2) [Label.X; Label.Z] in
  pauli_decompose matrix false None true false =
    Ok (inl {[ make_PauliWord (dict_of_pairs (map (fun ow => (snd ow, fst ow)) obs)) := C1 ]}) /\
  exists op,
    pauli_decompose matrix false None false false = Ok (inr (Hamiltonian None [C1] [op])) /\
    factors op = map (fun ow => op_map (fst ow) (snd ow)) obs.
Proof.
  intros matrix.
  refine (conj eq_refl (conj eq_refl (conj (le_S 1 1 (le_n 1)) (conj Logic.I (conj eq_refl _))))).
  refine (pauli_decompose_pauli_string matrix [Label.X; Label.Z] C1 false None
            eq_refl eq_refl _ (le_S 1 1 (le_n 1)) Logic.I eq_refl).
  intros r k Hr Hk. unfold matrix, pauli_entry. apply item_mscale; assumption.
Defined.

(** ** Linear combinations of Pauli strings *)

Lemma pass_fn_add (k : nat) (F G : nat -> nat -> C) (r c : nat) :
  pass_fn k (fun r c => Cadd (F r c) (G r c)) r c = Cadd (pass_fn k F r c) (pass_fn k G r c).
Proof.
  unfold pass_fn. destruct (Nat.testbit r k); [destruct (Nat.testbit c k)|]; Cring.
Qed.

Lemma passes_add (bits : list nat) (F G : nat -> nat -> C) (r c : nat) :
  passes bits (fun r c => Cadd (F r c) (G r c)) r c =
  Cadd (passes bits F r c) (passes bits G r c).
Proof.
  revert F G r c. induction bits as [|k bits IH]; intros F G r c; [reflexivity|].
  change (passes (k :: bits) (fun r c => Cadd (F r c) (G r c)))
    with (passes bits (pass_fn k (fun r c => Cadd (F r c) (G r c)))).
  change (passes (k :: bits) F) with (passes bits (pass_fn k F)).
  change (passes (k :: bits) G) with (passes bits (pass_fn k G)).
  rewrite <- IH. apply passes_ext. intros r' c'. apply pass_fn_add.
Qed.

Lemma passes_Csum {A : Type} (bits : list nat) (strings : list A) (E : A -> nat -> nat -> C)
  (r c : nat) :
  passes bits (fun r c => Csum (map (fun q => E q r c) strings)) r c =
  Csum (map (fun q => passes bits (E q) r c) strings).
Proof.
  induction strings as [|q strings IH].
  - cbn [map]. rewrite Csum_nil. apply passes_zero. intros; reflexivity.
  - cbn [map]. rewrite Csum_cons, <- IH, <- passes_add.
    apply passes_ext. intros r' c'. apply Csum_cons.
Qed.

Lemma Csum_single {A : Type} `{EqDecision A} (g : A -> C) (l : list A) (p : A) :
  List.NoDup l -> In p l ->
  (forall x, In x l -> x <> p -> g x = C0) ->
  Csum (map g l) = g p.
Proof.
  intros Hl. induction Hl as [|x l Hx Hl IH]; intros Hin Hg; [destruct Hin|].
  cbn [map]. rewrite Csum_cons. destruct (decide (x = p)) as [->|Hne].
  - rewrite Csum_all_C0; [Cring|].
    intros y Hy. apply Hg; [right; exact Hy|]. intros ->. contradiction.
  - rewrite (Hg x) by (first [left; reflexivity | exact Hne]).
    rewrite Cadd_0_l. apply IH.
    + destruct Hin as [E|Hin]; [contradiction | exact Hin].
    + intros y Hy. apply Hg. right. exact Hy.
Qed.

(** The coefficients that [pauli_decompose] computes for a matrix given
    as a linear combination of Pauli strings are those of the combination. *)
Lemma coefficients_of_combination (n : nat) (matrix : ndarray) (d : list label -> C) :
  shape matrix = (2 ^ n, 2 ^ n) ->
  (forall r c, r < 2 ^ n -> c < 2 ^ n ->
     item matrix r c =
     Csum (map (fun q => Cmul (d q) (pauli_entry q r c)) (product IXYZ n))) ->
  forall p, length p = n -> coefficient_of (final_term_mat matrix n) p = d p.
Proof.
  intros Hs Hm p Hp. unfold coefficient_of. fold (zrow p) (xcol p).
  pose proof (zrow_lt n p Hp) as Hz. pose proof (xcol_lt n p Hp) as Hx.
  rewrite item_final_term_mat by assumption.
  rewrite (passes_ext_range n (bit_order n) _
             (fun k j => Csum (map (fun q => Cmul (d q) (pauli_entry q k (Nat.lxor j k)))
                                   (product IXYZ n)))); try assumption.
  - rewrite (passes_Csum (bit_order n) (product IXYZ n)
               (fun q k j => Cmul (d q) (pauli_entry q k (Nat.lxor j k)))).
    rewrite (Csum_map_ext _
               (fun q => Cmul (d q) (if decide (q = p) then Cnat (2 ^ n) else C0))).
    + rewrite (Csum_single _ _ p (NoDup_product_IXYZ n) (In_product_IXYZ n p Hp)).
      * rewrite decide_True by reflexivity.
        replace (Cmul (d p) (Cnat (2 ^ n))) with (Cmul (Cnat (2 ^ n)) (d p)) by Cring.
        apply Cdivn_Cnat_mul.
      * intros q _ Hne. rewrite decide_False by exact Hne. Cring.
    + intros q Hq. rewrite passes_scale.
      rewrite (pauli_string_transform n q p (product_length _ _ _ Hq) Hp). reflexivity.
  - intros k. apply bit_order_lt.
  - intros r c Hr Hc. apply Hm; [exact Hr | apply lxor_lt_pow2; assumption].
Qed.

Lemma kept_terms_filter (hide_identity : bool) (wire_order : list wire) (term_mat : ndarray)
  (d : list label -> C) (strings : list (list label)) :
  (forall q, In q strings -> coefficient_of term_mat q = d q) ->
  (forall q, In q strings -> observables_of hide_identity wire_order q <> []) ->
  kept_terms hide_identity wire_order term_mat strings =
  map (fun q => (d q, observables_of hide_identity wire_order q))
      (List.filter (fun q => negb (allclose0 (d q))) strings).
Proof.
  intros Hd Ho. induction strings as [|q strings IH]; [reflexivity|].
  unfold kept_terms in *. cbn [flat_map List.filter]. cbn zeta.
  rewrite IH by (intros; first [apply Hd | apply Ho]; right; assumption).
  rewrite (Hd q) by (left; reflexivity).
  destruct (allclose0 (d q)); cbn [negb]; [reflexivity|].
  pose proof (Ho q (or_introl eq_refl)) as Hne.
  destruct (observables_of hide_identity wire_order q) as [|o os] eqn:Eo; [contradiction|].
  cbn [map app]. rewrite Eo. reflexivity.
Qed.

Lemma Forall2_map_left {A B D : Type} (f : A -> B) (P : B -> D -> Prop) (l : list A)
  (k : list D) :
  Forall2 P (map f l) k -> Forall2 (fun x y => P (f x) y) l k.
Proof.
  revert k. induction l as [|x l IH]; intros k H; inversion H; subst; constructor; auto.
Qed.

(** X15: a [complex128] array of size [2^n x 2^n], [n >= 1], that holds a
    linear combination of Pauli strings with coefficients [d] decomposes
    (in exact arithmetic) into exactly this combination: the weighted sum
    lists, in the order of
    [product("IXYZ", repeat=n)], the strings whose coefficient is above the
    tolerance, each with its coefficient [d] and the observable made of its
    factors.  So the expansion of a matrix in Pauli strings is unique and
    [pauli_decompose] finds it. *)
Theorem pauli_decompose_recovers_combination (n : nat) (matrix : ndarray)
  (d : list label -> C) (hide_identity : bool) (wire_order : option (list wire)) :
  dtype matrix = complex128 ->
  1 <= n ->
  shape matrix = (2 ^ n, 2 ^ n) ->
  wires_fit wire_order n ->
  (forall r c, r < 2 ^ n -> c < 2 ^ n ->
     item matrix r c =
     Csum (map (fun q => Cmul (d q) (pauli_entry q r c)) (product IXYZ n))) ->
  let strings := List.filter (fun q => negb (allclose0 (d q))) (product IXYZ n) in
  exists ops,
    pauli_decompose matrix hide_identity wire_order false false =
      Ok (inr (Hamiltonian None (map d strings) ops)) /\
    Forall2 (fun q op =>
               factors op =
               map (fun ow => op_map (fst ow) (snd ow))
                   (observables_of hide_identity (default_wires wire_order n) q))
            strings ops.
Proof.
  intros Ht Hn Hs Hw Hm strings.
  pose proof (length_default_wires wire_order n Hw) as Hlen.
  set (ws := default_wires wire_order n) in *.
  assert (Hk : kept_terms hide_identity ws (final_term_mat matrix n) (product IXYZ n) =
               map (fun q => (d q, observables_of hide_identity ws q)) strings).
  { apply kept_terms_filter.
    - intros q Hq. apply (coefficients_of_combination n matrix d Hs Hm).
      exact (product_length _ _ _ Hq).
    - intros q Hq. pose proof (product_length _ _ _ Hq) as Hq'.
      apply observables_of_some; rewrite Hq'; assumption. }
  rewrite (pauli_decompose_unpadded matrix n) by assumption.
  fold ws. rewrite collect_terms_kept, Hk. unfold package. cbn [fst snd].
  rewrite !map_map. cbn [fst snd].
  change (fun x : list label =>
            reduce matmul (map (fun ow => Ok (op_map (fst ow) (snd ow)))
                               (observables_of hide_identity ws x)))
    with (fun x => term_operator (observables_of hide_identity ws x)).
  destruct (collect (map (fun x => term_operator (observables_of hide_identity ws x)) strings))
    as [ops|e] eqn:Ec.
  - rewrite bind_Ok. exists ops. split; [reflexivity|].
    apply collect_Ok_Forall2 in Ec. apply Forall2_map_left in Ec.
    eapply Forall2_impl; [exact Ec|]. intros q op Hop. cbn beta in Hop.
    apply term_operator_factors in Hop. apply Hop.
  - exfalso.
    destruct (collect_term_operators (map (observables_of hide_identity ws) strings))
      as [ops [H1 _]].
    + apply List.Forall_map. apply List.Forall_forall. intros q Hq.
      apply filter_In in Hq. destruct Hq as [Hq _].
      pose proof (product_length _ _ _ Hq) as Hq'.
      apply observables_of_some; rewrite Hq'; assumption.
    + rewrite map_map in H1. rewrite H1 in Ec. discriminate Ec.
Qed.

Lemma pauli_decompose_recovers_combination_witness :
  let matrix := {| dtype := complex128; shape := (2, 2);
                   data := [[C1; Ci]; [Copp Ci; C1]] |} in
  let d := fun q : list label =>
             match q with
             | [Label.I] => C1
             | [Label.Y] => Copp C1
             | _ => C0
             end in
  exists ops,
    pauli_decompose matrix false None false false =
      Ok (inr (Hamiltonian None [C1; Copp C1] ops)) /\
    Forall2 (fun q op =>
               factors op =
               map (fun ow => op_map (fst ow) (snd ow))
                   (observables_of false (default_wires None 1) q))
            [[Label.I]; [Label.Y]] ops.
Proof.
  intros matrix d.
  refine (pauli_decompose_recovers_combination 1 matrix d false None eq_refl (le_n 1) eq_refl
            Logic.I _).
  intros r c Hr Hc.
  destruct r as [|[|r]]; [| |cbn in Hr; lia];
    (destruct c as [|[|c]]; [| |cbn in Hc; lia]); exact eq_refl.
Defined.

(** ** Hermitian matrices *)

Lemma Cconj_add (a b : C) : Cconj (Cadd a b) = Cadd (Cconj a) (Cconj b).
Proof. unfold Cconj. Cring. Qed.

Lemma Cconj_mul (a b : C) : Cconj (Cmul a b) = Cmul (Cconj a) (Cconj b).
Proof. unfold Cconj. Cring. Qed.

Lemma Cconj_Csum {A : Type} (f : A -> C) (l : list A) :
  Cconj (Csum (map f l)) = Csum (map (fun x => Cconj (f x)) l).
Proof.
  induction l as [|x l IH]; cbn [map].
  - rewrite Csum_nil. apply Cconj_C0.
  - rewrite !Csum_cons, Cconj_add, IH. reflexivity.
Qed.

Lemma sig_hermitian (l : label) (b d : bool) : Cconj (sig l d b) = sig l b d.
Proof. destruct l, b, d; unfold sig, Cconj; cbn; Cring. Qed.

(** The matrix of a Pauli string is Hermitian. *)
Lemma pauli_entry_hermitian (n : nat) :
  forall (q : list label) (r c : nat), length q = n -> r < 2 ^ n -> c < 2 ^ n ->
  Cconj (pauli_entry q c r) = pauli_entry q r c.
Proof.
  induction n as [|n IH]; intros q r c Hq Hr Hc.
  - destruct q; [|discriminate Hq]. cbn in Hr, Hc.
    replace r with 0 by lia. replace c with 0 by lia.
    rewrite pauli_entry_nil. unfold Cconj. Cring.
  - destruct (snoc_cases n q Hq) as [q' [l [-> Hq']]].
    destruct (half_cases r) as [h [b ->]]. destruct (half_cases c) as [k [d ->]].
    assert (Hh : h < 2 ^ n) by (cbn [Nat.pow] in Hr; destruct b; cbn [Nat.b2n] in Hr; lia).
    assert (Hk : k < 2 ^ n) by (cbn [Nat.pow] in Hc; destruct d; cbn [Nat.b2n] in Hc; lia).
    rewrite !pauli_entry_snoc by (rewrite Hq'; assumption).
    rewrite Cconj_mul, (IH q' h k Hq' Hh Hk), sig_hermitian. reflexivity.
Qed.

Lemma C_eq_bool_true (a b : C) : C_eq_bool a b = true -> a = b.
Proof.
  unfold C_eq_bool. intros H. apply andb_true_iff in H. destruct H as [H1 H2].
  apply C_ext; apply Qc_eq_bool_correct; assumption.
Qed.

Lemma is_hermitian_entries (m : ndarray) (r c : nat) :
  is_hermitian m = true -> r < fst (shape m) -> c < snd (shape m) ->
  item m r c = Cconj (item m c r).
Proof.
  unfold is_hermitian. intros H Hr Hc.
  apply andb_true_iff in H. destruct H as [_ H].
  rewrite forallb_forall in H. specialize (H r).
  rewrite forallb_forall in H. apply C_eq_bool_true. apply H.
  - apply in_seq. lia.
  - apply in_seq. lia.
Qed.

Lemma Qc_self_opposite (x : Qc) : x = (- x)%Qc -> x = 0%Qc.
Proof.
  intros H. assert (H2 : ((1 + 1) * x = 0)%Qc).
  { transitivity (x + x)%Qc; [ring|]. rewrite H at 2. ring. }
  apply Qcmult_integral in H2. destruct H2 as [H2|H2]; [discriminate H2 | exact H2].
Qed.

(** On a Hermitian matrix every coefficient of the transform is real. *)
Lemma hermitian_coefficient_real (n : nat) (matrix : ndarray) (p : list label) :
  shape matrix = (2 ^ n, 2 ^ n) -> is_hermitian matrix = true -> length p = n ->
  Cim (coefficient_of (final_term_mat matrix n) p) = 0%Qc.
Proof.
  intros Hs Hh Hp.
  assert (E : coefficient_of (final_term_mat matrix n) p =
              Cconj (coefficient_of (final_term_mat matrix n) p)).
  { apply (coefficients_of_combination n matrix
             (fun q => Cconj (coefficient_of (final_term_mat matrix n) q)) Hs); [|exact Hp].
    intros r c Hr Hc.
    rewrite (is_hermitian_entries matrix r c Hh) by (rewrite Hs; assumption).
    rewrite <- (coefficients_reexpand n matrix c r Hs Hc Hr).
    rewrite Cconj_Csum. apply Csum_map_ext. intros q Hq.
    rewrite Cconj_mul, (pauli_entry_hermitian n q r c (product_length _ _ _ Hq) Hr Hc).
    reflexivity. }
  apply Qc_self_opposite. exact (f_equal Cim E).
Qed.

Lemma Cim_Cdivn_real (z : C) (d : nat) : Cim z = 0%Qc -> Cim (Cdivn z d) = 0%Qc.
Proof. intros H. unfold Cdivn, Cim in *. cbn [snd]. rewrite H. unfold Qcdiv. ring. Qed.

(** The [term_mat] of a [float64] array on one qubit: the entry of the
    Y coefficient is stored through [astype_float64]. *)
Lemma float64_one_qubit_term_mat (matrix : ndarray) :
  dtype matrix = float64 -> shape matrix = (2, 2) ->
  computed_term_mat matrix 1 =
  Ok (divide
        (tabulate_as float64 2 2
           (fun row col =>
              match row, col with
              | 0, 0 => Cadd (item matrix 0 0) (item matrix 1 1)
              | 0, _ => Cadd (item matrix 0 1) (item matrix 1 0)
              | _, 0 => Csub (item matrix 0 0) (item matrix 1 1)
              | _, _ => astype_float64
                          (Cmul (Csub (item matrix 0 1) (item matrix 1 0)) Ci)
              end))
        2).
Proof.
  intros Ht Hs. unfold computed_term_mat. cbn [seq for_each].
  change (2 ^ 1) with 2.
  rewrite (permuted_xor matrix 2 (le_S 1 1 (le_n 1)) Hs).
  unfold hadamard_pass. cbn [dtype tabulate_as shape fst snd]. rewrite Ht. cbn [Nat.eqb].
  rewrite !bind_Ok. reflexivity.
Qed.

Lemma float64_one_qubit_coefficient_real (matrix term_mat : ndarray) (p : list label) :
  dtype matrix = float64 -> shape matrix = (2, 2) -> is_hermitian matrix = true ->
  computed_term_mat matrix 1 = Ok term_mat ->
  In p (product IXYZ 1) ->
  Cim (coefficient_of term_mat p) = 0%Qc.
Proof.
  intros Ht Hs Hh Hc Hp.
  rewrite (float64_one_qubit_term_mat matrix Ht Hs) in Hc. injection Hc as <-.
  assert (H00 : Cim (item matrix 0 0) = 0%Qc).
  { apply Qc_self_opposite.
    exact (f_equal Cim (is_hermitian_entries matrix 0 0 Hh
                          ltac:(rewrite Hs; cbn; lia) ltac:(rewrite Hs; cbn; lia))). }
  assert (H11 : Cim (item matrix 1 1) = 0%Qc).
  { apply Qc_self_opposite.
    exact (f_equal Cim (is_hermitian_entries matrix 1 1 Hh
                          ltac:(rewrite Hs; cbn; lia) ltac:(rewrite Hs; cbn; lia))). }
  assert (H01 : Cim (item matrix 0 1) = (- Cim (item matrix 1 0))%Qc).
  { exact (f_equal Cim (is_hermitian_entries matrix 0 1 Hh
                          ltac:(rewrite Hs; cbn; lia) ltac:(rewrite Hs; cbn; lia))). }
  cbn in Hp. destruct Hp as [<-|[<-|[<-|[<-|[]]]]];
    unfold coefficient_of; cbn [map in_YZ in_XY int_base2 fold_left Nat.mul Nat.add];
    (rewrite item_divide;
       [| apply well_shaped_tabulate_as | cbn; lia | cbn; lia]);
    apply Cim_Cdivn_real;
    (rewrite item_tabulate_as by lia); cbn [Nat.add].
  - unfold Cadd, Cim in *. cbn [snd]. rewrite H00, H11. ring.
  - unfold Cadd, Cim in *. cbn [snd]. rewrite H01. ring.
  - reflexivity.
  - unfold Csub, Cim in *. cbn [snd]. rewrite H00, H11. ring.
Qed.

(** X16: the weighted sum that [pauli_decompose] returns for a Hermitian
    matrix has real coefficients only (in exact arithmetic), whatever the
    dtype of the array. *)
Theorem hermitian_real_coefficients (matrix : ndarray) (hide_identity : bool)
  (wire_order : option (list wire)) (rep : option (gmap (gmap wire label) C))
  (coeffs : list C) (ops : list Operator) :
  is_hermitian matrix = true ->
  pauli_decompose matrix hide_identity wire_order false false =
    Ok (inr (Hamiltonian rep coeffs ops)) ->
  List.Forall (fun c => Cim c = 0%Qc) coeffs.
Proof.
  intros Hh Hd. apply pauli_decompose_Hamiltonian_inv in Hd.
  destruct Hd as [used [n [term_mat [ops' [Hused [Hs [Ht [HH _]]]]]]]].
  injection Hused as <-. injection HH as -> -> ->.
  apply List.Forall_map. apply List.Forall_forall. intros t Hin.
  apply kept_terms_In in Hin. destruct Hin as [p [Hp [-> [_ [Hobs Hne]]]]].
  destruct (dtype matrix) eqn:Edt.
  - destruct n as [|[|n]].
    + exfalso. apply Hne. rewrite Hobs.
      destruct Hp as [<-|[]]. apply observables_of_no_qubit.
    + exact (float64_one_qubit_coefficient_real matrix term_mat p Edt Hs Hh Ht Hp).
    + rewrite computed_term_mat_float64_raises in Ht by (first [exact Edt | lia]).
      discriminate Ht.
  - rewrite computed_term_mat_complex in Ht by exact Edt. injection Ht as <-.
    apply hermitian_coefficient_real; [exact Hs | exact Hh | exact (product_length _ _ _ Hp)].
Qed.

Lemma hermitian_real_coefficients_witness :
  is_hermitian docstring_matrix = true /\
  exists coeffs ops,
    pauli_decompose docstring_matrix false None false false =
      Ok (inr (Hamiltonian None coeffs ops)) /\
    List.Forall (fun c => Cim c = 0%Qc) coeffs.
Proof.
  split; [exact eq_refl|].
  destruct (pauli_decompose_Hamiltonian_exists docstring_matrix 2 false None eq_refl eq_refl
              Logic.I) as [coeffs [ops Hd]].
  exists coeffs, ops. split; [exact Hd|].
  exact (hermitian_real_coefficients docstring_matrix false None None coeffs ops eq_refl Hd).
Defined.

(** ** Arrays of dtype [float64] *)

(** X17: a [float64] array of size [2^n x 2^n] with two qubits or more
    that passes the checks is never decomposed: the first pass of the
    transform multiplies a view of the real array by [1j] in place, which
    raises NumPy's [UFuncTypeError], whatever the entries and the other
    options are. *)
Theorem pauli_decompose_float64_raises (matrix : ndarray) (n : nat) (hide_identity : bool)
  (wire_order : option (list wire)) (pauli : bool) :
  dtype matrix = float64 ->
  shape matrix = (2 ^ n, 2 ^ n) ->
  wires_fit wire_order n ->
  2 <= n ->
  pauli_decompose matrix hide_identity wire_order pauli false = Raise UFuncTypeError.
Proof.
  intros Ht Hs Hw Hn. rewrite (pauli_decompose_checked matrix n) by assumption.
  rewrite computed_term_mat_float64_raises by assumption. reflexivity.
Qed.

Lemma pauli_decompose_float64_raises_witness :
  let matrix := tabulate_as float64 4 4 (fun r c => if Nat.eqb r c then C1 else C0) in
  dtype matrix = float64 /\
  shape matrix = (2 ^ 2, 2 ^ 2) /\
  pauli_decompose matrix false None false false = Raise UFuncTypeError.
Proof.
  intros matrix. refine (conj eq_refl (conj eq_refl _)).
  exact (pauli_decompose_float64_raises matrix 2 false None false eq_refl eq_refl Logic.I
           (le_n 2)).
Defined.




